(** * Lua tables (ltable.c 1.26): chained scatter table with Brent's variation

    A shallow embedding of [ltable.c] and a verification of its main
    invariant, of [luaH_get]/[luaH_set] and of [rehash].

    The node vector [t->node] is a list of nodes, a [Node *] into it is
    an index ([NULL] is [None]), [t->firstfree] is an index.  A function
    that can call [lua_error] or run into undefined behaviour (a read
    outside the vector, a division by a size of zero, a walk along a chain
    that never ends) returns a [result]; a function that writes to the
    table returns an [outcome] carrying the table as the caller finds it
    afterwards.

    What the embedding leaves out or assumes:
    - the garbage collector's accounting ([L->nblocks], [t->marked],
      [t->htag], the list [L->roottable]) and [luaH_free];
    - [luaM_newvector] always returns a vector;
    - sizes and indices are natural numbers: an [int] holds them;
    - lobject.h and lobject.c are not among the sources: the type [real],
      the conversion of a [real] to [long], the hash stored in a
      [TaggedString], [luaO_equalObj] and [luaO_redimension] are
      parameters of the development. *)

From Stdlib Require Import ZArith Lia.
From stdpp Require Import base list strings.

Local Open Scope Z_scope.
Local Open Scope nat_scope.

(** ** Results of calls *)

Inductive result (A : Type) : Type :=
| Ret (a : A)            (* the call returns [a] *)
| Raise (msg : string)   (* [lua_error (msg)]: control leaves the call *)
| Undef.                 (* undefined behaviour, or the call never returns *)
Arguments Ret {A} a.
Arguments Raise {A} msg.
Arguments Undef {A}.

Inductive outcome (S : Type) : Type :=
| Returned (s : S)                 (* normal return, the state is [s] *)
| Raised (msg : string) (s : S)    (* [lua_error (msg)] with the state left as [s] *)
| Undefined.
Arguments Returned {S} s.
Arguments Raised {S} msg s.
Arguments Undefined {S}.

Definition outcome_map {S S' : Type} (f : S -> S') (o : outcome S) : outcome S' :=
  match o with
  | Returned s => Returned (f s)
  | Raised msg s => Raised msg (f s)
  | Undefined => Undefined
  end.

Definition outcome_bind {S S' : Type} (o : outcome S) (k : S -> outcome S')
    (h : S -> S') : outcome S' :=
  match o with
  | Returned s => k s
  | Raised msg s => Raised msg (h s)
  | Undefined => Undefined
  end.

(** ** Objects *)

(** The tags that [ltable.c] names; [LUA_T_MARK] stands for the remaining
    tags of [lobject.h] (the marks the interpreter leaves on its stack),
    which all take the [default:] branch of [luaH_mainposition]. *)
Inductive lua_Type : Set :=
| LUA_T_USERDATA | LUA_T_NUMBER | LUA_T_STRING | LUA_T_ARRAY
| LUA_T_PROTO | LUA_T_CPROTO | LUA_T_NIL | LUA_T_CLOSURE | LUA_T_MARK.

(** [unsigned long] of an LP64 machine. *)
Definition ULONG_BITS : Z := 64.
Definition to_ulong (z : Z) : Z := (z mod 2 ^ ULONG_BITS)%Z.

Section LTable.

(** The type [real] of Lua numbers and the conversion [(long) x], taken as
    a function defined on every number (lobject.h is not among the
    sources). *)
Context {real : Type}.
Variable real2long : real -> Z.

(** [ts->hash], the field of the [TaggedString] stored at address [ts]. *)
Variable ts_hash : Z -> Z.

(** A tagged object: the tag together with the member of the union [Value]
    that the tag selects.  Pointers are addresses. *)
Inductive TObject : Type :=
| O_NIL
| O_NUMBER (n : real)
| O_STRING (ts : Z)
| O_USERDATA (ts : Z)
| O_ARRAY (a : Z)
| O_PROTO (tf : Z)
| O_CPROTO (f : Z)
| O_CLOSURE (cl : Z)
| O_MARK (v : Z).

Definition ttype (o : TObject) : lua_Type :=
  match o with
  | O_NIL => LUA_T_NIL
  | O_NUMBER _ => LUA_T_NUMBER
  | O_STRING _ => LUA_T_STRING
  | O_USERDATA _ => LUA_T_USERDATA
  | O_ARRAY _ => LUA_T_ARRAY
  | O_PROTO _ => LUA_T_PROTO
  | O_CPROTO _ => LUA_T_CPROTO
  | O_CLOSURE _ => LUA_T_CLOSURE
  | O_MARK _ => LUA_T_MARK
  end.

(** [ttype (o) == LUA_T_NIL] *)
Definition is_nil (o : TObject) : bool :=
  match ttype o with LUA_T_NIL => true | _ => false end.
Arguments is_nil !o /.

Definition luaO_nilobject : TObject := O_NIL.

(** Modelled from the spec: [luaO_equalObj] of lobject.c, which is not
    among the sources.  The spec has keys compared by value for numbers
    and by identity for the other variants; the function is a parameter
    here, and the theorems assume that it decides the equality of objects
    ([equalObj_spec] below; a number that is not equal to itself, as NaN,
    is outside this assumption). *)
Variable luaO_equalObj : TObject -> TObject -> bool.

(** Modelled from the spec: [luaO_redimension] of lobject.c, which is not
    among the sources: the deterministic sizing function, which rounds
    its argument up.  It is a parameter here, and the theorems assume that
    it returns a size above its argument ([redimension_gt] below). *)
Variable luaO_redimension : nat -> nat.

Record Node : Type := mkNode {
  key : TObject;
  val : TObject;
  next : option nat;   (* for chaining *)
}.

Record Hash : Type := mkHash {
  node : list Node;
  size : nat;
  firstfree : nat;     (* this position is free; all positions after it are full *)
}.

(** ** luaH_mainposition *)

(** The [switch] of [luaH_mainposition]: the value of [h], or [None] in
    the [default:] branch. *)
Definition hashvalue (k : TObject) : option Z :=
  match k with
  | O_NUMBER n => Some (to_ulong (real2long n))
  | O_STRING ts | O_USERDATA ts => Some (ts_hash ts)
  | O_ARRAY a => Some (to_ulong a)
  | O_PROTO tf => Some (to_ulong tf)
  | O_CPROTO f => Some (to_ulong f)
  | O_CLOSURE cl => Some (to_ulong cl)
  | _ => None
  end.

Definition luaH_mainposition (t : Hash) (k : TObject) : result nat :=
  match hashvalue k with
  | None => Raise "unexpected type to index table"
  | Some h =>
      if Nat.eqb (size t) 0 then Undef
      else Ret (Z.to_nat (to_ulong h mod Z.of_nat (size t))%Z)
  end.

(** ** luaH_get *)

(** The [do ... while (n)] loop of [luaH_get], started at node [n].  A
    chain of a vector of [length nd] nodes that is followed for more than
    [length nd] steps has a cycle, and the loop never ends. *)
Fixpoint get_loop (fuel : nat) (nd : list Node) (k : TObject) (n : nat)
    : result TObject :=
  match fuel with
  | 0 => Undef
  | S fuel' =>
      match nd !! n with
      | None => Undef
      | Some x =>
          if luaO_equalObj k (key x) then Ret (val x)
          else match next x with
               | Some n' => get_loop fuel' nd k n'
               | None => Ret luaO_nilobject
               end
      end
  end.

Definition luaH_get (t : Hash) (k : TObject) : result TObject :=
  match luaH_mainposition t k with
  | Ret n => get_loop (length (node t)) (node t) k n
  | Raise msg => Raise msg
  | Undef => Undef
  end.

(** ** Creation *)

Definition hashnodecreate (nhash : nat) : list Node :=
  replicate nhash (mkNode O_NIL O_NIL None).

Definition setnodevector (size : nat) : Hash :=
  mkHash (hashnodecreate size) size (size - 1).

Definition luaH_new (size : nat) : Hash :=
  setnodevector (luaO_redimension (size + 1)).

Definition realuse (v : list Node) : nat :=
  length (filter (fun x => is_nil (val x) = false) v).

Definition newsize (t : Hash) : nat :=
  luaO_redimension (realuse (firstn (size t) (node t)) * 2).

(** ** rehash *)

(** [while (ttype(&t->firstfree->key) != LUA_T_NIL) t->firstfree--;] *)
Fixpoint skip_used (nd : list Node) (ff : nat) : result nat :=
  match nd !! ff with
  | None => Undef
  | Some x =>
      if is_nil (key x) then Ret ff
      else match ff with
           | 0 => Undef
           | S ff' => skip_used nd ff'
           end
  end.

Definition set_node (t : Hash) (nd : list Node) : Hash :=
  mkHash nd (size t) (firstfree t).

Definition set_firstfree (t : Hash) (ff : nat) : Hash :=
  mkHash (node t) (size t) ff.

(** One round of the first loop of [rehash], for the old node [old]: the
    old node as the loop leaves it, and the table.  [old->next] is set to
    NULL when the node is done with, and to the main position of its key
    in the new vector when it is left to the second loop. *)
Definition rehash_first_step (old : Node) (t : Hash) : outcome (Node * Hash) :=
  if is_nil (val old) then
    (* old->next = NULL; *)
    Returned (mkNode (key old) (val old) None, t)
  else
    match luaH_mainposition t (key old) with   (* new main position *)
    | Raise msg => Raised msg (old, t)
    | Undef => Undefined
    | Ret mp =>
        match node t !! mp with
        | None => Undefined
        | Some m =>
            if is_nil (key m) then
              (* mp->key = old->key; mp->val = old->val; old->next = NULL; *)
              Returned (mkNode (key old) (val old) None,
                        set_node t (<[mp := mkNode (key old) (val old) (next m)]> (node t)))
            else
              (* old->next = mp; *)
              Returned (mkNode (key old) (val old) (Some mp), t)
        end
    end.

Fixpoint rehash_first (nold : list Node) (t : Hash) : outcome (list Node * Hash) :=
  match nold with
  | [] => Returned ([], t)
  | old :: rest =>
      outcome_bind (rehash_first_step old t)
        (fun '(old', t') =>
           outcome_map (fun '(rest', t'') => (old' :: rest', t'')) (rehash_first rest t'))
        (fun '(old', t') => (old' :: rest, t'))
  end.

(** One round of the second loop of [rehash]. *)
Definition rehash_second_step (old : Node) (t : Hash) : outcome Hash :=
  match next old with
  | None => Returned t
  | Some mp =>
      let e := firstfree t in
      if (e <? length (node t)) && (mp <? length (node t)) then
        (* e->key = old->key; e->val = old->val; e->next = mp->next; *)
        let nd1 := <[e := mkNode (key old) (val old) (next (default old (node t !! mp)))]> (node t) in
        (* mp->next = e; *)
        let m := default old (nd1 !! mp) in
        let nd2 := <[mp := mkNode (key m) (val m) (Some e)]> nd1 in
        (* do { t->firstfree--; } while (ttype(&t->firstfree->key) != LUA_T_NIL); *)
        match e with
        | 0 => Undefined
        | S e' =>
            match skip_used nd2 e' with
            | Ret ff => Returned (mkHash nd2 (size t) ff)
            | _ => Undefined
            end
        end
      else Undefined
  end.

Fixpoint rehash_second (nold : list Node) (t : Hash) : outcome Hash :=
  match nold with
  | [] => Returned t
  | old :: rest =>
      outcome_bind (rehash_second_step old t) (rehash_second rest) (fun t' => t')
  end.

Definition rehash (t : Hash) : outcome Hash :=
  let nold := firstn (size t) (node t) in
  if length nold <? size t then Undefined
  else
    let t0 := setnodevector (newsize t) in
    outcome_bind (rehash_first nold t0)
      (fun '(nold1, t1) =>
         match skip_used (node t1) (firstfree t1) with
         | Ret ff => rehash_second nold1 (set_firstfree t1 ff)
         | _ => Undefined
         end)
      (fun '(_, t1) => t1).

(** ** luaH_set *)

(** The first loop of [luaH_set]: the node of the chain of [n] that holds
    [k], if there is one.  The fuel is as in [get_loop]. *)
Fixpoint find_loop (fuel : nat) (nd : list Node) (k : TObject) (n : nat)
    : result (option nat) :=
  match fuel with
  | 0 => Undef
  | S fuel' =>
      match nd !! n with
      | None => Undef
      | Some x =>
          if luaO_equalObj k (key x) then Ret (Some n)
          else match next x with
               | Some n' => find_loop fuel' nd k n'
               | None => Ret None
               end
      end
  end.

(** [while (othern->next != mp) othern = othern->next;], with fuel as in
    [get_loop]. *)
Fixpoint find_previous (fuel : nat) (nd : list Node) (mp othern : nat)
    : result nat :=
  match fuel with
  | 0 => Undef
  | S fuel' =>
      match nd !! othern with
      | None => Undef
      | Some x =>
          match next x with
          | None => Undef   (* [othern] becomes NULL and is dereferenced *)
          | Some n' =>
              if Nat.eqb n' mp then Ret othern
              else find_previous fuel' nd mp n'
          end
      end
  end.

(** The insertion of a key that is in no node of its chain (from
    [if (ttype(&mp->key) != LUA_T_NIL)] to [mp->val = *val;]). *)
Definition insert_key (t : Hash) (mp : nat) (k v : TObject) : outcome Hash :=
  match node t !! mp with
  | None => Undefined
  | Some m =>
      if is_nil (key m) then
        (* main position is free: mp->key = *key; mp->val = *val; *)
        Returned (set_node t (<[mp := mkNode k v (next m)]> (node t)))
      else
        let n := firstfree t in   (* get a free place *)
        match node t !! n with
        | None => Undefined
        | Some f =>
            (* mp > n && (othern = luaH_mainposition(t, &mp->key)) != mp *)
            let moved :=
              if n <? mp then
                match luaH_mainposition t (key m) with
                | Ret othern => if Nat.eqb othern mp then Ret None else Ret (Some othern)
                | Raise msg => Raise msg
                | Undef => Undef
                end
              else Ret None in
            match moved with
            | Raise msg => Raised msg t
            | Undef => Undefined
            | Ret (Some othern) =>
                (* move colliding node into free position *)
                match find_previous (length (node t)) (node t) mp othern with
                | Ret prev =>
                    (* othern->next = n; *)
                    let p := default m (node t !! prev) in
                    let nd1 := <[prev := mkNode (key p) (val p) (Some n)]> (node t) in
                    (* *n = *mp; *)
                    let m1 := default m (nd1 !! mp) in
                    let nd2 := <[n := m1]> nd1 in
                    (* mp->next = NULL; mp->key = *key; mp->val = *val; *)
                    let nd3 := <[mp := mkNode k v None]> nd2 in
                    Returned (set_node t nd3)
                | _ => Undefined
                end
            | Ret None =>
                (* new node will go into free position:
                   n->next = mp->next; mp->next = n; mp = n;
                   mp->key = *key; mp->val = *val; *)
                let nd1 := <[n := mkNode k v (next m)]> (node t) in
                let m1 := default m (nd1 !! mp) in
                let nd2 := <[mp := mkNode (key m1) (val m1) (Some n)]> nd1 in
                Returned (set_node t nd2)
            end
        end
  end.

(** The last loop of [luaH_set]: [Some ff] when it returns with
    [t->firstfree = ff], [None] when it breaks. *)
Fixpoint free_place (nd : list Node) (ff : nat) : result (option nat) :=
  match nd !! ff with
  | None => Undef
  | Some x =>
      if is_nil (key x) then Ret (Some ff)
      else match ff with
           | 0 => Ret None
           | S ff' => free_place nd ff'
           end
  end.

Definition check_free (t : Hash) : outcome Hash :=
  match free_place (node t) (firstfree t) with
  | Ret (Some ff) => Returned (set_firstfree t ff)
  | Ret None => rehash (set_firstfree t 0)
  | _ => Undefined
  end.

Definition luaH_set (t : Hash) (k v : TObject) : outcome Hash :=
  match luaH_mainposition t k with
  | Raise msg => Raised msg t
  | Undef => Undefined
  | Ret mp =>
      match find_loop (length (node t)) (node t) k mp with
      | Ret (Some n) =>
          (* n->val = *val; return; *)
          match node t !! n with
          | Some x => Returned (set_node t (<[n := mkNode (key x) v (next x)]> (node t)))
          | None => Undefined
          end
      | Ret None =>
          (* `key' not found; must insert it *)
          outcome_bind (insert_key t mp k v) check_free (fun t' => t')
      | _ => Undefined
      end
  end.

(** ** luaH_pos, luaH_setint, luaH_getint *)

(** The pointer that [luaH_get] returns: [Some n] for [&n->val], [None]
    for [&luaO_nilobject].  Its loop is the loop of [luaH_get], which is
    also the first loop of [luaH_set] ([get_loop_find] below relates the
    value read to the node found). *)
Definition luaH_get_ref (t : Hash) (k : TObject) : result (option nat) :=
  match luaH_mainposition t k with
  | Ret n => find_loop (length (node t)) (node t) k n
  | Raise msg => Raise msg
  | Undef => Undef
  end.

(** [luaH_pos]: the difference between [&t->node[n].val] and
    [&t->node[0].val], in bytes, is [n * sizeof(Node)]. *)
Definition luaH_pos (t : Hash) (k : TObject) : result Z :=
  match luaH_get_ref t k with
  | Ret None => Ret (-1)%Z                (* key not found *)
  | Ret (Some n) => Ret (Z.of_nat n)
  | Raise msg => Raise msg
  | Undef => Undef
  end.

(** The conversion of an [int] to [real] in [nvalue(&index) = key]
    (lobject.h is not among the sources). *)
Variable int2real : Z -> real.

Definition luaH_setint (t : Hash) (key : Z) (v : TObject) : outcome Hash :=
  luaH_set t (O_NUMBER (int2real key)) v.

Definition luaH_getint (t : Hash) (key : Z) : result TObject :=
  luaH_get t (O_NUMBER (int2real key)).

(** ** check_invariant (compiled under DEBUG) *)

(** A run of assertions: the first that fails ends the run. *)
Fixpoint check_all (f : nat -> result unit) (l : list nat) : result unit :=
  match l with
  | [] => Ret tt
  | n :: l' =>
      match f n with
      | Ret _ => check_all f l'
      | r => r
      end
  end.

(** [LUA_ASSERT (c, msg)]. *)
Definition LUA_ASSERT (c : bool) (msg : string) : result unit :=
  if c then Ret tt else Raise msg.

Fixpoint listfind (fuel : nat) (nd : list Node) (m n : nat) : result bool :=
  match fuel with
  | 0 => Undef
  | S fuel' =>
      if Nat.eqb m n then Ret true
      else match nd !! m with
           | None => Undef
           | Some x =>
               match next x with
               | Some m' => listfind fuel' nd m' n
               | None => Ret false
               end
           end
  end.

(** The body of the first loop of [check_invariant], at node [n]. *)
Definition check_before (t : Hash) (n : nat) : result unit :=
  match node t !! n with
  | None => Undef
  | Some x =>
      if is_nil (key x) then Ret tt
      else match luaH_mainposition t (key x) with
           | Ret mp =>
               LUA_ASSERT (Nat.eqb n mp)
                 "all elements before firstfree are empty or in their main positions"
           | Raise msg => Raise msg
           | Undef => Undef
           end
  end.

(** The body of its second loop, at node [n]. *)
Definition check_after (t : Hash) (n : nat) : result unit :=
  match node t !! n with
  | None => Undef
  | Some x =>
      match luaH_mainposition t (key x) with
      | Raise msg => Raise msg
      | Undef => Undef
      | Ret mp =>
          match LUA_ASSERT (negb (is_nil (key x)))
                  "cannot exist empty elements after firstfree" with
          | Ret _ =>
              let in_place :=
                if Nat.eqb n mp then Ret true
                else match node t !! mp with
                     | None => Undef
                     | Some m =>
                         match luaH_mainposition t (key m) with
                         | Ret mp' => Ret (Nat.eqb mp' mp)
                         | Raise msg => Raise msg
                         | Undef => Undef
                         end
                     end in
              match in_place with
              | Ret c =>
                  match LUA_ASSERT c
                          "either an element or its colliding element is in its main position" with
                  | Ret _ =>
                      match listfind (length (node t)) (node t) mp n with
                      | Ret c' =>
                          LUA_ASSERT c' "element is in its main position list"
                      | Raise msg => Raise msg
                      | Undef => Undef
                      end
                  | r => r
                  end
              | Raise msg => Raise msg
              | Undef => Undef
              end
          | r => r
          end
      end
  end.

Definition check_invariant (t : Hash) (filled : bool) : result nat :=
  match check_all (check_before t) (seq 0 (firstfree t)) with
  | Ret _ =>
      let middle :=
        if filled then
          match LUA_ASSERT (Nat.eqb (firstfree t) 0)
                  "table cannot have empty places" with
          | Ret _ => Ret (firstfree t)
          | Raise msg => Raise msg
          | Undef => Undef
          end
        else
          match node t !! firstfree t with
          | None => Undef
          | Some x =>
              match LUA_ASSERT (is_nil (key x)) "firstfree must be empty" with
              | Ret _ => Ret (S (firstfree t))
              | Raise msg => Raise msg
              | Undef => Undef
              end
          end in
      match middle with
      | Ret n =>
          match check_all (check_after t) (seq n (size t - n)) with
          | Ret _ => Ret 1
          | Raise msg => Raise msg
          | Undef => Undef
          end
      | Raise msg => Raise msg
      | Undef => Undef
      end
  | Raise msg => Raise msg
  | Undef => Undef
  end.

(** ** The invariant of a table *)

Definition hashable (k : TObject) : Prop := hashvalue k <> None.

(** The index that [luaH_mainposition] returns in a vector of [sz] nodes. *)
Definition mainpos (sz : nat) (k : TObject) : nat :=
  match hashvalue k with
  | Some h => Z.to_nat (to_ulong h mod Z.of_nat sz)%Z
  | None => 0
  end.

(** [chain nd i l]: the nodes reached from node [i] through [next], in
    order and up to the node whose [next] is [NULL], have the indices [l]. *)
Inductive chain (nd : list Node) : nat -> list nat -> Prop :=
| chain_last i x :
    nd !! i = Some x -> next x = None -> chain nd i [i]
| chain_cons i x j l :
    nd !! i = Some x -> next x = Some j -> chain nd j l -> chain nd i (i :: l).

(** What holds of the node vector at every moment, whatever [firstfree]. *)
Record core (nd : list Node) : Prop := mkCore {
  core_nonempty : 0 < length nd;
  core_empty : forall i x, nd !! i = Some x -> key x = O_NIL ->
      val x = O_NIL /\ next x = None;
  core_hashable : forall i x, nd !! i = Some x -> key x <> O_NIL ->
      hashable (key x);
  core_next : forall i x j, nd !! i = Some x -> next x = Some j ->
      exists y, nd !! j = Some y /\ key y <> O_NIL /\
        mainpos (length nd) (key y) = mainpos (length nd) (key x) /\
        mainpos (length nd) (key y) <> j;
  core_reach : forall i x, nd !! i = Some x -> key x <> O_NIL ->
      exists l, chain nd (mainpos (length nd) (key x)) l /\ i ∈ l;
  core_nodup : forall i j x y, nd !! i = Some x -> nd !! j = Some y ->
      key x <> O_NIL -> key x = key y -> i = j;
}.

(** The invariant between the insertion of a pair and the search for the
    next free place: [firstfree] itself may be taken. *)
Record pre_inv (t : Hash) : Prop := mkPreInv {
  inv_size : size t = length (node t);
  inv_core : core (node t);
  inv_ff : firstfree t < length (node t);
  inv_above : forall i x, node t !! i = Some x -> firstfree t < i ->
      key x <> O_NIL;
  inv_displaced : forall i x, node t !! i = Some x -> key x <> O_NIL ->
      mainpos (length (node t)) (key x) <> i -> firstfree t <= i;
}.

(** The invariant of a table between two calls. *)
Definition inv (t : Hash) : Prop :=
  pre_inv t /\ exists x, node t !! firstfree t = Some x /\ key x = O_NIL.

(** The main invariant as the head of ltable.c words it: if an element is
    not in its main position, then the colliding element is in its own
    main position. *)
Definition main_position_invariant (t : Hash) : Prop :=
  forall i x, node t !! i = Some x -> key x <> O_NIL ->
    mainpos (size t) (key x) <> i ->
    exists y, node t !! mainpos (size t) (key x) = Some y /\
      key y <> O_NIL /\
      mainpos (size t) (key y) = mainpos (size t) (key x).

(** [k] is the key of a node of the table, with value [v]. *)
Definition holds (nd : list Node) (k v : TObject) : Prop :=
  exists i x, nd !! i = Some x /\ key x = k /\ val x = v.

Definition present (nd : list Node) (k : TObject) : Prop :=
  exists i x, nd !! i = Some x /\ key x = k.

(** The number of nodes whose key is not nil. *)
Definition used (nd : list Node) : nat :=
  length (filter (fun x => is_nil (key x) = false) nd).

(** A sequence of calls of [luaH_set]. *)
Fixpoint luaH_sets (t : Hash) (ops : list (TObject * TObject)) : outcome Hash :=
  match ops with
  | [] => Returned t
  | (k, v) :: ops' => outcome_bind (luaH_set t k v) (fun t' => luaH_sets t' ops') (fun t' => t')
  end.

(** The tables a program can hold: made by [luaH_new], then written to by
    [luaH_set] with keys that can index a table. *)
Definition reachable (t : Hash) : Prop :=
  exists (n : nat) (ops : list (TObject * TObject)),
    Forall (fun op => hashable (fst op)) ops /\
    luaH_sets (luaH_new n) ops = Returned t.

(** ** Assumptions on the two functions of lobject.c *)

Hypothesis equalObj_spec : forall a b, luaO_equalObj a b = true <-> a = b.
Hypothesis redimension_gt : forall n, n < luaO_redimension n.

(** ** Elementary facts *)

Lemma is_nil_true k : is_nil k = true <-> k = O_NIL.
Proof. destruct k; simpl; split; congruence. Qed.

Lemma is_nil_false k : is_nil k = false <-> k <> O_NIL.
Proof. destruct k; simpl; split; congruence. Qed.

Lemma key_eq_dec_nil (k : TObject) : {k = O_NIL} + {k <> O_NIL}.
Proof. destruct k; (left; reflexivity) || (right; discriminate). Qed.

Lemma hashable_not_nil k : hashable k -> k <> O_NIL.
Proof. intros H ->. apply H. reflexivity. Qed.

Lemma mainpos_lt sz k : 0 < sz -> mainpos sz k < sz.
Proof.
  intros Hsz. unfold mainpos. destruct (hashvalue k) as [h|]; [|lia].
  pose proof (Z.mod_pos_bound (to_ulong h) (Z.of_nat sz)). lia.
Qed.

Lemma luaH_mainposition_ret t k :
  hashable k -> 0 < size t ->
  luaH_mainposition t k = Ret (mainpos (size t) k).
Proof.
  intros Hk Hsz. unfold luaH_mainposition, mainpos, hashable in *.
  destruct (hashvalue k); [|congruence].
  destruct (Nat.eqb_spec (size t) 0); [lia|reflexivity].
Qed.

Lemma luaH_mainposition_raise t k :
  ~ hashable k ->
  luaH_mainposition t k = Raise "unexpected type to index table".
Proof.
  unfold luaH_mainposition, hashable. destruct (hashvalue k); [|reflexivity].
  intros H. exfalso. apply H. discriminate.
Qed.

Lemma equalObj_refl k : luaO_equalObj k k = true.
Proof. apply equalObj_spec. reflexivity. Qed.

Lemma equalObj_neq a b : a <> b -> luaO_equalObj a b = false.
Proof.
  intros H. destruct (luaO_equalObj a b) eqn:E; [|reflexivity].
  apply equalObj_spec in E. contradiction.
Qed.

(** ** Chains *)

Lemma chain_head nd i l : chain nd i l -> exists l', l = i :: l'.
Proof. destruct 1; eauto. Qed.

Lemma chain_lookup nd i l : chain nd i l -> is_Some (nd !! i).
Proof. destruct 1; eauto. Qed.

Lemma chain_det nd i l1 : chain nd i l1 -> forall l2, chain nd i l2 -> l1 = l2.
Proof.
  induction 1 as [i x Hi Hn|i x j l Hi Hn Hc IH]; intros l2 H2;
    inversion H2; subst; try congruence.
  assert (j0 = j) by congruence. subst. f_equal. auto.
Qed.

Lemma chain_suffix nd i l j :
  chain nd i l -> j ∈ l -> exists l1 l2, l = l1 ++ l2 /\ chain nd j l2.
Proof.
  induction 1 as [i x Hi Hn|i x j' l Hi Hn Hc IH]; intros Hj.
  - apply list_elem_of_singleton in Hj as ->.
    exists [], [i]. split; [reflexivity|]. econstructor; eauto.
  - apply elem_of_cons in Hj as [->|Hj].
    + exists [], (i :: l). split; [reflexivity|]. econstructor; eauto.
    + destruct (IH Hj) as (l1 & l2 & -> & Hc2).
      exists (i :: l1), l2. split; [reflexivity|assumption].
Qed.

Lemma chain_not_in_tail nd i l : chain nd i (i :: l) -> i ∉ l.
Proof.
  intros Hc Hin. inversion Hc as [|? x j ? Hi Hn Hc']; subst.
  - inversion Hin.
  - destruct (chain_suffix _ _ _ _ Hc' Hin) as (l1 & l2 & -> & Hc2).
    pose proof (chain_det _ _ _ Hc _ Hc2) as E.
    apply (f_equal length) in E. simpl in E. rewrite length_app in E. lia.
Qed.

Lemma chain_NoDup nd i l : chain nd i l -> NoDup l.
Proof.
  induction 1 as [i x Hi Hn|i x j l Hi Hn Hc IH].
  - apply NoDup_singleton.
  - apply NoDup_cons. split; [|assumption].
    apply (chain_not_in_tail nd). econstructor; eauto.
Qed.

Lemma chain_bound nd i l j : chain nd i l -> j ∈ l -> j < length nd.
Proof.
  induction 1 as [i x Hi Hn|i x j' l Hi Hn Hc IH]; intros Hj.
  - apply list_elem_of_singleton in Hj as ->. eapply lookup_lt_Some; eauto.
  - apply elem_of_cons in Hj as [->|Hj]; [eapply lookup_lt_Some; eauto|auto].
Qed.

Lemma chain_length nd i l : chain nd i l -> length l <= length nd.
Proof.
  intros Hc.
  assert (Hsub : l ⊆+ seq 0 (length nd)).
  { apply NoDup_submseteq; [eapply chain_NoDup; eauto|].
    intros j Hj. apply elem_of_seq. split; [lia|].
    simpl. eapply chain_bound; eauto. }
  apply submseteq_length in Hsub. rewrite length_seq in Hsub. exact Hsub.
Qed.

(** A chain is carried along a renaming [f] of the nodes that commutes
    with [next] on the chain. *)
Lemma chain_map (f : nat -> nat) nd nd' i l :
  chain nd i l ->
  (forall j x, j ∈ l -> nd !! j = Some x ->
     exists x', nd' !! f j = Some x' /\ next x' = f <$> next x) ->
  chain nd' (f i) (f <$> l).
Proof.
  induction 1 as [i x Hi Hn|i x j l Hi Hn Hc IH]; intros Hf.
  - destruct (Hf i x) as (x' & Hx' & Hn'); [left|assumption|].
    rewrite Hn in Hn'. simpl. econstructor; eauto.
  - destruct (Hf i x) as (x' & Hx' & Hn'); [left|assumption|].
    rewrite Hn in Hn'. rewrite fmap_cons. econstructor; eauto.
    apply IH. intros j' y Hj' Hy. apply Hf; [right|]; assumption.
Qed.

Lemma chain_ext nd nd' i l :
  chain nd i l ->
  (forall j x, j ∈ l -> nd !! j = Some x ->
     exists x', nd' !! j = Some x' /\ next x' = next x) ->
  chain nd' i l.
Proof.
  intros Hc Hf.
  pose proof (chain_map id nd nd' i l Hc) as H.
  rewrite list_fmap_id in H. apply H.
  intros j x Hj Hx. destruct (Hf j x Hj Hx) as (x' & ? & Hn).
  exists x'. split; [assumption|]. rewrite Hn. destruct (next x); reflexivity.
Qed.

Lemma chain_next_in nd i l j x k :
  chain nd i l -> j ∈ l -> nd !! j = Some x -> next x = Some k -> k ∈ l.
Proof.
  induction 1 as [i y Hi Hn|i y j' l Hi Hn Hc IH]; intros Hj Hx Hk.
  - apply list_elem_of_singleton in Hj as ->. congruence.
  - apply elem_of_cons in Hj as [->|Hj].
    + assert (j' = k) by congruence. subst.
      right. destruct (chain_head _ _ _ Hc) as (l' & ->). left.
    + right. eauto.
Qed.

(** ** Consequences of [core] *)

Lemma chain_same_mainpos nd a l y :
  core nd -> chain nd a l -> nd !! a = Some y ->
  forall j z, j ∈ l -> nd !! j = Some z ->
    mainpos (length nd) (key z) = mainpos (length nd) (key y).
Proof.
  intros Hcore Hc. revert y.
  induction Hc as [i x Hi Hn|i x j' l Hi Hn Hc IH]; intros y Hy j z Hj Hz.
  - apply list_elem_of_singleton in Hj as ->. congruence.
  - apply elem_of_cons in Hj as [->|Hj]; [congruence|].
    assert (x = y) by congruence. subst x.
    destruct (core_next _ Hcore _ _ _ Hi Hn) as (y' & Hy' & _ & Hmp & _).
    rewrite <- Hmp. eapply IH; eauto.
Qed.

(** Every node of a chain but the first is pointed to: it holds a key and
    is not in the main position of that key. *)
Lemma chain_tail_displaced nd a l :
  core nd -> chain nd a l ->
  forall j, j ∈ l -> j <> a ->
    exists z, nd !! j = Some z /\ key z <> O_NIL /\
      mainpos (length nd) (key z) <> j.
Proof.
  intros Hcore.
  induction 1 as [i x Hi Hn|i x j' l Hi Hn Hc IH]; intros j Hj Hne.
  - apply list_elem_of_singleton in Hj. contradiction.
  - apply elem_of_cons in Hj as [->|Hj]; [contradiction|].
    destruct (core_next _ Hcore _ _ _ Hi Hn) as (y' & Hy' & Hk & _ & Hd).
    destruct (decide (j = j')) as [->|Hjj]; [eauto|].
    apply IH; assumption.
Qed.

Lemma core_term nd i :
  core nd -> i < length nd -> exists l, chain nd i l.
Proof.
  intros Hcore Hi.
  destruct (lookup_lt_is_Some_2 nd i Hi) as [x Hx].
  destruct (key_eq_dec_nil (key x)) as [Hk|Hk].
  - destruct (core_empty _ Hcore _ _ Hx Hk) as [_ Hn].
    exists [i]. econstructor; eauto.
  - destruct (core_reach _ Hcore _ _ Hx Hk) as (l & Hc & Hin).
    destruct (chain_suffix _ _ _ _ Hc Hin) as (_ & l2 & _ & Hc2). eauto.
Qed.

(** The main invariant follows from [core]. *)
Lemma core_main nd i x :
  core nd -> nd !! i = Some x -> key x <> O_NIL ->
  mainpos (length nd) (key x) <> i ->
  exists y, nd !! mainpos (length nd) (key x) = Some y /\
    key y <> O_NIL /\
    mainpos (length nd) (key y) = mainpos (length nd) (key x).
Proof.
  intros Hcore Hx Hk Hd.
  destruct (core_reach _ Hcore _ _ Hx Hk) as (l & Hc & Hin).
  inversion Hc as [? y Hy Hn|? y j l' Hy Hn Hc']; subst.
  - apply list_elem_of_singleton in Hin. congruence.
  - exists y. split; [assumption|]. split.
    + intros Hnil. destruct (core_empty _ Hcore _ _ Hy Hnil). congruence.
    + symmetry. exact (chain_same_mainpos nd _ _ y Hcore Hc Hy i x Hin Hx).
Qed.

(** A node in its main position heads the chain of every key with that
    main position. *)
Lemma core_root_key nd i x :
  core nd -> nd !! i = Some x -> key x <> O_NIL ->
  forall y, nd !! mainpos (length nd) (key x) = Some y ->
    key y <> O_NIL /\ mainpos (length nd) (key y) = mainpos (length nd) (key x).
Proof.
  intros Hcore Hx Hk y Hy.
  destruct (decide (mainpos (length nd) (key x) = i)) as [E|E].
  - rewrite E in Hy. assert (y = x) by congruence. subst. auto.
  - destruct (core_main _ _ _ Hcore Hx Hk E) as (y' & Hy' & ? & ?).
    assert (y' = y) by congruence. subst. auto.
Qed.

(** ** The search along a chain *)

Lemma find_loop_none_chain nd k i l fuel :
  chain nd i l -> length l <= fuel ->
  (forall j x, j ∈ l -> nd !! j = Some x -> key x <> k) ->
  find_loop fuel nd k i = Ret None.
Proof.
  intros Hc. revert fuel.
  induction Hc as [i x Hi Hn|i x j' l Hi Hn Hc IH]; intros fuel Hf Hk;
    (destruct fuel as [|fuel]; [simpl in Hf; lia|]); simpl; rewrite Hi.
  - rewrite equalObj_neq; [|intros E; eapply (Hk i x); [left| |]; eauto].
    rewrite Hn. reflexivity.
  - rewrite equalObj_neq; [|intros E; eapply (Hk i x); [left| |]; eauto].
    rewrite Hn. apply IH; [simpl in Hf; lia|].
    intros j x' Hj. apply Hk. right. assumption.
Qed.

Lemma find_loop_some_chain nd k i l fuel j x :
  chain nd i l -> length l <= fuel ->
  j ∈ l -> nd !! j = Some x -> key x = k ->
  (forall j' y, j' ∈ l -> nd !! j' = Some y -> key y = k -> j' = j) ->
  find_loop fuel nd k i = Ret (Some j).
Proof.
  intros Hc. revert fuel.
  induction Hc as [i y Hi Hn|i y j' l Hi Hn Hc IH]; intros fuel Hf Hj Hx Hk Hu;
    (destruct fuel as [|fuel]; [simpl in Hf; lia|]); simpl; rewrite Hi.
  - apply list_elem_of_singleton in Hj as ->.
    assert (y = x) by congruence. subst y. rewrite Hk, equalObj_refl. reflexivity.
  - destruct (decide (i = j)) as [->|Hij].
    + assert (y = x) by congruence. subst y. rewrite Hk, equalObj_refl. reflexivity.
    + rewrite equalObj_neq.
      2:{ intros E. apply Hij. eapply Hu; [left| |]; eauto. }
      rewrite Hn. apply IH; try assumption; [simpl in Hf; lia| |].
      * apply elem_of_cons in Hj as [->|Hj]; [contradiction|assumption].
      * intros j0 y0 Hj0. apply Hu. right. assumption.
Qed.

Lemma find_loop_sound fuel nd k i j :
  find_loop fuel nd k i = Ret (Some j) ->
  exists x, nd !! j = Some x /\ key x = k.
Proof.
  revert i. induction fuel as [|fuel IH]; intros i; simpl; [discriminate|].
  destruct (nd !! i) as [x|] eqn:Hi; [|discriminate].
  destruct (luaO_equalObj k (key x)) eqn:E.
  - intros [= <-]. apply equalObj_spec in E. eauto.
  - destruct (next x); [apply IH|discriminate].
Qed.

Lemma get_loop_find fuel nd k i :
  get_loop fuel nd k i =
  match find_loop fuel nd k i with
  | Ret (Some j) => match nd !! j with Some x => Ret (val x) | None => Undef end
  | Ret None => Ret O_NIL
  | Raise msg => Raise msg
  | Undef => Undef
  end.
Proof.
  revert i. induction fuel as [|fuel IH]; intros i; simpl; [reflexivity|].
  destruct (nd !! i) as [x|] eqn:Hi; [|reflexivity].
  destruct (luaO_equalObj k (key x)); [rewrite Hi; reflexivity|].
  destruct (next x); [apply IH|reflexivity].
Qed.

Lemma find_loop_present nd k j x :
  core nd -> hashable k -> nd !! j = Some x -> key x = k ->
  find_loop (length nd) nd k (mainpos (length nd) k) = Ret (Some j).
Proof.
  intros Hcore Hh Hx Hk.
  assert (Hnn : key x <> O_NIL) by (rewrite Hk; apply hashable_not_nil, Hh).
  destruct (core_reach _ Hcore _ _ Hx Hnn) as (l & Hc & Hin).
  rewrite Hk in Hc.
  eapply find_loop_some_chain; eauto using chain_length.
  intros j' y _ Hy Hky. eapply core_nodup; eauto.
  - rewrite Hky, <- Hk. assumption.
  - congruence.
Qed.

Lemma find_loop_absent nd k :
  core nd -> hashable k -> ~ present nd k ->
  find_loop (length nd) nd k (mainpos (length nd) k) = Ret None.
Proof.
  intros Hcore Hh Hnp.
  destruct (core_term nd (mainpos (length nd) k) Hcore) as (l & Hc).
  { apply mainpos_lt, (core_nonempty _ Hcore). }
  eapply find_loop_none_chain; eauto using chain_length.
  intros j x _ Hx Hk. apply Hnp. exists j, x. auto.
Qed.

Lemma find_loop_ret nd k i l fuel :
  chain nd i l -> length l <= fuel ->
  exists r, find_loop fuel nd k i = Ret r.
Proof.
  intros Hc. revert fuel.
  induction Hc as [i x Hi Hn|i x j' l Hi Hn Hc IH]; intros fuel Hf;
    (destruct fuel as [|fuel]; [simpl in Hf; lia|]); simpl; rewrite Hi, Hn;
    destruct (luaO_equalObj k (key x)); eauto.
  apply IH. simpl in Hf. lia.
Qed.

Lemma find_loop_total nd k :
  core nd -> hashable k ->
  (exists j x, nd !! j = Some x /\ key x = k /\
     find_loop (length nd) nd k (mainpos (length nd) k) = Ret (Some j)) \/
  (~ present nd k /\
     find_loop (length nd) nd k (mainpos (length nd) k) = Ret None).
Proof.
  intros Hcore Hh.
  destruct (core_term nd (mainpos (length nd) k) Hcore) as (l & Hc).
  { apply mainpos_lt, (core_nonempty _ Hcore). }
  destruct (find_loop_ret nd k _ l (length nd) Hc) as ([j|] & E);
    [eapply chain_length; eauto| |].
  - destruct (find_loop_sound _ _ _ _ _ E) as (x & Hx & Hk). left. eauto 6.
  - right. split; [|assumption]. intros (j & x & Hx & Hk).
    rewrite (find_loop_present nd k j x) in E by assumption. discriminate.
Qed.

(** ** luaH_get reads the node that holds the key *)

Lemma luaH_get_holds t k v :
  pre_inv t -> hashable k -> holds (node t) k v -> luaH_get t k = Ret v.
Proof.
  intros Hinv Hh (j & x & Hx & Hk & Hv).
  pose proof (inv_core _ Hinv) as Hcore.
  unfold luaH_get. rewrite luaH_mainposition_ret; [|assumption|].
  2:{ rewrite (inv_size _ Hinv). apply (core_nonempty _ Hcore). }
  rewrite get_loop_find, (inv_size _ Hinv).
  rewrite (find_loop_present _ k j x) by assumption.
  rewrite Hx. congruence.
Qed.

Lemma luaH_get_absent t k :
  pre_inv t -> hashable k -> ~ present (node t) k -> luaH_get t k = Ret O_NIL.
Proof.
  intros Hinv Hh Hnp.
  pose proof (inv_core _ Hinv) as Hcore.
  unfold luaH_get. rewrite luaH_mainposition_ret; [|assumption|].
  2:{ rewrite (inv_size _ Hinv). apply (core_nonempty _ Hcore). }
  rewrite get_loop_find, (inv_size _ Hinv).
  rewrite find_loop_absent by assumption. reflexivity.
Qed.

Lemma holds_present nd k v : holds nd k v -> present nd k.
Proof. intros (j & x & ? & ? & ?). exists j, x. auto. Qed.

Lemma present_holds nd k : present nd k -> exists v, holds nd k v.
Proof. intros (j & x & ? & ?). exists (val x), j, x. auto. Qed.

Lemma holds_fun nd k v1 v2 :
  core nd -> k <> O_NIL -> holds nd k v1 -> holds nd k v2 -> v1 = v2.
Proof.
  intros Hcore Hk (i & x & Hx & Hkx & <-) (j & y & Hy & Hky & <-).
  assert (i = j) by (eapply core_nodup; eauto; congruence).
  subst. congruence.
Qed.

(** [luaH_get] never fails on a table that satisfies the invariant. *)
Lemma luaH_get_total t k :
  pre_inv t -> hashable k ->
  (exists v, holds (node t) k v /\ luaH_get t k = Ret v) \/
  (~ present (node t) k /\ luaH_get t k = Ret O_NIL).
Proof.
  intros Hinv Hh.
  destruct (find_loop_total (node t) k (inv_core _ Hinv) Hh)
    as [(j & x & Hx & Hk & _)|[Hnp _]].
  - left. exists (val x). split; [exists j, x; auto|].
    apply luaH_get_holds; [assumption..|]. exists j, x. auto.
  - right. split; [assumption|]. apply luaH_get_absent; assumption.
Qed.

(** ** The shape of the chains *)

(** No two nodes point to the same node. *)
Lemma core_next_inj nd a b x y j :
  core nd -> nd !! a = Some x -> nd !! b = Some y ->
  next x = Some j -> next y = Some j -> a = b.
Proof.
  intros Hcore Hx Hy Hnx Hny.
  assert (Hkx : key x <> O_NIL).
  { intros E. destruct (core_empty _ Hcore _ _ Hx E). congruence. }
  assert (Hky : key y <> O_NIL).
  { intros E. destruct (core_empty _ Hcore _ _ Hy E). congruence. }
  destruct (core_next _ Hcore _ _ _ Hx Hnx) as (z & Hz & _ & Hmx & _).
  destruct (core_next _ Hcore _ _ _ Hy Hny) as (z' & Hz' & _ & Hmy & _).
  assert (z' = z) by congruence. subst z'.
  destruct (core_reach _ Hcore _ _ Hx Hkx) as (l & Hc & Hin).
  destruct (core_reach _ Hcore _ _ Hy Hky) as (l' & Hc' & Hin').
  rewrite <- Hmx in Hc. rewrite <- Hmy in Hc'.
  pose proof (chain_det _ _ _ Hc _ Hc'). subst l'.
  destruct (chain_suffix _ _ _ _ Hc Hin) as (l1 & l2 & E1 & Hc1).
  destruct (chain_suffix _ _ _ _ Hc Hin') as (l1' & l2' & E2 & Hc2).
  inversion Hc1 as [|? x0 j0 l3 Hx0 Hn0 Hc3]; subst; [congruence|].
  inversion Hc2 as [|? y0 j1 l3' Hy0 Hn1 Hc3']; subst; [congruence|].
  assert (j0 = j) by congruence. assert (j1 = j) by congruence. subst.
  pose proof (chain_det _ _ _ Hc3 _ Hc3'). subst l3'.
  apply app_inj_2 in E2 as [_ E2]; [congruence|reflexivity].
Qed.

Lemma core_no_self_loop nd i x :
  core nd -> nd !! i = Some x -> next x <> Some i.
Proof.
  intros Hcore Hx Hn.
  destruct (core_term nd i Hcore) as (l & Hc); [eapply lookup_lt_Some; eauto|].
  inversion Hc as [|? y j l' Hy Hny Hc']; subst; [congruence|].
  assert (j = i) by congruence. subst j.
  destruct (chain_head _ _ _ Hc') as (l'' & ->).
  apply (chain_not_in_tail _ _ _ Hc). left.
Qed.

(** A free node is in no chain but its own. *)
Lemma chain_free_head nd a l n f :
  core nd -> chain nd a l -> nd !! n = Some f -> key f = O_NIL ->
  n ∈ l -> a = n.
Proof.
  intros Hcore Hc Hf Hk Hin.
  destruct (decide (n = a)) as [->|Hne]; [reflexivity|].
  destruct (chain_tail_displaced _ _ _ Hcore Hc _ Hin Hne) as (z & Hz & Hkz & _).
  congruence.
Qed.

(** A node in its main position is in no chain but its own. *)
Lemma chain_root_head nd a l m y :
  core nd -> chain nd a l -> nd !! m = Some y ->
  mainpos (length nd) (key y) = m -> m ∈ l -> a = m.
Proof.
  intros Hcore Hc Hy Hm Hin.
  destruct (decide (m = a)) as [->|Hne]; [reflexivity|].
  destruct (chain_tail_displaced _ _ _ Hcore Hc _ Hin Hne) as (z & Hz & _ & Hd).
  congruence.
Qed.

(** ** Counting the occupied nodes *)

Lemma used_insert_free nd i x y :
  nd !! i = Some x -> key x = O_NIL -> key y <> O_NIL ->
  used (<[i := y]> nd) = S (used nd).
Proof.
  unfold used. revert i. induction nd as [|a nd IH]; intros i Hx Hkx Hky;
    [discriminate|].
  destruct i as [|i]; simpl in *.
  - injection Hx as ->. rewrite !filter_cons.
    apply is_nil_true in Hkx. apply is_nil_false in Hky.
    rewrite decide_True by assumption.
    rewrite decide_False by congruence. reflexivity.
  - rewrite !filter_cons. specialize (IH i Hx Hkx Hky).
    destruct (decide (is_nil (key a) = false)); simpl; rewrite IH; reflexivity.
Qed.

Lemma used_insert_same nd i x y :
  nd !! i = Some x -> is_nil (key y) = is_nil (key x) ->
  used (<[i := y]> nd) = used nd.
Proof.
  unfold used. revert i. induction nd as [|a nd IH]; intros i Hx Hk;
    [discriminate|].
  destruct i as [|i]; simpl in *.
  - injection Hx as ->. rewrite !filter_cons, Hk.
    destruct (decide (is_nil (key x) = false)); reflexivity.
  - rewrite !filter_cons. specialize (IH i Hx Hk).
    destruct (decide (is_nil (key a) = false)); simpl; rewrite IH; reflexivity.
Qed.

Lemma used_le_length nd : used nd <= length nd.
Proof. apply length_filter. Qed.

Lemma used_lt_free nd :
  used nd < length nd -> exists i x, nd !! i = Some x /\ key x = O_NIL.
Proof.
  unfold used. induction nd as [|a nd IH]; simpl; [lia|].
  rewrite filter_cons. destruct (decide (is_nil (key a) = false)) as [E|E].
  - simpl. intros H. destruct IH as (i & x & Hx & Hk); [lia|].
    exists (S i), x. auto.
  - intros _. exists 0, a. split; [reflexivity|].
    apply is_nil_true. destruct (is_nil (key a)); congruence.
Qed.

(** ** The three ways a pair enters the vector *)

(** The key goes into its main position, which is free. *)
Lemma core_insert_main nd m xm k v :
  core nd -> hashable k -> ~ present nd k ->
  nd !! m = Some xm -> key xm = O_NIL -> mainpos (length nd) k = m ->
  core (<[m := mkNode k v (next xm)]> nd).
Proof.
  intros Hcore Hh Hnp Hm Hkm Hmp.
  pose proof (lookup_lt_Some _ _ _ Hm) as Hlt.
  destruct (core_empty _ Hcore _ _ Hm Hkm) as [_ Hnm].
  assert (Hk : k <> O_NIL) by (apply hashable_not_nil, Hh).
  constructor; rewrite ?length_insert.
  - apply (core_nonempty _ Hcore).
  - intros i x Hx Hkx. destruct (decide (i = m)) as [->|Hne].
    + rewrite list_lookup_insert_eq in Hx by assumption.
      injection Hx as <-. simpl in Hkx. contradiction.
    + rewrite list_lookup_insert_ne in Hx by congruence.
      eapply core_empty; eauto.
  - intros i x Hx Hkx. destruct (decide (i = m)) as [->|Hne].
    + rewrite list_lookup_insert_eq in Hx by assumption.
      injection Hx as <-. assumption.
    + rewrite list_lookup_insert_ne in Hx by congruence.
      eapply core_hashable; eauto.
  - intros i x j Hx Hn. destruct (decide (i = m)) as [->|Hne].
    + rewrite list_lookup_insert_eq in Hx by assumption.
      injection Hx as <-. simpl in Hn. congruence.
    + rewrite list_lookup_insert_ne in Hx by congruence.
      destruct (core_next _ Hcore _ _ _ Hx Hn) as (y & Hy & Hky & Hmy & Hd).
      exists y. split; [|auto].
      rewrite list_lookup_insert_ne; [assumption|]. intros <-. congruence.
  - intros i x Hx Hkx. destruct (decide (i = m)) as [->|Hne].
    + rewrite list_lookup_insert_eq in Hx by assumption.
      injection Hx as <-. simpl. rewrite Hmp. exists [m]. split; [|left].
      eapply chain_last; [apply list_lookup_insert_eq; assumption|assumption].
    + rewrite list_lookup_insert_ne in Hx by congruence.
      destruct (core_reach _ Hcore _ _ Hx Hkx) as (l & Hc & Hin).
      exists l. split; [|assumption].
      eapply chain_ext; [eassumption|].
      intros j y _ Hy. destruct (decide (j = m)) as [->|Hjm].
      * rewrite list_lookup_insert_eq by assumption.
        eexists. split; [reflexivity|]. simpl. congruence.
      * rewrite list_lookup_insert_ne by congruence. eauto.
  - intros i j x y Hx Hy Hkx Hxy.
    destruct (decide (i = m)) as [->|Hi]; destruct (decide (j = m)) as [->|Hj];
      try reflexivity.
    + rewrite list_lookup_insert_eq in Hx by assumption.
      rewrite list_lookup_insert_ne in Hy by congruence.
      injection Hx as <-. simpl in *. exfalso. apply Hnp. exists j, y. auto.
    + rewrite list_lookup_insert_ne in Hx by congruence.
      rewrite list_lookup_insert_eq in Hy by assumption.
      injection Hy as <-. simpl in *. exfalso. apply Hnp. exists i, x. auto.
    + rewrite list_lookup_insert_ne in Hx, Hy by congruence.
      eapply core_nodup; eauto.
Qed.

(** The key goes into the free node [n] and is chained behind the node
    [m], its main position, which holds a key in its main position. *)
Lemma core_insert_chained nd m xm n f k v :
  core nd -> hashable k -> ~ present nd k ->
  nd !! m = Some xm -> key xm <> O_NIL ->
  mainpos (length nd) (key xm) = m -> mainpos (length nd) k = m ->
  nd !! n = Some f -> key f = O_NIL ->
  core (<[m := mkNode (key xm) (val xm) (Some n)]>
          (<[n := mkNode k v (next xm)]> nd)).
Proof.
  intros Hcore Hh Hnp Hm Hkm Hmm Hmk Hn Hkf.
  pose proof (lookup_lt_Some _ _ _ Hm) as Hltm.
  pose proof (lookup_lt_Some _ _ _ Hn) as Hltn.
  assert (Hnm : n <> m) by (intros ->; congruence).
  assert (Hk : k <> O_NIL) by (apply hashable_not_nil, Hh).
  set (nd' := <[m := mkNode (key xm) (val xm) (Some n)]>
                (<[n := mkNode k v (next xm)]> nd)).
  assert (Hlen : length nd' = length nd) by (unfold nd'; rewrite !length_insert; reflexivity).
  assert (Lm : nd' !! m = Some (mkNode (key xm) (val xm) (Some n))).
  { unfold nd'. apply list_lookup_insert_eq. rewrite length_insert. assumption. }
  assert (Ln : nd' !! n = Some (mkNode k v (next xm))).
  { unfold nd'. rewrite list_lookup_insert_ne by congruence.
    apply list_lookup_insert_eq. assumption. }
  assert (Lo : forall i, i <> m -> i <> n -> nd' !! i = nd !! i).
  { intros i H1 H2. unfold nd'. rewrite !list_lookup_insert_ne by congruence. reflexivity. }
  clearbody nd'.
  (* the chain of [m], with [n] behind its head *)
  assert (Hchm : forall l, chain nd m l ->
            exists l', l = m :: l' /\ chain nd' n (n :: l') /\ chain nd' m (m :: n :: l')).
  { intros l Hc. inversion Hc as [? y Hy Hny|? y j l' Hy Hny Hc']; subst.
    - assert (y = xm) by congruence. subst y.
      exists []. split; [reflexivity|].
      assert (chain nd' n [n]) by (eapply chain_last; [exact Ln|exact Hny]).
      split; [assumption|]. eapply chain_cons; [exact Lm|reflexivity|assumption].
    - assert (y = xm) by congruence. subst y.
      exists l'. split; [reflexivity|].
      assert (Hc'' : chain nd' j l').
      { eapply chain_ext; [exact Hc'|]. intros a z Ha Hz.
        exists z. split; [|reflexivity]. rewrite Lo; [assumption| |].
        - intros ->. apply (chain_not_in_tail _ _ _ Hc). assumption.
        - intros ->.
          assert (j = n); [|subst j].
          { exact (chain_free_head nd j l' n f Hcore Hc' Hn Hkf Ha). }
          destruct (core_next _ Hcore _ _ _ Hm Hny) as (y' & Hy' & Hky' & _).
          congruence. }
      assert (chain nd' n (n :: l')) by (eapply chain_cons; [exact Ln|exact Hny|assumption]).
      split; [assumption|]. eapply chain_cons; [exact Lm|reflexivity|assumption]. }
  constructor; rewrite ?Hlen.
  - apply (core_nonempty _ Hcore).
  - intros i x Hx Hkx.
    destruct (decide (i = m)) as [->|Him]; [rewrite Lm in Hx; injection Hx as <-; contradiction|].
    destruct (decide (i = n)) as [->|Hin]; [rewrite Ln in Hx; injection Hx as <-; contradiction|].
    rewrite Lo in Hx by assumption. eapply core_empty; eauto.
  - intros i x Hx Hkx.
    destruct (decide (i = m)) as [->|Him].
    { rewrite Lm in Hx; injection Hx as <-. simpl. eapply core_hashable; eauto. }
    destruct (decide (i = n)) as [->|Hin]; [rewrite Ln in Hx; injection Hx as <-; assumption|].
    rewrite Lo in Hx by assumption. eapply core_hashable; eauto.
  - intros i x j Hx Hnx.
    assert (Hold : forall i0 x0, nd !! i0 = Some x0 -> next x0 = Some j ->
              mainpos (length nd) (key x0) = mainpos (length nd) (key x) ->
              exists y, nd' !! j = Some y /\ key y <> O_NIL /\
                mainpos (length nd) (key y) = mainpos (length nd) (key x) /\
                mainpos (length nd) (key y) <> j).
    { intros i0 x0 Hx0 Hn0 Hmp0.
      destruct (core_next _ Hcore _ _ _ Hx0 Hn0) as (y & Hy & Hky & Hmy & Hd).
      exists y. split; [|split; [assumption|split; [congruence|assumption]]].
      rewrite Lo; [assumption| |]; intros ->; congruence. }
    destruct (decide (i = m)) as [->|Him].
    { rewrite Lm in Hx. injection Hx as <-. simpl in *. injection Hnx as <-.
      eexists. split; [exact Ln|]. simpl. repeat split; congruence. }
    destruct (decide (i = n)) as [->|Hin].
    { rewrite Ln in Hx. injection Hx as <-. simpl in *.
      apply (Hold m xm Hm Hnx). congruence. }
    rewrite Lo in Hx by assumption. eapply Hold; eauto.
  - intros i x Hx Hkx.
    destruct (core_reach _ Hcore _ _ Hm Hkm) as (lm & Hcm & _).
    rewrite Hmm in Hcm. destruct (Hchm _ Hcm) as (l' & -> & Hcn' & Hcm').
    destruct (decide (i = m)) as [->|Him].
    { rewrite Lm in Hx. injection Hx as <-. simpl. rewrite Hmm.
      eexists. split; [exact Hcm'|left]. }
    destruct (decide (i = n)) as [->|Hin].
    { rewrite Ln in Hx. injection Hx as <-. simpl. rewrite Hmk.
      eexists. split; [exact Hcm'|right; left]. }
    rewrite Lo in Hx by assumption.
    destruct (core_reach _ Hcore _ _ Hx Hkx) as (l & Hc & Hil).
    destruct (decide (mainpos (length nd) (key x) = m)) as [E|E].
    + rewrite E in *. pose proof (chain_det _ _ _ Hc _ Hcm). subst l.
      eexists. split; [exact Hcm'|].
      apply elem_of_cons in Hil as [->|Hil]; [left|right; right; assumption].
    + exists l. split; [|assumption].
      eapply chain_ext; [exact Hc|]. intros a z Ha Hz.
      exists z. split; [|reflexivity]. rewrite Lo; [assumption| |].
      * intros ->. apply E. exact (chain_root_head nd _ l m xm Hcore Hc Hm Hmm Ha).
      * intros ->.
        assert (mainpos (length nd) (key x) = n)
          by exact (chain_free_head nd _ l n f Hcore Hc Hn Hkf Ha).
        destruct (core_root_key _ _ _ Hcore Hx Hkx f) as [? _]; congruence.
  - intros i j x y Hx Hy Hkx Hxy.
    assert (Hnew : forall a z, a <> n -> nd' !! a = Some z -> key z <> k).
    { intros a z Ha Hz E. apply Hnp.
      destruct (decide (a = m)) as [->|Ham].
      - rewrite Lm in Hz. injection Hz as <-. simpl in E. exists m, xm. auto.
      - rewrite Lo in Hz by assumption. exists a, z. auto. }
    assert (Hold : forall a z, a <> n -> nd' !! a = Some z ->
              exists z', nd !! a = Some z' /\ key z' = key z).
    { intros a z Ha Hz. destruct (decide (a = m)) as [->|Ham].
      - rewrite Lm in Hz. injection Hz as <-. eauto.
      - rewrite Lo in Hz by assumption. eauto. }
    destruct (decide (i = n)) as [->|Hi]; destruct (decide (j = n)) as [->|Hj];
      try reflexivity.
    + rewrite Ln in Hx. injection Hx as <-. simpl in *.
      exfalso. eapply Hnew; eauto.
    + rewrite Ln in Hy. injection Hy as <-. simpl in *.
      exfalso. eapply Hnew; eauto.
    + destruct (Hold _ _ Hi Hx) as (x' & Hx' & Ex).
      destruct (Hold _ _ Hj Hy) as (y' & Hy' & Ey).
      eapply core_nodup; eauto; congruence.
Qed.

(** The node [p], which holds a key out of its main position, moves to
    the free node [n]; the node [prev] that pointed to [p] points to [n],
    and [p] is left free. *)
Section Move.

Variables (nd : list Node) (p prev n : nat) (xp xprev f : Node).
Hypothesis Hcore : core nd.
Hypothesis Hp : nd !! p = Some xp.
Hypothesis Hkp : key xp <> O_NIL.
Hypothesis Hdp : mainpos (length nd) (key xp) <> p.
Hypothesis Hprev : nd !! prev = Some xprev.
Hypothesis Hnprev : next xprev = Some p.
Hypothesis Hn : nd !! n = Some f.
Hypothesis Hkf : key f = O_NIL.

Definition moved : list Node :=
  <[p := mkNode O_NIL O_NIL None]>
    (<[n := xp]> (<[prev := mkNode (key xprev) (val xprev) (Some n)]> nd)).

Definition rename (i : nat) : nat := if decide (i = p) then n else i.

Lemma move_n_p : n <> p.
Proof. intros E. pose proof Hn as H. rewrite E in H. congruence. Qed.

Lemma move_prev_p : prev <> p.
Proof.
  intros E. apply (core_no_self_loop nd p xp Hcore Hp).
  pose proof Hprev as H. rewrite E in H. congruence.
Qed.

Lemma move_prev_n : prev <> n.
Proof.
  intros E. destruct (core_empty _ Hcore _ _ Hn Hkf) as [_ E'].
  pose proof Hprev as H. rewrite E in H. congruence.
Qed.

Lemma moved_length : length moved = length nd.
Proof. unfold moved. rewrite !length_insert. reflexivity. Qed.

Lemma moved_p : moved !! p = Some (mkNode O_NIL O_NIL None).
Proof.
  unfold moved. apply list_lookup_insert_eq. rewrite !length_insert.
  eapply lookup_lt_Some; eauto.
Qed.

Lemma moved_n : moved !! n = Some xp.
Proof.
  unfold moved. rewrite list_lookup_insert_ne by (pose proof move_n_p; congruence).
  apply list_lookup_insert_eq. rewrite !length_insert.
  eapply lookup_lt_Some; eauto.
Qed.

Lemma moved_prev :
  moved !! prev = Some (mkNode (key xprev) (val xprev) (Some n)).
Proof.
  unfold moved.
  rewrite list_lookup_insert_ne by (pose proof move_prev_p; congruence).
  rewrite list_lookup_insert_ne by (pose proof move_prev_n; congruence).
  apply list_lookup_insert_eq. eapply lookup_lt_Some; eauto.
Qed.

Lemma moved_other i :
  i <> p -> i <> n -> i <> prev -> moved !! i = nd !! i.
Proof.
  intros. unfold moved. rewrite !list_lookup_insert_ne by congruence. reflexivity.
Qed.

(** A node of the old vector other than [p] and [n] keeps its pair. *)
Lemma moved_keeps j y :
  nd !! j = Some y -> j <> p -> j <> n ->
  exists y', moved !! j = Some y' /\ key y' = key y /\ val y' = val y.
Proof.
  intros Hy H1 H2. destruct (decide (j = prev)) as [->|H3].
  - rewrite moved_prev. assert (y = xprev) by congruence. subst. eauto.
  - rewrite moved_other by assumption. eauto.
Qed.

(** Where the pair of a node of the new vector was. *)
Definition origin (j : nat) : nat := if decide (j = n) then p else j.

Lemma moved_origin j y' :
  moved !! j = Some y' -> key y' <> O_NIL ->
  j <> p /\ exists y, nd !! origin j = Some y /\ key y = key y' /\ val y = val y'.
Proof.
  intros Hy Hk. unfold origin.
  destruct (decide (j = p)) as [->|H1].
  { rewrite moved_p in Hy. injection Hy as <-. contradiction. }
  split; [assumption|].
  destruct (decide (j = n)) as [->|H2].
  { rewrite moved_n in Hy. injection Hy as <-. eauto. }
  destruct (decide (j = prev)) as [->|H3].
  { rewrite moved_prev in Hy. injection Hy as <-. eauto. }
  rewrite moved_other in Hy by assumption. eauto.
Qed.

Lemma moved_chain a l :
  chain nd a l -> n ∉ l -> chain moved (rename a) (rename <$> l).
Proof.
  intros Hc Hnl. apply (chain_map rename nd); [assumption|].
  intros j x Hj Hx. unfold rename at 1.
  destruct (decide (j = p)) as [->|H1].
  { assert (x = xp) by congruence. subst x.
    exists xp. split; [apply moved_n|].
    destruct (next xp) as [j2|] eqn:E; [|reflexivity]. simpl. f_equal.
    unfold rename. rewrite decide_False; [reflexivity|].
    intros ->. eapply core_no_self_loop; eauto. }
  destruct (decide (j = prev)) as [->|H3].
  { assert (x = xprev) by congruence. subst x.
    eexists. split; [apply moved_prev|]. simpl. rewrite Hnprev. simpl.
    unfold rename. rewrite decide_True; reflexivity. }
  assert (H2 : j <> n) by (intros ->; contradiction).
  exists x. split; [rewrite moved_other; assumption|].
  destruct (next x) as [j2|] eqn:E; [|reflexivity]. simpl. f_equal.
  unfold rename. rewrite decide_False; [reflexivity|].
  intros ->. apply H3. eapply core_next_inj; eauto.
Qed.

Lemma core_move : core moved.
Proof.
  pose proof move_n_p as Hnp. pose proof move_prev_p as Hpp.
  pose proof move_prev_n as Hpn.
  assert (Hkprev : key xprev <> O_NIL).
  { intros E. destruct (core_empty _ Hcore _ _ Hprev E). congruence. }
  destruct (core_next _ Hcore _ _ _ Hprev Hnprev) as (y0 & Hy0 & _ & Hmpp & _).
  assert (y0 = xp) by congruence. subst y0.
  constructor; rewrite ?moved_length.
  - apply (core_nonempty _ Hcore).
  - intros i x Hx Hkx.
    destruct (decide (i = p)) as [->|H1].
    { rewrite moved_p in Hx. injection Hx as <-. auto. }
    destruct (decide (i = n)) as [->|H2].
    { rewrite moved_n in Hx. congruence. }
    destruct (decide (i = prev)) as [->|H3].
    { rewrite moved_prev in Hx. injection Hx as <-. contradiction. }
    rewrite moved_other in Hx by assumption. eapply core_empty; eauto.
  - intros i x Hx Hkx.
    destruct (moved_origin _ _ Hx Hkx) as (_ & y & Hy & Ek & _).
    rewrite <- Ek. eapply core_hashable; eauto. congruence.
  - intros i x j Hx Hnx.
    assert (Hold : forall i0 x0, nd !! i0 = Some x0 -> next x0 = Some j ->
              key x0 = key x -> j <> p ->
              exists y, moved !! j = Some y /\ key y <> O_NIL /\
                mainpos (length nd) (key y) = mainpos (length nd) (key x) /\
                mainpos (length nd) (key y) <> j).
    { intros i0 x0 Hx0 Hn0 Ek Hjp.
      destruct (core_next _ Hcore _ _ _ Hx0 Hn0) as (y & Hy & Hky & Hmy & Hd).
      destruct (moved_keeps j y Hy Hjp) as (y' & Hy' & Ek' & _).
      { intros ->. congruence. }
      exists y'. rewrite Ek', <- Ek. auto. }
    destruct (decide (i = p)) as [->|H1].
    { rewrite moved_p in Hx. injection Hx as <-. discriminate. }
    destruct (decide (i = n)) as [->|H2].
    { rewrite moved_n in Hx. injection Hx as <-.
      apply (Hold p xp); auto. intros ->. eapply core_no_self_loop; eauto. }
    destruct (decide (i = prev)) as [->|H3].
    { rewrite moved_prev in Hx. injection Hx as <-. simpl in *.
      injection Hnx as <-. exists xp. split; [apply moved_n|].
      split; [assumption|]. split; [assumption|].
      intros E. destruct (core_main _ _ _ Hcore Hp Hkp Hdp) as (r & Hr & Hkr & _).
      rewrite E in Hr. congruence. }
    rewrite moved_other in Hx by assumption.
    apply (Hold i x); auto. intros ->. apply H3. eapply core_next_inj; eauto.
  - intros i x Hx Hkx.
    destruct (moved_origin _ _ Hx Hkx) as (Hip & y & Hy & Ek & _).
    assert (Hky : key y <> O_NIL) by congruence.
    destruct (core_reach _ Hcore _ _ Hy Hky) as (l & Hc & Hin).
    rewrite <- Ek.
    assert (Hr : exists r, nd !! mainpos (length nd) (key y) = Some r /\
               key r <> O_NIL /\
               mainpos (length nd) (key r) = mainpos (length nd) (key y)).
    { destruct (chain_lookup _ _ _ Hc) as [r Hr]. exists r.
      split; [assumption|]. eapply core_root_key; eauto. }
    destruct Hr as (r & Hr & Hkr & Hmr).
    assert (Hrp : mainpos (length nd) (key y) <> p).
    { intros E. rewrite E in Hr. assert (r = xp) by congruence. subst r.
      congruence. }
    assert (Hnl : n ∉ l).
    { intros Hnl.
      pose proof (chain_free_head _ _ _ _ _ Hcore Hc Hn Hkf Hnl) as E.
      rewrite E in Hr. congruence. }
    pose proof (moved_chain _ _ Hc Hnl) as Hc'.
    unfold rename at 1 in Hc'. rewrite decide_False in Hc' by assumption.
    eexists. split; [exact Hc'|].
    replace i with (rename (origin i)).
    + apply list_elem_of_fmap_2. assumption.
    + unfold rename, origin. destruct (decide (i = n)) as [->|];
        [rewrite decide_True; reflexivity|rewrite decide_False; congruence].
  - intros i j x y Hx Hy Hkx Hxy.
    destruct (moved_origin _ _ Hx Hkx) as (Hip & x0 & Hx0 & Ex & _).
    destruct (moved_origin j y Hy) as (Hjp & z0 & Hz0 & Ey & _); [congruence|].
    assert (E : origin i = origin j).
    { apply (core_nodup _ Hcore _ _ x0 z0); congruence. }
    unfold origin in E.
    destruct (decide (i = n)); destruct (decide (j = n)); congruence.
Qed.

Lemma moved_holds k v :
  k <> O_NIL -> (holds moved k v <-> holds nd k v).
Proof.
  intros Hk. split.
  - intros (j & y & Hy & Eky & Evy).
    destruct (moved_origin j y Hy) as (_ & z & Hz & Ek & Ev); [congruence|].
    exists (origin j), z. split; [assumption|]. split; congruence.
  - intros (j & y & Hy & Eky & Evy).
    destruct (decide (j = p)) as [->|H1].
    { exists n, xp. split; [apply moved_n|]. split; congruence. }
    destruct (moved_keeps j y Hy H1) as (y' & Hy' & Ek & Ev).
    { intros ->. congruence. }
    exists j, y'. split; [assumption|]. split; congruence.
Qed.

End Move.

(** ** The pairs of a vector after a write *)

Lemma holds_insert_free nd i f y k' v' :
  nd !! i = Some f -> key f = O_NIL -> k' <> O_NIL ->
  (holds (<[i := y]> nd) k' v' <->
   (key y = k' /\ val y = v') \/ holds nd k' v').
Proof.
  intros Hf Hkf Hk'. pose proof (lookup_lt_Some _ _ _ Hf) as Hlt. split.
  - intros (j & z & Hz & Ek & Ev). destruct (decide (j = i)) as [->|Hne].
    + rewrite list_lookup_insert_eq in Hz by assumption. injection Hz as <-. auto.
    + rewrite list_lookup_insert_ne in Hz by congruence. right. exists j, z. auto.
  - intros [[Ek Ev]|(j & z & Hz & Ek & Ev)].
    + exists i, y. split; [apply list_lookup_insert_eq; assumption|auto].
    + exists j, z. split; [|auto]. rewrite list_lookup_insert_ne; [assumption|].
      intros ->. congruence.
Qed.

Lemma holds_insert_same nd i x y k' v' :
  nd !! i = Some x -> key y = key x -> val y = val x ->
  (holds (<[i := y]> nd) k' v' <-> holds nd k' v').
Proof.
  intros Hx Ek Ev. pose proof (lookup_lt_Some _ _ _ Hx) as Hlt. split.
  - intros (j & z & Hz & Ekz & Evz). destruct (decide (j = i)) as [->|Hne].
    + rewrite list_lookup_insert_eq in Hz by assumption. injection Hz as <-.
      exists i, x. split; [assumption|]. split; congruence.
    + rewrite list_lookup_insert_ne in Hz by congruence. exists j, z. auto.
  - intros (j & z & Hz & Ekz & Evz). destruct (decide (j = i)) as [->|Hne].
    + assert (z = x) by congruence. subst z. exists i, y.
      split; [apply list_lookup_insert_eq; assumption|]. split; congruence.
    + exists j, z. split; [|auto]. rewrite list_lookup_insert_ne; congruence.
Qed.

Lemma holds_insert_val nd i x y k' v' :
  nd !! i = Some x -> key y = key x -> k' <> key x ->
  (holds (<[i := y]> nd) k' v' <-> holds nd k' v').
Proof.
  intros Hx Ek Hne. pose proof (lookup_lt_Some _ _ _ Hx) as Hlt. split.
  - intros (j & z & Hz & Ekz & Evz). destruct (decide (j = i)) as [->|Hji].
    + rewrite list_lookup_insert_eq in Hz by assumption. injection Hz as <-.
      congruence.
    + rewrite list_lookup_insert_ne in Hz by congruence. exists j, z. auto.
  - intros (j & z & Hz & Ekz & Evz). destruct (decide (j = i)) as [->|Hji].
    + congruence.
    + exists j, z. split; [|auto]. rewrite list_lookup_insert_ne; congruence.
Qed.

Lemma present_not_holds nd k : ~ present nd k -> forall v, ~ holds nd k v.
Proof. intros H v Hh. apply H. eapply holds_present; eauto. Qed.

(** ** The loops over [firstfree] and over the chain of a colliding node *)

Lemma free_place_spec nd ff :
  ff < length nd ->
  (exists ff', free_place nd ff = Ret (Some ff') /\ ff' <= ff /\
     (exists x, nd !! ff' = Some x /\ key x = O_NIL) /\
     forall i x, ff' < i <= ff -> nd !! i = Some x -> key x <> O_NIL) \/
  (free_place nd ff = Ret None /\
     forall i x, i <= ff -> nd !! i = Some x -> key x <> O_NIL).
Proof.
  induction ff as [|ff IH]; intros Hlt;
    destruct (lookup_lt_is_Some_2 nd _ Hlt) as [x Hx]; simpl; rewrite Hx;
    destruct (is_nil (key x)) eqn:E.
  - left. exists 0. split; [reflexivity|]. split; [lia|].
    split; [exists x; split; [assumption|apply is_nil_true; assumption]|].
    intros; lia.
  - right. split; [reflexivity|]. intros i y Hi Hy.
    assert (i = 0) by lia. subst. assert (y = x) by congruence. subst.
    apply is_nil_false. assumption.
  - left. exists (S ff). split; [reflexivity|]. split; [lia|].
    split; [exists x; split; [assumption|apply is_nil_true; assumption]|].
    intros; lia.
  - destruct IH as [(ff' & -> & Hle & Hfree & Habove)|[-> Hall]]; [lia| |].
    + left. exists ff'. split; [reflexivity|]. split; [lia|].
      split; [assumption|]. intros i y Hi Hy.
      destruct (decide (i = S ff)) as [->|Hne].
      * assert (y = x) by congruence. subst. apply is_nil_false. assumption.
      * apply (Habove i y); [lia|assumption].
    + right. split; [reflexivity|]. intros i y Hi Hy.
      destruct (decide (i = S ff)) as [->|Hne].
      * assert (y = x) by congruence. subst. apply is_nil_false. assumption.
      * apply (Hall i y); [lia|assumption].
Qed.

Lemma skip_used_free_place nd ff :
  skip_used nd ff =
  match free_place nd ff with
  | Ret (Some ff') => Ret ff'
  | Ret None => Undef
  | Raise msg => Raise msg
  | Undef => Undef
  end.
Proof.
  induction ff as [|ff IH]; simpl; destruct (nd !! _) as [x|]; try reflexivity;
    destruct (is_nil (key x)); try reflexivity. apply IH.
Qed.

Lemma find_previous_chain nd p a l fuel :
  chain nd a l -> p ∈ l -> p <> a -> length l <= fuel ->
  exists prev xprev, find_previous fuel nd p a = Ret prev /\
    nd !! prev = Some xprev /\ next xprev = Some p.
Proof.
  intros Hc. revert fuel.
  induction Hc as [i x Hi Hn|i x j l Hi Hn Hc IH]; intros fuel Hin Hne Hf.
  - apply list_elem_of_singleton in Hin. contradiction.
  - destruct fuel as [|fuel]; [simpl in Hf; lia|]. simpl. rewrite Hi, Hn.
    destruct (Nat.eqb_spec j p) as [->|Hjp].
    + exists i, x. auto.
    + apply IH; [|congruence|simpl in Hf; lia].
      apply elem_of_cons in Hin as [->|Hin]; [contradiction|assumption].
Qed.

Lemma find_previous_spec nd p xp :
  core nd -> nd !! p = Some xp -> key xp <> O_NIL ->
  mainpos (length nd) (key xp) <> p ->
  exists prev xprev,
    find_previous (length nd) nd p (mainpos (length nd) (key xp)) = Ret prev /\
    nd !! prev = Some xprev /\ next xprev = Some p.
Proof.
  intros Hcore Hp Hk Hd.
  destruct (core_reach _ Hcore _ _ Hp Hk) as (l & Hc & Hin).
  eapply find_previous_chain; eauto using chain_length.
Qed.

(** ** The value of a key that is in the table is overwritten in place *)

Lemma core_update_val nd n x v :
  core nd -> nd !! n = Some x -> key x <> O_NIL ->
  core (<[n := mkNode (key x) v (next x)]> nd).
Proof.
  intros Hcore Hx Hkx.
  pose proof (lookup_lt_Some _ _ _ Hx) as Hlt.
  set (nd' := <[n := mkNode (key x) v (next x)]> nd).
  assert (Hto : forall i y, nd !! i = Some y ->
            exists y', nd' !! i = Some y' /\ key y' = key y /\ next y' = next y).
  { intros i y Hy. unfold nd'. destruct (decide (i = n)) as [->|Hne].
    - rewrite list_lookup_insert_eq by assumption.
      assert (y = x) by congruence. subst. eauto.
    - rewrite list_lookup_insert_ne by congruence. eauto. }
  assert (Hfrom : forall i y', nd' !! i = Some y' ->
            exists y, nd !! i = Some y /\ key y = key y' /\ next y = next y' /\
              (key y = O_NIL -> val y = val y')).
  { intros i y' Hy'. unfold nd' in Hy'. destruct (decide (i = n)) as [->|Hne].
    - rewrite list_lookup_insert_eq in Hy' by assumption. injection Hy' as <-.
      exists x. simpl. repeat split; auto. contradiction.
    - rewrite list_lookup_insert_ne in Hy' by congruence. eauto 6. }
  assert (Hlen : length nd' = length nd) by apply length_insert.
  assert (Hch : forall a l, chain nd a l -> chain nd' a l).
  { intros a l Hc. eapply chain_ext; [exact Hc|].
    intros j y _ Hy. destruct (Hto _ _ Hy) as (y' & ? & _ & ?). eauto. }
  clearbody nd'.
  constructor; rewrite ?Hlen.
  - apply (core_nonempty _ Hcore).
  - intros i y' Hy' Hk. destruct (Hfrom _ _ Hy') as (y & Hy & Ek & En & Ev).
    destruct (core_empty _ Hcore _ _ Hy) as [? ?]; [congruence|].
    split; [rewrite <- Ev; congruence|congruence].
  - intros i y' Hy' Hk. destruct (Hfrom _ _ Hy') as (y & Hy & Ek & _).
    rewrite <- Ek. eapply core_hashable; eauto. congruence.
  - intros i y' j Hy' Hn. destruct (Hfrom _ _ Hy') as (y & Hy & Ek & En & _).
    destruct (core_next _ Hcore i y j Hy) as (z & Hz & Hkz & Hmz & Hd); [congruence|].
    destruct (Hto _ _ Hz) as (z' & Hz' & Ekz & _).
    exists z'. rewrite Ekz, <- Ek. auto.
  - intros i y' Hy' Hk. destruct (Hfrom _ _ Hy') as (y & Hy & Ek & _).
    destruct (core_reach _ Hcore i y Hy) as (l & Hc & Hin); [congruence|].
    exists l. rewrite <- Ek. auto.
  - intros i j y1 y2 H1 H2 Hk E.
    destruct (Hfrom _ _ H1) as (z1 & Hz1 & E1 & _).
    destruct (Hfrom _ _ H2) as (z2 & Hz2 & E2 & _).
    apply (core_nodup _ Hcore i j z1 z2); congruence.
Qed.

Lemma update_val_inv t n x v :
  inv t -> node t !! n = Some x -> key x <> O_NIL ->
  inv (set_node t (<[n := mkNode (key x) v (next x)]> (node t))).
Proof.
  intros [Hpre (f & Hf & Hkf)] Hx Hkx.
  pose proof (lookup_lt_Some _ _ _ Hx) as Hlt.
  assert (Hfrom : forall i y',
            <[n := mkNode (key x) v (next x)]> (node t) !! i = Some y' ->
            exists y, node t !! i = Some y /\ key y = key y').
  { intros i y' Hy'. destruct (decide (i = n)) as [->|Hne].
    - rewrite list_lookup_insert_eq in Hy' by assumption. injection Hy' as <-. eauto.
    - rewrite list_lookup_insert_ne in Hy' by congruence. eauto. }
  split.
  - constructor; simpl; rewrite ?length_insert.
    + apply (inv_size _ Hpre).
    + apply core_update_val; [apply (inv_core _ Hpre)|assumption..].
    + apply (inv_ff _ Hpre).
    + intros i y' Hy' Hi. destruct (Hfrom _ _ Hy') as (y & Hy & <-).
      eapply inv_above; eauto.
    + intros i y' Hy' Hk Hd. destruct (Hfrom _ _ Hy') as (y & Hy & Ek).
      rewrite <- Ek in *. eapply inv_displaced; eauto.
  - simpl. exists f. split; [|assumption].
    rewrite list_lookup_insert_ne; [assumption|]. intros ->. congruence.
Qed.

(** ** insert_key *)

(** What [insert_key] achieves: the invariant but for [firstfree], which
    still points where it did, and one more pair. *)
Definition inserted (t t' : Hash) (k v : TObject) : Prop :=
  pre_inv t' /\ size t' = size t /\ firstfree t' = firstfree t /\
  holds (node t') k v /\
  (forall k' v', k' <> O_NIL -> k' <> k ->
     (holds (node t') k' v' <-> holds (node t) k' v')) /\
  used (node t') = S (used (node t)).

Lemma insert_key_free t k v xm :
  inv t -> hashable k -> ~ present (node t) k ->
  node t !! mainpos (size t) k = Some xm -> key xm = O_NIL ->
  let t' := set_node t (<[mainpos (size t) k := mkNode k v (next xm)]> (node t)) in
  insert_key t (mainpos (size t) k) k v = Returned t' /\ inserted t t' k v.
Proof.
  intros [Hpre (f & Hf & Hkf)] Hh Hnp Hm Hkm t'.
  pose proof (inv_core _ Hpre) as Hcore.
  pose proof (inv_size _ Hpre) as Hsz.
  pose proof (lookup_lt_Some _ _ _ Hm) as Hlt.
  assert (Hk : k <> O_NIL) by (apply hashable_not_nil, Hh).
  split.
  { unfold insert_key. rewrite Hm.
    apply is_nil_true in Hkm. rewrite Hkm. reflexivity. }
  unfold inserted, t'. simpl. split; [|split; [reflexivity|split; [reflexivity|]]].
  - constructor; simpl; rewrite ?length_insert.
    + assumption.
    + apply core_insert_main; try assumption. rewrite Hsz. reflexivity.
    + apply (inv_ff _ Hpre).
    + intros i y Hy Hi. destruct (decide (i = mainpos (size t) k)) as [->|Hne].
      * rewrite list_lookup_insert_eq in Hy by assumption. injection Hy as <-. assumption.
      * rewrite list_lookup_insert_ne in Hy by congruence. eapply inv_above; eauto.
    + intros i y Hy Hky Hd. destruct (decide (i = mainpos (size t) k)) as [->|Hne].
      * rewrite list_lookup_insert_eq in Hy by assumption. injection Hy as <-.
        simpl in Hd. rewrite Hsz in Hd. contradiction.
      * rewrite list_lookup_insert_ne in Hy by congruence. eapply inv_displaced; eauto.
  - split; [|split].
    + eexists _, _. split; [apply list_lookup_insert_eq; assumption|auto].
    + intros k' v' Hk' Hne. rewrite (holds_insert_free _ _ xm) by assumption.
      simpl. split; [intros [[? _]|?]; [congruence|assumption]|auto].
    + eapply used_insert_free; eauto.
Qed.

Lemma insert_key_chained t k v xm :
  inv t -> hashable k -> ~ present (node t) k ->
  node t !! mainpos (size t) k = Some xm -> key xm <> O_NIL ->
  mainpos (size t) (key xm) = mainpos (size t) k ->
  let n := firstfree t in
  let t' := set_node t
    (<[mainpos (size t) k := mkNode (key xm) (val xm) (Some n)]>
       (<[n := mkNode k v (next xm)]> (node t))) in
  insert_key t (mainpos (size t) k) k v = Returned t' /\ inserted t t' k v.
Proof.
  intros [Hpre (f & Hf & Hkf)] Hh Hnp Hm Hkm Hmm n t'.
  pose proof (inv_core _ Hpre) as Hcore.
  pose proof (inv_size _ Hpre) as Hsz.
  pose proof (lookup_lt_Some _ _ _ Hm) as Hltm.
  pose proof (lookup_lt_Some _ _ _ Hf) as Hltn.
  assert (Hk : k <> O_NIL) by (apply hashable_not_nil, Hh).
  set (m := mainpos (size t) k) in *.
  assert (Hnm : n <> m) by (intros E; unfold n in E; rewrite E in Hf; congruence).
  assert (Hsz0 : 0 < size t) by (rewrite Hsz; apply (core_nonempty _ Hcore)).
  split.
  { unfold insert_key. rewrite Hm.
    apply is_nil_false in Hkm. rewrite Hkm. fold n. fold n in Hf. rewrite Hf.
    rewrite luaH_mainposition_ret;
      [|eapply core_hashable; eauto; apply is_nil_false; assumption|assumption].
    rewrite Hmm, Nat.eqb_refl.
    rewrite list_lookup_insert_ne by assumption. rewrite Hm. simpl.
    destruct (n <? m); reflexivity. }
  assert (Lm : node t' !! m = Some (mkNode (key xm) (val xm) (Some n))).
  { unfold t'. simpl. apply list_lookup_insert_eq. rewrite length_insert. assumption. }
  assert (Ln : node t' !! n = Some (mkNode k v (next xm))).
  { unfold t'. simpl. rewrite list_lookup_insert_ne by congruence.
    apply list_lookup_insert_eq. assumption. }
  assert (Lo : forall i, i <> m -> i <> n -> node t' !! i = node t !! i).
  { intros i H1 H2. unfold t'. simpl.
    rewrite !list_lookup_insert_ne by congruence. reflexivity. }
  assert (Hlen : length (node t') = length (node t)).
  { unfold t'. simpl. rewrite !length_insert. reflexivity. }
  unfold inserted. split; [|split; [reflexivity|split; [reflexivity|]]].
  - constructor; rewrite ?Hlen.
    + assumption.
    + unfold t'. simpl.
      apply (core_insert_chained (node t) m xm n f k v); try assumption;
        rewrite <- Hsz; (assumption || reflexivity).
    + apply (inv_ff _ Hpre).
    + intros i y Hy Hi. change (firstfree t') with n in Hi.
      destruct (decide (i = m)) as [->|H1].
      { rewrite Lm in Hy. injection Hy as <-. assumption. }
      rewrite Lo in Hy by lia. eapply inv_above; eauto.
    + intros i y Hy Hky Hd. change (firstfree t') with n.
      destruct (decide (i = n)) as [->|H2]; [lia|].
      destruct (decide (i = m)) as [->|H1].
      { rewrite Lm in Hy. injection Hy as <-. simpl in Hd.
        rewrite <- Hsz in Hd. contradiction. }
      rewrite Lo in Hy by assumption. eapply (inv_displaced _ Hpre); eauto.
  - split; [|split].
    + exists n, (mkNode k v (next xm)). auto.
    + intros k' v' Hk' Hne. unfold t'. simpl.
      rewrite (holds_insert_same _ m xm); [| |reflexivity..].
      2:{ rewrite list_lookup_insert_ne by congruence. assumption. }
      rewrite (holds_insert_free _ _ f) by assumption.
      simpl. split; [intros [[? _]|?]; [congruence|assumption]|auto].
    + unfold t'. simpl. rewrite (used_insert_same _ m xm); [| |reflexivity].
      2:{ rewrite list_lookup_insert_ne by congruence. assumption. }
      eapply used_insert_free; eauto.
Qed.

Lemma insert_key_moved t k v xm :
  inv t -> hashable k -> ~ present (node t) k ->
  node t !! mainpos (size t) k = Some xm -> key xm <> O_NIL ->
  mainpos (size t) (key xm) <> mainpos (size t) k ->
  exists prev xprev,
    node t !! prev = Some xprev /\ next xprev = Some (mainpos (size t) k) /\
    let n := firstfree t in
    let t' := set_node t
      (<[mainpos (size t) k := mkNode k v None]>
         (<[n := xm]>
            (<[prev := mkNode (key xprev) (val xprev) (Some n)]> (node t)))) in
    insert_key t (mainpos (size t) k) k v = Returned t' /\ inserted t t' k v.
Proof.
  intros [Hpre (f & Hf & Hkf)] Hh Hnp Hm Hkm Hmm.
  pose proof (inv_core _ Hpre) as Hcore.
  pose proof (inv_size _ Hpre) as Hsz.
  pose proof (lookup_lt_Some _ _ _ Hm) as Hltm.
  pose proof (lookup_lt_Some _ _ _ Hf) as Hltn.
  assert (Hk : k <> O_NIL) by (apply hashable_not_nil, Hh).
  set (m := mainpos (size t) k) in *.
  set (n := firstfree t) in *.
  rewrite Hsz in Hmm.
  assert (Hnm : n < m).
  { pose proof (inv_displaced _ Hpre _ _ Hm Hkm Hmm).
    assert (n <> m) by (intros E; rewrite E in Hf; congruence). lia. }
  assert (Hsz0 : 0 < size t) by (rewrite Hsz; apply (core_nonempty _ Hcore)).
  destruct (find_previous_spec _ _ _ Hcore Hm Hkm Hmm) as (prev & xprev & Hfp & Hprev & Hnprev).
  exists prev, xprev. split; [assumption|]. split; [assumption|].
  intros n' t'. subst n'.
  pose proof (move_prev_p _ _ _ _ _ Hcore Hm Hprev Hnprev) as Hpm.
  pose proof (move_prev_n _ _ _ _ _ _ Hcore Hprev Hnprev Hf Hkf) as Hpn.
  split.
  { unfold insert_key. rewrite Hm.
    pose proof Hkm as Hkm'. apply is_nil_false in Hkm'. rewrite Hkm'. fold n. rewrite Hf.
    destruct (Nat.ltb_spec n m) as [_|]; [|lia].
    rewrite luaH_mainposition_ret;
      [|eapply core_hashable; eauto|assumption].
    rewrite Hsz. destruct (Nat.eqb_spec (mainpos (length (node t)) (key xm)) m);
      [contradiction|].
    rewrite Hfp, Hprev. simpl.
    rewrite list_lookup_insert_ne by assumption. rewrite Hm. reflexivity. }
  (* the vector is [moved] with the pair written into the node left free *)
  pose proof (core_move _ _ _ _ _ _ _ Hcore Hm Hkm Hmm Hprev Hnprev Hf Hkf) as Hcm.
  set (md := moved (node t) m prev n xm xprev) in *.
  assert (Hmdlen : length md = length (node t)) by apply moved_length.
  assert (Hmdp : md !! m = Some (mkNode O_NIL O_NIL None)).
  { eapply moved_p; eauto. }
  assert (Et : node t' = <[m := mkNode k v (next (mkNode O_NIL O_NIL None))]> md).
  { unfold t', md, moved. simpl. rewrite list_insert_insert_eq. reflexivity. }
  assert (Hnpm : ~ present md k).
  { intros (j & y & Hy & Ek).
    apply Hnp. apply (holds_present _ _ (val y)).
    eapply (moved_holds (node t) m prev n xm xprev f); eauto.
    exists j, y. auto. }
  assert (Hlen : length (node t') = length (node t)).
  { rewrite Et, length_insert. assumption. }
  assert (Lm : node t' !! m = Some (mkNode k v None)).
  { rewrite Et. apply list_lookup_insert_eq. rewrite Hmdlen. assumption. }
  assert (Lo : forall i, i <> m -> node t' !! i = md !! i).
  { intros i Hi. rewrite Et. apply list_lookup_insert_ne. congruence. }
  unfold inserted. split; [|split; [reflexivity|split; [reflexivity|]]].
  - constructor; rewrite ?Hlen.
    + assumption.
    + rewrite Et. apply core_insert_main; try assumption; [reflexivity|].
      rewrite Hmdlen, <- Hsz. reflexivity.
    + apply (inv_ff _ Hpre).
    + intros i y Hy Hi. change (firstfree t') with n in Hi.
      destruct (decide (i = m)) as [->|H1].
      { rewrite Lm in Hy. injection Hy as <-. assumption. }
      rewrite Lo in Hy by assumption.
      destruct (lookup_lt_is_Some_2 (node t) i) as [y0 Hy0].
      { rewrite <- Hmdlen. eapply lookup_lt_Some; eauto. }
      destruct (moved_keeps (node t) m prev n xm xprev f Hcore Hm Hprev Hnprev Hf Hkf
                  i y0 Hy0) as (y' & Hy' & Ek & _); [assumption|lia|].
      assert (y' = y) by (unfold md in Hy; congruence). subst y'. rewrite Ek.
      eapply inv_above; eauto.
    + intros i y Hy Hky Hd. change (firstfree t') with n.
      destruct (decide (i = m)) as [->|H1].
      { rewrite Lm in Hy. injection Hy as <-. simpl in Hd. rewrite <- Hsz in Hd.
        contradiction. }
      rewrite Lo in Hy by assumption.
      destruct (decide (i = n)) as [->|H2]; [lia|].
      destruct (moved_origin (node t) m prev n xm xprev f Hcore Hm Hkm Hprev Hnprev Hf Hkf
                  i y Hy Hky) as (_ & y0 & Hy0 & Ek & _).
      unfold origin in Hy0. rewrite decide_False in Hy0 by assumption.
      rewrite <- Ek in *. eapply (inv_displaced _ Hpre); eauto.
  - split; [|split].
    + exists m, (mkNode k v None). auto.
    + intros k' v' Hk' Hne. rewrite Et.
      rewrite (holds_insert_free _ _ _ _ _ _ Hmdp) by auto.
      simpl. unfold md. rewrite (moved_holds (node t) m prev n xm xprev f) by assumption.
      split; [intros [[? _]|?]; [congruence|assumption]|auto].
    + unfold t'. simpl.
      rewrite (used_insert_same _ m xm (mkNode k v None)).
      * rewrite (used_insert_free _ n f xm); [|
          rewrite list_lookup_insert_ne by assumption; assumption|assumption..].
        rewrite (used_insert_same _ prev xprev); [reflexivity|assumption|reflexivity].
      * rewrite list_lookup_insert_ne by lia.
        rewrite list_lookup_insert_ne by assumption. assumption.
      * simpl. apply is_nil_false in Hk, Hkm. congruence.
Qed.

Lemma insert_key_spec t k v :
  inv t -> hashable k -> ~ present (node t) k ->
  exists t', insert_key t (mainpos (size t) k) k v = Returned t' /\
    inserted t t' k v.
Proof.
  intros Hinv Hh Hnp. pose proof Hinv as [Hpre _].
  pose proof (inv_core _ Hpre) as Hcore.
  destruct (lookup_lt_is_Some_2 (node t) (mainpos (size t) k)) as [xm Hm].
  { rewrite <- (inv_size _ Hpre). apply mainpos_lt.
    rewrite (inv_size _ Hpre). apply (core_nonempty _ Hcore). }
  destruct (key_eq_dec_nil (key xm)) as [Hkm|Hkm].
  { eexists. eapply insert_key_free; eauto. }
  destruct (decide (mainpos (size t) (key xm) = mainpos (size t) k)) as [E|E].
  { eexists. eapply insert_key_chained; eauto. }
  destruct (insert_key_moved t k v xm Hinv Hh Hnp Hm Hkm E)
    as (prev & xprev & _ & _ & H). eexists. exact H.
Qed.

(** ** The search for the next free place *)

Lemma free_place_inv t :
  pre_inv t ->
  (exists ff, free_place (node t) (firstfree t) = Ret (Some ff) /\
     ff <= firstfree t /\ inv (set_firstfree t ff) /\
     (forall x, node t !! firstfree t = Some x -> key x = O_NIL ->
        ff = firstfree t)) \/
  (free_place (node t) (firstfree t) = Ret None /\
     forall i x, node t !! i = Some x -> key x <> O_NIL).
Proof.
  intros Hpre.
  destruct (free_place_spec (node t) (firstfree t) (inv_ff _ Hpre))
    as [(ff & E & Hle & Hfree & Habove)|[E Hall]].
  - left. exists ff. split; [assumption|]. split; [assumption|]. split.
    + split; [|exact Hfree]. constructor; simpl.
      * apply (inv_size _ Hpre).
      * apply (inv_core _ Hpre).
      * pose proof (inv_ff _ Hpre). lia.
      * intros i x Hx Hi. destruct (decide (i <= firstfree t)).
        -- apply (Habove i x); [lia|assumption].
        -- apply (inv_above _ Hpre i x); [assumption|lia].
      * intros i x Hx Hk Hd. pose proof (inv_displaced _ Hpre i x Hx Hk Hd). lia.
    + intros x Hx Hk. destruct (decide (ff = firstfree t)) as [|Hne]; [assumption|].
      exfalso. apply (Habove (firstfree t) x); [lia|assumption|assumption].
  - right. split; [assumption|]. intros i x Hx.
    destruct (decide (i <= firstfree t)).
    + apply (Hall i x); assumption.
    + apply (inv_above _ Hpre i x); [assumption|lia].
Qed.

(** ** Vectors in which every pair is in its main position *)

Definition flat (nd : list Node) : Prop :=
  forall i x, nd !! i = Some x ->
    next x = None /\ (key x = O_NIL -> val x = O_NIL) /\
    (key x <> O_NIL -> hashable (key x) /\ mainpos (length nd) (key x) = i).

Lemma flat_core nd : 0 < length nd -> flat nd -> core nd.
Proof.
  intros Hlen Hflat. constructor.
  - assumption.
  - intros i x Hx Hk. destruct (Hflat i x Hx) as (? & ? & _). auto.
  - intros i x Hx Hk. destruct (Hflat i x Hx) as (_ & _ & H). apply H, Hk.
  - intros i x j Hx Hn. destruct (Hflat i x Hx) as (? & _). congruence.
  - intros i x Hx Hk. destruct (Hflat i x Hx) as (Hn & _ & H).
    destruct (H Hk) as [_ ->]. exists [i]. split; [|left].
    eapply chain_last; eauto.
  - intros i j x y Hx Hy Hk E.
    destruct (Hflat i x Hx) as (_ & _ & H1). destruct (H1 Hk) as [_ <-].
    destruct (Hflat j y Hy) as (_ & _ & H2).
    destruct H2 as [_ <-]; congruence.
Qed.

Lemma flat_pre_inv t :
  size t = length (node t) -> 0 < size t ->
  firstfree t = size t - 1 -> flat (node t) -> pre_inv t.
Proof.
  intros Hsz H0 Hff Hflat. constructor.
  - assumption.
  - apply flat_core; [lia|assumption].
  - lia.
  - intros i x Hx Hi. apply lookup_lt_Some in Hx. lia.
  - intros i x Hx Hk Hd. destruct (Hflat i x Hx) as (_ & _ & H).
    destruct (H Hk) as [_ E]. contradiction.
Qed.

Lemma flat_hashnodecreate n : flat (hashnodecreate n).
Proof.
  intros i x Hx. unfold hashnodecreate in Hx.
  apply lookup_replicate in Hx as [-> _]. simpl.
  split; [reflexivity|]. split; [reflexivity|]. intros E. contradiction.
Qed.

Lemma flat_insert nd m xm k v :
  flat nd -> nd !! m = Some xm -> hashable k -> mainpos (length nd) k = m ->
  flat (<[m := mkNode k v (next xm)]> nd).
Proof.
  intros Hflat Hm Hh Hmp i x Hx. rewrite length_insert.
  pose proof (lookup_lt_Some _ _ _ Hm).
  destruct (decide (i = m)) as [->|Hne].
  - rewrite list_lookup_insert_eq in Hx by assumption. injection Hx as <-. simpl.
    destruct (Hflat m xm Hm) as (Hn & _).
    split; [assumption|]. split; [|auto].
    intros E. exfalso. eapply hashable_not_nil; eauto.
  - rewrite list_lookup_insert_ne in Hx by congruence. apply Hflat. assumption.
Qed.

(** ** rehash: the first loop *)

(** No two old nodes with a value hold the same key. *)
Definition live_nodup (l : list Node) : Prop :=
  forall i j x y, l !! i = Some x -> l !! j = Some y ->
    val x <> O_NIL -> val y <> O_NIL -> key x = key y -> i = j.

(** The old node is left for the second loop ([old->next] is not NULL). *)
Definition deferred (x : Node) : bool :=
  match next x with Some _ => true | None => false end.

Definition same_pair (x x1 : Node) : Prop :=
  key x1 = key x /\ val x1 = val x.

Lemma realuse_cons x l :
  realuse (x :: l) = (if is_nil (val x) then 0 else 1) + realuse l.
Proof.
  unfold realuse. rewrite filter_cons.
  destruct (decide (is_nil (val x) = false)) as [E|E].
  - rewrite E. reflexivity.
  - destruct (is_nil (val x)); [reflexivity|congruence].
Qed.

Lemma deferred_cons x l :
  length (filter (fun y => deferred y = true) (x :: l)) =
  (if deferred x then 1 else 0) + length (filter (fun y => deferred y = true) l).
Proof.
  rewrite filter_cons.
  destruct (decide (deferred x = true)) as [E|E].
  - rewrite E. reflexivity.
  - destruct (deferred x); [congruence|reflexivity].
Qed.

Lemma live_nodup_tail x l : live_nodup (x :: l) -> live_nodup l.
Proof.
  intros H i j a b Ha Hb Hva Hvb E.
  assert (S i = S j) by (eapply (H (S i) (S j)); eauto). lia.
Qed.

Lemma live_nodup_head x l y :
  live_nodup (x :: l) -> y ∈ l -> val x <> O_NIL -> val y <> O_NIL ->
  key x <> key y.
Proof.
  intros H Hy Hvx Hvy E. apply list_elem_of_lookup_1 in Hy as [j Hj].
  assert (0 = S j) by (eapply (H 0 (S j)); eauto). lia.
Qed.

(** What one round of the first loop does. *)
Inductive first_round (old old' : Node) (t t' : Hash) : Prop :=
| round_dead :
    val old = O_NIL -> next old' = None -> t' = t -> first_round old old' t t'
| round_placed :
    val old <> O_NIL -> next old' = None ->
    (forall k v, k <> O_NIL ->
       (holds (node t') k v <-> (key old = k /\ val old = v) \/ holds (node t) k v)) ->
    used (node t') = S (used (node t)) -> first_round old old' t t'
| round_deferred y :
    val old <> O_NIL -> next old' = Some (mainpos (size t) (key old)) ->
    t' = t -> node t !! mainpos (size t) (key old) = Some y -> key y <> O_NIL ->
    first_round old old' t t'.

Lemma rehash_first_step_spec old t :
  flat (node t) -> size t = length (node t) -> 0 < size t ->
  (val old <> O_NIL -> hashable (key old)) ->
  exists old' t', rehash_first_step old t = Returned (old', t') /\
    same_pair old old' /\ flat (node t') /\ size t' = size t /\
    length (node t') = length (node t) /\ firstfree t' = firstfree t /\
    (forall i x, node t !! i = Some x -> key x <> O_NIL -> node t' !! i = Some x) /\
    first_round old old' t t'.
Proof.
  intros Hflat Hsz H0 Hh. unfold rehash_first_step.
  destruct (is_nil (val old)) eqn:Ev.
  { apply is_nil_true in Ev. eexists _, t. split; [reflexivity|].
    split; [split; reflexivity|]. repeat (split; [auto; fail|]).
    apply round_dead; auto. }
  apply is_nil_false in Ev. specialize (Hh Ev).
  rewrite luaH_mainposition_ret by assumption.
  destruct (lookup_lt_is_Some_2 (node t) (mainpos (size t) (key old))) as [m Hm].
  { rewrite <- Hsz. apply mainpos_lt. assumption. }
  rewrite Hm. destruct (is_nil (key m)) eqn:Ek.
  - apply is_nil_true in Ek.
    eexists _, _. split; [reflexivity|].
    split; [split; reflexivity|]. simpl.
    split; [apply flat_insert; auto; rewrite <- Hsz; reflexivity|].
    split; [reflexivity|]. split; [apply length_insert|]. split; [reflexivity|].
    split.
    + intros i x Hx Hkx. rewrite list_lookup_insert_ne; [assumption|].
      intros <-. congruence.
    + apply round_placed; auto.
      * intros k v Hk. simpl. rewrite (holds_insert_free _ _ m) by assumption.
        simpl. reflexivity.
      * simpl. eapply used_insert_free; eauto. simpl.
        apply hashable_not_nil. assumption.
  - apply is_nil_false in Ek.
    eexists _, t. split; [reflexivity|].
    split; [split; reflexivity|]. repeat (split; [auto; fail|]).
    eapply round_deferred; eauto.
Qed.

(** The state after the first loop. *)
Record first_post (nold : list Node) (t : Hash) (nold1 : list Node) (t1 : Hash)
    : Prop := mkFirstPost {
  fp_pairs : Forall2 same_pair nold nold1;
  fp_flat : flat (node t1);
  fp_size : size t1 = size t;
  fp_length : length (node t1) = length (node t);
  fp_ff : firstfree t1 = firstfree t;
  fp_stable : forall i x, node t !! i = Some x -> key x <> O_NIL ->
      node t1 !! i = Some x;
  fp_next : forall x1 mp, x1 ∈ nold1 -> next x1 = Some mp ->
      val x1 <> O_NIL /\ mp = mainpos (size t) (key x1) /\
      exists y, node t1 !! mp = Some y /\ key y <> O_NIL;
  fp_holds : forall k v, k <> O_NIL ->
      (holds (node t1) k v <->
       holds (node t) k v \/
       exists x1, x1 ∈ nold1 /\ next x1 = None /\ val x1 <> O_NIL /\
         key x1 = k /\ val x1 = v);
  fp_used : used (node t1) + length (filter (fun y => deferred y = true) nold1) =
      used (node t) + realuse nold;
}.

Lemma rehash_first_spec nold : forall t,
  flat (node t) -> size t = length (node t) -> 0 < size t ->
  (forall x, x ∈ nold -> val x <> O_NIL -> hashable (key x)) ->
  live_nodup nold ->
  exists nold1 t1, rehash_first nold t = Returned (nold1, t1) /\
    first_post nold t nold1 t1.
Proof.
  induction nold as [|old rest IH]; intros t Hflat Hsz H0 Hh Hnd.
  { exists [], t. split; [reflexivity|]. constructor.
    - constructor.
    - assumption.
    - reflexivity.
    - reflexivity.
    - reflexivity.
    - auto.
    - intros x1 mp Hx1. inversion Hx1.
    - intros k v Hk. split; [auto|]. intros [H|(x1 & Hx1 & _)]; [assumption|].
      inversion Hx1.
    - unfold realuse. simpl. lia. }
  destruct (rehash_first_step_spec old t Hflat Hsz H0) as
    (old' & t' & Estep & [Ek Ev] & Hflat' & Hsz' & Hlen' & Hff' & Hst' & Hround).
  { intros Hv. apply Hh; [left|assumption]. }
  destruct (IH t') as (rest1 & t1 & Erest & Hpost); try assumption.
  { congruence. }
  { lia. }
  { intros x Hx. apply Hh. right. assumption. }
  { eapply live_nodup_tail; eauto. }
  exists (old' :: rest1), t1. split.
  { simpl. rewrite Estep. simpl. rewrite Erest. reflexivity. }
  destruct Hpost as [Q1 Q2 Q3 Q4 Q5 Q6 Q7 Q8 Q9].
  constructor.
  - constructor; [split; assumption|assumption].
  - assumption.
  - congruence.
  - congruence.
  - congruence.
  - intros i x Hx Hkx. apply Q6; [|assumption]. apply Hst'; assumption.
  - intros x1 mp Hx1 Hn. apply elem_of_cons in Hx1 as [->|Hx1].
    + destruct Hround as [Hv Hn' _|Hv Hn' _ _|y Hv Hn' -> Hy Hky]; try congruence.
      rewrite Hn in Hn'. injection Hn' as ->.
      split; [congruence|]. split; [congruence|].
      exists y. split; [|assumption]. apply Q6; assumption.
    + destruct (Q7 x1 mp Hx1 Hn) as (? & ? & ?). rewrite Hsz' in *. auto.
  - intros k v Hk. rewrite (Q8 k v Hk). split.
    + intros [H|(x1 & Hx1 & Hn1 & Hv1 & Ek1 & Ev1)].
      * destruct Hround as [Hv Hn' ->|Hv Hn' Hh' _|y Hv Hn' -> Hy Hky]; auto.
        apply Hh' in H; [|assumption]. destruct H as [[E1 E2]|H]; [|auto].
        right. exists old'. split; [left|].
        split; [assumption|]. split; [congruence|]. split; congruence.
      * right. exists x1. split; [right; assumption|auto].
    + intros [H|(x1 & Hx1 & Hn1 & Hv1 & Ek1 & Ev1)].
      * left. destruct Hround as [Hv Hn' ->|Hv Hn' Hh' _|y Hv Hn' -> Hy Hky]; auto.
        apply Hh'; auto.
      * apply elem_of_cons in Hx1 as [->|Hx1].
        -- left. destruct Hround as [Hv Hn' ->|Hv Hn' Hh' _|y Hv Hn' -> Hy Hky];
             try congruence.
           apply Hh'; [assumption|]. left. split; congruence.
        -- right. exists x1. auto.
  - rewrite deferred_cons, realuse_cons.
    unfold deferred at 1.
    destruct Hround as [Hv Hn' ->|Hv Hn' _ Hu|y Hv Hn' -> Hy Hky]; rewrite Hn'.
    + apply is_nil_true in Hv. rewrite Hv. lia.
    + apply is_nil_false in Hv. rewrite Hv. lia.
    + apply is_nil_false in Hv. rewrite Hv. lia.
Qed.

(** ** rehash: the second loop *)

Lemma used_full nd :
  (forall i x, nd !! i = Some x -> key x <> O_NIL) -> used nd = length nd.
Proof.
  unfold used. induction nd as [|a nd IH]; intros H; [reflexivity|].
  rewrite filter_cons. rewrite decide_True.
  - simpl. f_equal. apply IH. intros i x Hx. apply (H (S i) x Hx).
  - apply is_nil_false. apply (H 0 a). reflexivity.
Qed.

Lemma rehash_second_step_spec old t mp y :
  inv t -> next old = Some mp -> hashable (key old) ->
  mp = mainpos (size t) (key old) ->
  node t !! mp = Some y -> key y <> O_NIL -> mainpos (size t) (key y) = mp ->
  ~ present (node t) (key old) ->
  S (used (node t)) < length (node t) ->
  exists t', rehash_second_step old t = Returned t' /\ inv t' /\
    size t' = size t /\ length (node t') = length (node t) /\
    (forall k' v', k' <> O_NIL ->
       (holds (node t') k' v' <->
        (key old = k' /\ val old = v') \/ holds (node t) k' v')) /\
    used (node t') = S (used (node t)) /\
    (forall i x, node t !! i = Some x -> key x <> O_NIL ->
       exists x', node t' !! i = Some x' /\ key x' = key x).
Proof.
  intros Hinv Hn Hh Hmp Hy Hky Hmy Hnp Hused. subst mp.
  destruct (insert_key_chained t (key old) (val old) y Hinv Hh Hnp Hy Hky Hmy)
    as [_ Hins].
  destruct Hinv as [Hpre (f & Hf & Hkf)].
  set (e := firstfree t) in *. set (m := mainpos (size t) (key old)) in *.
  set (nd2 := <[m := mkNode (key y) (val y) (Some e)]>
                (<[e := mkNode (key old) (val old) (next y)]> (node t))) in *.
  destruct Hins as (Hpre' & _ & _ & Hh1 & Hh2 & Hu).
  simpl in Hh1, Hh2, Hu.
  pose proof (lookup_lt_Some _ _ _ Hy) as Hltm.
  pose proof (lookup_lt_Some _ _ _ Hf) as Hlte.
  assert (Hem : e <> m) by (intros E; rewrite E in Hf; congruence).
  assert (Hlen2 : length nd2 = length (node t)).
  { unfold nd2. rewrite !length_insert. reflexivity. }
  assert (Le : nd2 !! e = Some (mkNode (key old) (val old) (next y))).
  { unfold nd2. rewrite list_lookup_insert_ne by congruence.
    apply list_lookup_insert_eq. assumption. }
  assert (Hko : key old <> O_NIL) by (apply hashable_not_nil; assumption).
  (* a free place is left *)
  destruct (free_place_inv _ Hpre') as [(ff & Efp & Hle & Hinv' & _)|[_ Hall]].
  2:{ exfalso. apply used_full in Hall. simpl in Hall. lia. }
  simpl in Efp, Hle.
  assert (Hff : ff < e).
  { destruct Hinv' as [_ (x & Hx & Hkx)]. simpl in Hx.
    destruct (decide (ff = e)) as [->|]; [|lia].
    fold e in Hx. rewrite Le in Hx. injection Hx as <-. contradiction. }
  destruct e as [|e'] eqn:Ee; [lia|].
  assert (Esk : skip_used nd2 e' = Ret ff).
  { rewrite skip_used_free_place.
    fold e in Efp. rewrite Ee in Efp.
    simpl in Efp. rewrite Le in Efp. simpl in Efp.
    apply is_nil_false in Hko. rewrite Hko in Efp. rewrite Efp. reflexivity. }
  exists (mkHash nd2 (size t) ff). split.
  { unfold rehash_second_step. rewrite Hn. fold m. fold e. rewrite Ee.
    destruct (Nat.ltb_spec (S e') (length (node t))) as [_|]; [|lia].
    destruct (Nat.ltb_spec m (length (node t))) as [_|]; [|lia]. simpl.
    rewrite Hy. simpl.
    rewrite list_lookup_insert_ne by congruence. rewrite Hy. simpl.
    fold nd2. rewrite Esk. reflexivity. }
  split; [exact Hinv'|]. split; [reflexivity|]. split; [assumption|].
  split.
  { intros k' v' Hk'. simpl.
    destruct (luaO_equalObj k' (key old)) eqn:E.
    - apply equalObj_spec in E. subst k'. split.
      + intros H. left. split; [reflexivity|].
        eapply (holds_fun nd2); eauto. apply (inv_core _ Hpre').
      + intros [[_ <-]|H]; [assumption|].
        exfalso. apply Hnp. eapply holds_present; eauto.
    - assert (k' <> key old).
      { intros ->. rewrite equalObj_refl in E. discriminate. }
      rewrite Hh2 by assumption.
      split; [auto|]. intros [[? _]|?]; [congruence|assumption]. }
  split; [exact Hu|].
  intros i x Hx Hkx. simpl.
  destruct (decide (i = m)) as [->|H1].
  - assert (x = y) by congruence. subst x.
    eexists. split; [apply list_lookup_insert_eq; rewrite length_insert; assumption|].
    reflexivity.
  - exists x. split; [|reflexivity]. unfold nd2.
    rewrite list_lookup_insert_ne by congruence.
    rewrite list_lookup_insert_ne; [assumption|].
    intros <-. congruence.
Qed.

Definition deferred_nodup (l : list Node) : Prop :=
  forall i j x y, l !! i = Some x -> l !! j = Some y ->
    deferred x = true -> deferred y = true -> key x = key y -> i = j.

(** What the second loop needs of an old node left to it. *)
Definition second_ready (t : Hash) (x1 : Node) : Prop :=
  forall mp, next x1 = Some mp ->
    hashable (key x1) /\ mp = mainpos (size t) (key x1) /\
    (exists y, node t !! mp = Some y /\ key y <> O_NIL /\
       mainpos (size t) (key y) = mp) /\
    ~ present (node t) (key x1).

Lemma rehash_second_spec nold1 : forall t,
  inv t ->
  (forall x1, x1 ∈ nold1 -> second_ready t x1) ->
  deferred_nodup nold1 ->
  used (node t) + length (filter (fun y => deferred y = true) nold1)
    < length (node t) ->
  exists t2, rehash_second nold1 t = Returned t2 /\ inv t2 /\
    size t2 = size t /\
    used (node t2) =
      used (node t) + length (filter (fun y => deferred y = true) nold1) /\
    (forall k v, k <> O_NIL ->
       (holds (node t2) k v <->
        holds (node t) k v \/
        exists x1, x1 ∈ nold1 /\ deferred x1 = true /\ key x1 = k /\ val x1 = v)).
Proof.
  induction nold1 as [|old rest IH]; intros t Hinv Hready Hnd Hused.
  { exists t. split; [reflexivity|]. split; [assumption|]. split; [reflexivity|].
    split; [simpl; lia|].
    intros k v Hk. split; [auto|]. intros [H|(x1 & Hx1 & _)]; [assumption|].
    inversion Hx1. }
  rewrite deferred_cons in Hused. rewrite deferred_cons.
  assert (Hnd' : deferred_nodup rest).
  { intros i j a b Ha Hb Hda Hdb E.
    assert (S i = S j) by (eapply (Hnd (S i) (S j)); eauto). lia. }
  destruct (next old) as [mp|] eqn:Hn.
  - assert (Hd : deferred old = true) by (unfold deferred; rewrite Hn; reflexivity).
    rewrite Hd in Hused |- *.
    destruct (Hready old (list_elem_of_here _ _) mp Hn)
      as (Hh & Hmp & (y & Hy & Hky & Hmy) & Hnp).
    destruct (rehash_second_step_spec old t mp y Hinv Hn Hh Hmp Hy Hky Hmy Hnp)
      as (t' & Estep & Hinv' & Hsz' & Hlen' & Hholds' & Hu' & Hkeep); [lia|].
    destruct (IH t' Hinv') as (t2 & Erest & Hinv2 & Hsz2 & Hu2 & Hholds2);
      [|assumption|lia|].
    { intros x1 Hx1 mp1 Hn1.
      destruct (Hready x1 (list_elem_of_further _ _ _ Hx1) mp1 Hn1)
        as (Hh1 & Hmp1 & (y1 & Hy1 & Hky1 & Hmy1) & Hnp1).
      split; [assumption|]. rewrite Hsz'. split; [assumption|]. split.
      - destruct (Hkeep _ _ Hy1 Hky1) as (y1' & Hy1' & Ek).
        exists y1'. rewrite Ek. auto.
      - intros Hp. apply present_holds in Hp as [v1 Hp].
        apply Hholds' in Hp; [|apply hashable_not_nil; assumption].
        destruct Hp as [[E _]|Hp]; [|apply Hnp1; eapply holds_present; eauto].
        apply list_elem_of_lookup_1 in Hx1 as [j Hj].
        assert (0 = S j); [|lia].
        eapply (Hnd 0 (S j) old x1); eauto.
        unfold deferred. rewrite Hn1. reflexivity. }
    exists t2. split; [simpl; rewrite Estep; exact Erest|].
    split; [assumption|]. split; [congruence|]. split; [lia|].
    intros k v Hk. rewrite (Hholds2 k v Hk), (Hholds' k v Hk). split.
    + intros [[[E1 E2]|H]|(x1 & Hx1 & H)]; auto.
      * right. exists old. split; [left|auto].
      * right. exists x1. split; [right; assumption|auto].
    + intros [H|(x1 & Hx1 & Hd1 & E1 & E2)]; auto.
      apply elem_of_cons in Hx1 as [->|Hx1]; [auto|].
      right. exists x1. auto.
  - assert (Hd : deferred old = false) by (unfold deferred; rewrite Hn; reflexivity).
    rewrite Hd in Hused |- *.
    destruct (IH t Hinv) as (t2 & Erest & Hinv2 & Hsz2 & Hu2 & Hholds2);
      [|assumption|lia|].
    { intros x1 Hx1. apply Hready. right. assumption. }
    exists t2. split.
    { simpl. unfold rehash_second_step. rewrite Hn. exact Erest. }
    split; [assumption|]. split; [assumption|]. split; [lia|].
    intros k v Hk. rewrite (Hholds2 k v Hk). split.
    + intros [H|(x1 & Hx1 & H)]; auto.
      right. exists x1. split; [right; assumption|auto].
    + intros [H|(x1 & Hx1 & Hd1 & E1 & E2)]; auto.
      apply elem_of_cons in Hx1 as [->|Hx1]; [congruence|].
      right. exists x1. auto.
Qed.

(** ** rehash *)

Lemma used_hashnodecreate n : used (hashnodecreate n) = 0.
Proof.
  unfold used, hashnodecreate. induction n as [|n IH]; [reflexivity|].
  simpl. rewrite filter_cons.
  destruct (decide _) as [E|E]; [discriminate E|exact IH].
Qed.

Lemma holds_hashnodecreate n k v : k <> O_NIL -> ~ holds (hashnodecreate n) k v.
Proof.
  intros Hk (i & x & Hx & Ek & _). unfold hashnodecreate in Hx.
  apply lookup_replicate in Hx as [-> _]. simpl in Ek. congruence.
Qed.

Lemma core_live_hashable nd x :
  core nd -> x ∈ nd -> val x <> O_NIL -> hashable (key x).
Proof.
  intros Hcore Hx Hv. apply list_elem_of_lookup_1 in Hx as [i Hi].
  eapply core_hashable; eauto. intros E.
  destruct (core_empty _ Hcore _ _ Hi E). contradiction.
Qed.

Lemma core_live_nodup nd : core nd -> live_nodup nd.
Proof.
  intros Hcore i j x y Hx Hy Hvx Hvy E.
  eapply core_nodup; eauto. intros Ek.
  destruct (core_empty _ Hcore _ _ Hx Ek). contradiction.
Qed.

Lemma rehash_spec_used t :
  size t = length (node t) -> core (node t) ->
  exists t', rehash t = Returned t' /\ inv t' /\
    size t' = luaO_redimension (realuse (node t) * 2) /\
    (forall k v, k <> O_NIL ->
       (holds (node t') k v <-> holds (node t) k v /\ v <> O_NIL)) /\
    used (node t') = realuse (node t).
Proof.
  intros Hsz Hcore. unfold rehash, newsize.
  rewrite Hsz, firstn_all. rewrite Nat.ltb_irrefl.
  set (ns := luaO_redimension (realuse (node t) * 2)).
  assert (Hns : realuse (node t) < ns).
  { pose proof (redimension_gt (realuse (node t) * 2)). unfold ns. lia. }
  set (t0 := setnodevector ns).
  assert (Hlen0 : length (node t0) = ns).
  { unfold t0, setnodevector, hashnodecreate. simpl. apply length_replicate. }
  destruct (rehash_first_spec (node t) t0) as (nold1 & t1 & E1 & Hpost).
  { apply flat_hashnodecreate. }
  { rewrite Hlen0. reflexivity. }
  { simpl. lia. }
  { intros x. apply core_live_hashable. assumption. }
  { apply core_live_nodup. assumption. }
  rewrite E1. simpl.
  destruct Hpost as [Q1 Q2 Q3 Q4 Q5 Q6 Q7 Q8 Q9].
  simpl in Q3, Q5. rewrite Hlen0 in Q4.
  change (node t0) with (hashnodecreate ns) in Q9.
  rewrite used_hashnodecreate in Q9. simpl in Q9.
  (* the first free place *)
  assert (Hpre1 : pre_inv t1).
  { apply flat_pre_inv; try assumption; lia. }
  destruct (free_place_inv _ Hpre1) as [(ff & Efp & Hle & Hinv1 & _)|[_ Hall]].
  2:{ exfalso. apply used_full in Hall. lia. }
  rewrite skip_used_free_place, Efp.
  (* the nodes of the old vector and of its copy *)
  assert (Hback : forall j x1, nold1 !! j = Some x1 ->
            exists x, node t !! j = Some x /\ key x1 = key x /\ val x1 = val x).
  { intros j x1 Hx1.
    destruct (Forall2_lookup_r _ _ _ _ _ Q1 Hx1) as (x & Hx & Ek & Ev). eauto. }
  assert (Hlive : forall x1 mp, x1 ∈ nold1 -> next x1 = Some mp -> val x1 <> O_NIL).
  { intros x1 mp Hx1 Hn. destruct (Q7 x1 mp Hx1 Hn) as (? & _). assumption. }
  assert (Hnd1 : forall i j a b, nold1 !! i = Some a -> nold1 !! j = Some b ->
            val a <> O_NIL -> val b <> O_NIL -> key a = key b -> i = j).
  { intros i j a b Ha Hb Hva Hvb E.
    destruct (Hback _ _ Ha) as (a0 & Ha0 & Eka & Eva).
    destruct (Hback _ _ Hb) as (b0 & Hb0 & Ekb & Evb).
    eapply (core_live_nodup _ Hcore i j a0 b0); eauto; congruence. }
  destruct (rehash_second_spec nold1 (set_firstfree t1 ff) Hinv1)
    as (t2 & E2 & Hinv2 & Hsz2 & Hu2 & Hholds2).
  { intros x1 Hx1 mp Hn.
    destruct (Q7 x1 mp Hx1 Hn) as (Hv & Hmp & y & Hy & Hky).
    pose proof Hx1 as Hx1'. apply list_elem_of_lookup_1 in Hx1' as [i Hi].
    destruct (Hback _ _ Hi) as (x & Hx & Ek & Ev).
    assert (Hh : hashable (key x1)).
    { rewrite Ek. eapply core_live_hashable; eauto;
        [eapply list_elem_of_lookup_2; eauto|congruence]. }
    split; [assumption|]. simpl. rewrite Q3. split; [assumption|]. split.
    - exists y. split; [assumption|]. split; [assumption|].
      destruct (Q2 _ _ Hy) as (_ & _ & H). destruct (H Hky) as [_ E].
      rewrite Q4 in E. exact E.
    - intros Hp. apply present_holds in Hp as [v Hp].
      apply Q8 in Hp; [|apply hashable_not_nil; assumption].
      destruct Hp as [Hp|(x1' & Hx1' & Hn' & Hv' & Ek' & _)].
      + eapply holds_hashnodecreate; [|exact Hp].
        apply hashable_not_nil; assumption.
      + apply list_elem_of_lookup_1 in Hx1' as [j Hj].
        assert (j = i) by (eapply (Hnd1 j i); eauto).
        subst j. congruence. }
  { intros i j a b Ha Hb Hda Hdb E.
    unfold deferred in Hda, Hdb.
    destruct (next a) eqn:Hna; [|discriminate].
    destruct (next b) eqn:Hnb; [|discriminate].
    eapply (Hnd1 i j a b); eauto; eapply Hlive; eauto;
      eapply list_elem_of_lookup_2; eauto. }
  { simpl. lia. }
  exists t2. split; [exact E2|]. split; [assumption|].
  split; [simpl in Hsz2; congruence|].
  split; [|simpl in Hu2; lia].
  intros k v Hk. rewrite (Hholds2 k v Hk). simpl. rewrite (Q8 k v Hk). split.
  - intros [[H|(x1 & Hx1 & Hn & Hv & Ek & Ev)]|(x1 & Hx1 & Hd & Ek & Ev)].
    + exfalso. exact (holds_hashnodecreate ns k v Hk H).
    + apply list_elem_of_lookup_1 in Hx1 as [i Hi].
      destruct (Hback _ _ Hi) as (x & Hx & Ekx & Evx).
      split; [|congruence]. exists i, x. split; [assumption|]. split; congruence.
    + unfold deferred in Hd. destruct (next x1) as [mp|] eqn:Hn; [|discriminate].
      pose proof (Hlive _ _ Hx1 Hn) as Hv.
      apply list_elem_of_lookup_1 in Hx1 as [i Hi].
      destruct (Hback _ _ Hi) as (x & Hx & Ekx & Evx).
      split; [|congruence]. exists i, x. split; [assumption|]. split; congruence.
  - intros [(i & x & Hx & Ek & Ev) Hv].
    destruct (Forall2_lookup_l _ _ _ _ _ Q1 Hx) as (x1 & Hx1 & Ek1 & Ev1).
    pose proof (list_elem_of_lookup_2 _ _ _ Hx1) as Hin.
    destruct (next x1) as [mp|] eqn:Hn.
    + right. exists x1. split; [assumption|]. unfold deferred. rewrite Hn.
      split; [reflexivity|]. split; congruence.
    + left. right. exists x1. split; [assumption|]. split; [assumption|].
      split; [congruence|]. split; congruence.
Qed.

Lemma rehash_spec t :
  size t = length (node t) -> core (node t) ->
  exists t', rehash t = Returned t' /\ inv t' /\
    size t' = luaO_redimension (realuse (node t) * 2) /\
    (forall k v, k <> O_NIL ->
       (holds (node t') k v <-> holds (node t) k v /\ v <> O_NIL)).
Proof.
  intros Hsz Hcore.
  destruct (rehash_spec_used t Hsz Hcore) as (t' & E & Hinv & Hs & Hh & _).
  exists t'. auto.
Qed.

(** ** luaH_new and luaH_set keep the invariant *)

Lemma luaH_new_inv n : inv (luaH_new n).
Proof.
  unfold luaH_new. set (ns := luaO_redimension (n + 1)).
  assert (Hns : 0 < ns) by (pose proof (redimension_gt (n + 1)); unfold ns; lia).
  assert (Hlen : length (hashnodecreate ns) = ns) by apply length_replicate.
  split.
  - apply flat_pre_inv; simpl; rewrite ?Hlen; auto. apply flat_hashnodecreate.
  - simpl. exists (mkNode O_NIL O_NIL None). split; [|reflexivity].
    unfold hashnodecreate. apply lookup_replicate_2. lia.
Qed.

(** Two tables in which [k] has the same values but nil read the same
    at [k]. *)
Lemma luaH_get_same_live t t' k :
  pre_inv t -> pre_inv t' -> hashable k ->
  (forall v, v <> O_NIL -> (holds (node t') k v <-> holds (node t) k v)) ->
  luaH_get t' k = luaH_get t k.
Proof.
  intros Hpre Hpre' Hh Hsame.
  assert (Hk : k <> O_NIL) by (apply hashable_not_nil; assumption).
  assert (Hnil : forall s, pre_inv s ->
            (forall v, v <> O_NIL -> ~ holds (node s) k v) ->
            luaH_get s k = Ret O_NIL).
  { intros s Hs Hno.
    destruct (luaH_get_total s k Hs Hh) as [(v & Hv & ->)|[_ ->]]; [|reflexivity].
    destruct (key_eq_dec_nil v) as [->|Hvn]; [reflexivity|].
    exfalso. eapply Hno; eauto. }
  destruct (luaH_get_total t k Hpre Hh) as [(v & Hv & E)|[Hnp E]]; rewrite E.
  - destruct (key_eq_dec_nil v) as [->|Hvn].
    + apply Hnil; [assumption|]. intros v' Hv' H'. apply Hsame in H'; [|assumption].
      apply Hv'. exact (holds_fun (node t) k v' O_NIL (inv_core _ Hpre) Hk H' Hv).
    + apply luaH_get_holds; [assumption..|]. apply Hsame; assumption.
  - apply Hnil; [assumption|]. intros v' Hv' H'. apply Hsame in H'; [|assumption].
    apply Hnp. eapply holds_present; eauto.
Qed.

Lemma luaH_set_found t k v n x :
  inv t -> hashable k -> node t !! n = Some x -> key x = k ->
  luaH_set t k v =
  Returned (set_node t (<[n := mkNode (key x) v (next x)]> (node t))).
Proof.
  intros [Hpre _] Hh Hx Hk. pose proof (inv_core _ Hpre) as Hcore.
  unfold luaH_set. rewrite luaH_mainposition_ret; [|assumption|].
  2:{ rewrite (inv_size _ Hpre). apply (core_nonempty _ Hcore). }
  rewrite (inv_size _ Hpre), (find_loop_present _ k n x) by assumption.
  rewrite Hx. reflexivity.
Qed.

Lemma luaH_set_absent t k v :
  inv t -> hashable k -> ~ present (node t) k ->
  luaH_set t k v =
  outcome_bind (insert_key t (mainpos (size t) k) k v) check_free (fun t' => t').
Proof.
  intros [Hpre _] Hh Hnp. pose proof (inv_core _ Hpre) as Hcore.
  unfold luaH_set. rewrite luaH_mainposition_ret; [|assumption|].
  2:{ rewrite (inv_size _ Hpre). apply (core_nonempty _ Hcore). }
  rewrite (inv_size _ Hpre) at 1. rewrite find_loop_absent by assumption.
  reflexivity.
Qed.

(** The table is full exactly when the last loop of [luaH_set] breaks. *)
Definition full (nd : list Node) : Prop :=
  forall i x, nd !! i = Some x -> key x <> O_NIL.

Lemma check_free_spec t :
  pre_inv t ->
  (exists ff, ~ full (node t) /\
     free_place (node t) (firstfree t) = Ret (Some ff) /\
     ff <= firstfree t /\
     (forall x, node t !! firstfree t = Some x -> key x = O_NIL ->
        ff = firstfree t) /\
     check_free t = Returned (set_firstfree t ff) /\
     inv (set_firstfree t ff)) \/
  (full (node t) /\ check_free t = rehash (set_firstfree t 0)).
Proof.
  intros Hpre. unfold check_free.
  destruct (free_place_inv t Hpre) as [(ff & E & Hle & Hinv & Hsame)|[E Hall]];
    rewrite E.
  - left. exists ff. split; [|auto 6].
    intros Hfull. destruct Hinv as [_ (x & Hx & Hk)]. simpl in Hx.
    apply (Hfull _ _ Hx Hk).
  - right. auto.
Qed.

Lemma check_free_total t :
  pre_inv t ->
  exists t', check_free t = Returned t' /\ inv t' /\
    (forall k v, k <> O_NIL -> v <> O_NIL ->
       (holds (node t') k v <-> holds (node t) k v)) /\
    (forall k v, k <> O_NIL -> holds (node t') k v -> holds (node t) k v).
Proof.
  intros Hpre.
  destruct (check_free_spec t Hpre) as [(ff & _ & _ & _ & _ & -> & Hinv)|[_ ->]].
  - eexists. split; [reflexivity|]. split; [assumption|]. simpl.
    split; [reflexivity|auto].
  - destruct (rehash_spec (set_firstfree t 0)) as (t' & E & Hinv & _ & Hh).
    { apply (inv_size _ Hpre). }
    { apply (inv_core _ Hpre). }
    simpl in Hh. exists t'. split; [assumption|]. split; [assumption|]. split.
    + intros k v Hk Hv. rewrite (Hh k v Hk). tauto.
    + intros k v Hk H. apply (Hh k v Hk) in H. tauto.
Qed.

(** [luaH_set] returns, keeps the invariant, and changes what [luaH_get]
    reads at the key written and nowhere else. *)
Lemma luaH_set_spec t k v :
  inv t -> hashable k ->
  exists t', luaH_set t k v = Returned t' /\ inv t' /\
    luaH_get t' k = Ret v /\
    (forall k', hashable k' -> k' <> k -> luaH_get t' k' = luaH_get t k').
Proof.
  intros Hinv Hh. pose proof Hinv as [Hpre _].
  pose proof (inv_core _ Hpre) as Hcore.
  assert (Hk : k <> O_NIL) by (apply hashable_not_nil; assumption).
  destruct (find_loop_total (node t) k Hcore Hh) as [(n & x & Hx & Ek & _)|[Hnp _]].
  - rewrite (luaH_set_found t k v n x) by assumption.
    assert (Hkx : key x <> O_NIL) by congruence.
    pose proof (update_val_inv t n x v Hinv Hx Hkx) as Hinv'.
    eexists. split; [reflexivity|]. split; [assumption|].
    pose proof (lookup_lt_Some _ _ _ Hx) as Hlt. split.
    + apply luaH_get_holds; [apply Hinv'|assumption|]. simpl.
      eexists n, _. split; [apply list_lookup_insert_eq; assumption|auto].
    + intros k' Hh' Hne. apply luaH_get_same_live; [assumption|apply Hinv'|assumption|].
      intros v' _. simpl. apply (holds_insert_val _ _ x); [assumption|reflexivity|congruence].
  - rewrite luaH_set_absent by assumption.
    destruct (insert_key_spec t k v Hinv Hh Hnp)
      as (tm & -> & Hprem & _ & _ & Hhk & Hho & _).
    simpl.
    destruct (check_free_total tm Hprem) as (t' & -> & Hinv' & Hlive & Hsub).
    exists t'. split; [reflexivity|]. split; [assumption|]. split.
    + destruct (key_eq_dec_nil v) as [->|Hv].
      * destruct (luaH_get_total t' k (proj1 Hinv') Hh) as [(v' & Hv' & ->)|[_ ->]];
          [|reflexivity].
        f_equal. apply Hsub in Hv'; [|assumption].
        exact (holds_fun (node tm) k v' O_NIL (inv_core _ Hprem) Hk Hv' Hhk).
      * apply luaH_get_holds; [apply Hinv'|assumption|]. apply Hlive; assumption.
    + intros k' Hh' Hne. apply luaH_get_same_live; [assumption|apply Hinv'|assumption|].
      intros v' Hv'. assert (k' <> O_NIL) by (apply hashable_not_nil; assumption).
      rewrite Hlive by assumption. apply Hho; assumption.
Qed.

(** ** Sequences of calls and the tables they reach *)

(** The value the calls [ops] write last to the key [k], if they write
    to it at all. *)
Fixpoint last_write (ops : list (TObject * TObject)) (k : TObject)
    : option TObject :=
  match ops with
  | [] => None
  | (k', v) :: ops' =>
      match last_write ops' k with
      | Some w => Some w
      | None => if luaO_equalObj k k' then Some v else None
      end
  end.

Lemma luaH_sets_spec ops : forall t,
  inv t -> Forall (fun op => hashable (fst op)) ops ->
  exists t', luaH_sets t ops = Returned t' /\ inv t' /\
    forall k, hashable k ->
      luaH_get t' k =
      match last_write ops k with Some v => Ret v | None => luaH_get t k end.
Proof.
  induction ops as [|[k v] ops IH]; intros t Hinv Hops.
  { exists t. split; [reflexivity|]. split; [assumption|]. reflexivity. }
  apply Forall_cons in Hops as [Hk Hops]. simpl in Hk.
  destruct (luaH_set_spec t k v Hinv Hk) as (t1 & E1 & Hinv1 & Hget & Hother).
  destruct (IH t1 Hinv1 Hops) as (t' & E' & Hinv' & Hgets).
  exists t'. split; [simpl; rewrite E1; exact E'|]. split; [assumption|].
  intros k' Hk'. rewrite (Hgets k' Hk'). simpl.
  destruct (last_write ops k'); [reflexivity|].
  destruct (luaO_equalObj k' k) eqn:E.
  - apply equalObj_spec in E. subst k'. assumption.
  - apply Hother; [assumption|]. intros ->. rewrite equalObj_refl in E. discriminate.
Qed.

Lemma last_write_none ops k :
  k ∉ map fst ops -> last_write ops k = None.
Proof.
  induction ops as [|[k' v'] ops IH]; intros Hk; [reflexivity|].
  simpl in *. apply not_elem_of_cons in Hk as [Hne Hk].
  rewrite (IH Hk). rewrite equalObj_neq by assumption. reflexivity.
Qed.

Lemma last_write_nodup ops k v :
  NoDup (map fst ops) -> (k, v) ∈ ops -> last_write ops k = Some v.
Proof.
  induction ops as [|[k' v'] ops IH]; intros Hnd Hin; [inversion Hin|].
  simpl in *. apply NoDup_cons in Hnd as [Hk' Hnd].
  apply elem_of_cons in Hin as [E|Hin].
  - injection E as -> ->. rewrite (last_write_none _ _ Hk'), equalObj_refl.
    reflexivity.
  - rewrite (IH Hnd Hin). reflexivity.
Qed.

Lemma luaH_sets_app ops1 : forall t t1 ops2,
  luaH_sets t ops1 = Returned t1 ->
  luaH_sets t (ops1 ++ ops2) = luaH_sets t1 ops2.
Proof.
  induction ops1 as [|[k v] ops1 IH]; intros t t1 ops2 E; simpl in *.
  - injection E as ->. reflexivity.
  - destruct (luaH_set t k v) as [s| |]; simpl in *; try discriminate.
    apply IH. assumption.
Qed.

Lemma reachable_inv t : reachable t -> inv t.
Proof.
  intros (n & ops & Hops & E).
  destruct (luaH_sets_spec ops (luaH_new n) (luaH_new_inv n) Hops)
    as (t' & E' & Hinv & _).
  congruence.
Qed.

Lemma reachable_sets t ops t' :
  reachable t -> Forall (fun op => hashable (fst op)) ops ->
  luaH_sets t ops = Returned t' -> reachable t'.
Proof.
  intros (n & ops0 & Hops0 & E0) Hops E.
  exists n, (ops0 ++ ops). split; [apply Forall_app; auto|].
  rewrite (luaH_sets_app _ _ _ _ E0). assumption.
Qed.

Lemma used_length_full nd : used nd = length nd -> full nd.
Proof.
  unfold used, full. induction nd as [|a nd IH]; intros H i x Hx; [discriminate|].
  rewrite filter_cons in H.
  pose proof (length_filter (fun x => is_nil (key x) = false) nd) as Hle.
  destruct (decide (is_nil (key a) = false)) as [E|E]; simpl in H; [|lia].
  destruct i as [|i]; simpl in Hx.
  - injection Hx as <-. apply is_nil_false. assumption.
  - apply (IH ltac:(lia) i x Hx).
Qed.

(** A key that reads a value other than nil is in a node. *)
Lemma luaH_get_present t k v :
  pre_inv t -> hashable k -> luaH_get t k = Ret v -> v <> O_NIL ->
  holds (node t) k v.
Proof.
  intros Hpre Hh E Hv.
  destruct (luaH_get_total t k Hpre Hh) as [(v' & Hv' & E')|[_ E']];
    rewrite E' in E; injection E as <-; [assumption|contradiction].
Qed.

(** ** The assertions of check_invariant hold *)

Lemma check_all_ok f l :
  (forall n, n ∈ l -> f n = Ret tt) -> check_all f l = Ret tt.
Proof.
  induction l as [|n l IH]; intros H; [reflexivity|].
  simpl. rewrite (H n) by left. apply IH. intros m Hm. apply H. right. assumption.
Qed.

Lemma listfind_chain nd m l n fuel :
  chain nd m l -> n ∈ l -> length l <= fuel ->
  listfind fuel nd m n = Ret true.
Proof.
  intros Hc. revert fuel.
  induction Hc as [i x Hi Hn|i x j l Hi Hn Hc IH]; intros fuel Hin Hf;
    (destruct fuel as [|fuel]; [simpl in Hf; lia|]); simpl.
  - apply list_elem_of_singleton in Hin as ->. rewrite Nat.eqb_refl. reflexivity.
  - destruct (Nat.eqb_spec i n) as [|Hne]; [reflexivity|].
    rewrite Hi, Hn. apply IH; [|simpl in Hf; lia].
    apply elem_of_cons in Hin as [->|Hin]; [contradiction|assumption].
Qed.

Lemma check_after_ok t n x :
  pre_inv t -> node t !! n = Some x -> key x <> O_NIL ->
  check_after t n = Ret tt.
Proof.
  intros Hpre Hx Hk. pose proof (inv_core _ Hpre) as Hcore.
  pose proof (inv_size _ Hpre) as Hsz.
  assert (Hsz0 : 0 < size t) by (rewrite Hsz; apply (core_nonempty _ Hcore)).
  unfold check_after. rewrite Hx.
  rewrite luaH_mainposition_ret; [|eapply core_hashable; eauto|assumption].
  pose proof Hk as Hk'. apply is_nil_false in Hk'. rewrite Hk'. simpl.
  rewrite Hsz.
  destruct (core_reach _ Hcore _ _ Hx Hk) as (l & Hc & Hin).
  rewrite (listfind_chain _ _ l n) by eauto using chain_length.
  destruct (Nat.eqb_spec n (mainpos (length (node t)) (key x))) as [E|E];
    [reflexivity|].
  destruct (core_main _ _ _ Hcore Hx Hk) as (y & Hy & Hky & Hmy); [congruence|].
  rewrite Hy. rewrite luaH_mainposition_ret;
    [|eapply core_hashable; eauto|assumption].
  rewrite Hsz, Hmy, Nat.eqb_refl. reflexivity.
Qed.

Lemma check_before_ok t n :
  pre_inv t -> n < firstfree t -> check_before t n = Ret tt.
Proof.
  intros Hpre Hn. pose proof (inv_core _ Hpre) as Hcore.
  pose proof (inv_size _ Hpre) as Hsz.
  assert (Hsz0 : 0 < size t) by (rewrite Hsz; apply (core_nonempty _ Hcore)).
  destruct (lookup_lt_is_Some_2 (node t) n) as [x Hx].
  { pose proof (inv_ff _ Hpre). lia. }
  unfold check_before. rewrite Hx.
  destruct (is_nil (key x)) eqn:Ek; [reflexivity|]. apply is_nil_false in Ek.
  rewrite luaH_mainposition_ret; [|eapply core_hashable; eauto|assumption].
  rewrite Hsz.
  destruct (Nat.eqb_spec n (mainpos (length (node t)) (key x))) as [E|E];
    [reflexivity|].
  pose proof (inv_displaced _ Hpre _ _ Hx Ek). lia.
Qed.

(** Between two calls of [luaH_set] the check passes with [filled = 0];
    this is the check at the end of [rehash]. *)
Lemma check_invariant_ok t : inv t -> check_invariant t false = Ret 1.
Proof.
  intros [Hpre (f & Hf & Hkf)]. unfold check_invariant.
  rewrite check_all_ok.
  2:{ intros n Hn. apply elem_of_seq in Hn. apply check_before_ok; [assumption|lia]. }
  rewrite Hf. apply is_nil_true in Hkf. rewrite Hkf. simpl.
  rewrite check_all_ok; [reflexivity|].
  intros n Hn. apply elem_of_seq in Hn.
  destruct (lookup_lt_is_Some_2 (node t) n) as [x Hx].
  { rewrite <- (inv_size _ Hpre). lia. }
  apply (check_after_ok t n x); [assumption..|].
  apply (inv_above _ Hpre n x); [assumption|lia].
Qed.

(** When the last loop of [luaH_set] breaks, the check passes with
    [filled = 1]; this is the check at the start of [rehash]. *)
Lemma check_invariant_filled_ok t :
  pre_inv t -> full (node t) ->
  check_invariant (set_firstfree t 0) true = Ret 1.
Proof.
  intros Hpre Hfull. unfold check_invariant. simpl.
  assert (Hpre0 : pre_inv (set_firstfree t 0)).
  { constructor; simpl.
    - apply (inv_size _ Hpre).
    - apply (inv_core _ Hpre).
    - apply (core_nonempty _ (inv_core _ Hpre)).
    - intros i x Hx _. apply (Hfull i x Hx).
    - intros; lia. }
  rewrite check_all_ok; [reflexivity|].
  intros n Hn. apply elem_of_seq in Hn.
  destruct (lookup_lt_is_Some_2 (node t) n) as [x Hx].
  { rewrite <- (inv_size _ Hpre). lia. }
  apply (check_after_ok (set_firstfree t 0) n x); [assumption..|].
  apply (Hfull n x Hx).
Qed.

(** ** Two facts for the statements below *)

Lemma free_place_here nd ff f :
  nd !! ff = Some f -> key f = O_NIL -> free_place nd ff = Ret (Some ff).
Proof.
  intros Hf Hk. apply is_nil_true in Hk.
  destruct ff; simpl; rewrite Hf, Hk; reflexivity.
Qed.

Lemma inserted_length t t' k v :
  inv t -> inserted t t' k v -> length (node t') = length (node t).
Proof.
  intros [Hpre _] (Hpre' & Hsz & _).
  rewrite <- (inv_size _ Hpre), <- (inv_size _ Hpre'). assumption.
Qed.

(** ** Further properties: the pointer that luaH_get returns *)

Lemma luaH_get_ref_get t k :
  luaH_get t k =
  match luaH_get_ref t k with
  | Ret (Some n) =>
      match node t !! n with Some x => Ret (val x) | None => Undef end
  | Ret None => Ret luaO_nilobject
  | Raise msg => Raise msg
  | Undef => Undef
  end.
Proof.
  unfold luaH_get, luaH_get_ref.
  destruct (luaH_mainposition t k); try reflexivity. apply get_loop_find.
Qed.

Lemma luaH_get_ref_at t k j x :
  pre_inv t -> hashable k -> node t !! j = Some x -> key x = k ->
  luaH_get_ref t k = Ret (Some j).
Proof.
  intros Hpre Hk Hx Ek. pose proof (inv_core _ Hpre) as Hcore.
  unfold luaH_get_ref. rewrite luaH_mainposition_ret; [|assumption|].
  - rewrite (inv_size _ Hpre). eapply find_loop_present; eauto.
  - rewrite (inv_size _ Hpre). apply (core_nonempty _ Hcore).
Qed.

Lemma luaH_get_ref_absent t k :
  pre_inv t -> hashable k -> ~ present (node t) k ->
  luaH_get_ref t k = Ret None.
Proof.
  intros Hpre Hk Hnp. pose proof (inv_core _ Hpre) as Hcore.
  unfold luaH_get_ref. rewrite luaH_mainposition_ret; [|assumption|].
  - rewrite (inv_size _ Hpre). apply find_loop_absent; assumption.
  - rewrite (inv_size _ Hpre). apply (core_nonempty _ Hcore).
Qed.

Lemma present_dec t k :
  pre_inv t -> hashable k ->
  (exists j x, node t !! j = Some x /\ key x = k) \/ ~ present (node t) k.
Proof.
  intros Hpre Hk.
  destruct (find_loop_total (node t) k (inv_core _ Hpre) Hk)
    as [(j & x & Hx & Ek & _)|[Hnp _]]; [left; eauto|right; assumption].
Qed.

Lemma luaH_pos_at t k j x :
  pre_inv t -> hashable k -> node t !! j = Some x -> key x = k ->
  luaH_pos t k = Ret (Z.of_nat j).
Proof.
  intros Hpre Hk Hx Ek. unfold luaH_pos.
  rewrite (luaH_get_ref_at t k j x); auto.
Qed.

Lemma luaH_pos_absent t k :
  pre_inv t -> hashable k -> ~ present (node t) k ->
  luaH_pos t k = Ret (-1)%Z.
Proof.
  intros Hpre Hk Hnp. unfold luaH_pos.
  rewrite luaH_get_ref_absent; auto.
Qed.

(** ** Further properties: a call of luaH_set that does not rehash *)

Lemma luaH_set_keeps t k v :
  inv t -> hashable k ->
  present (node t) k \/ used (node t) + 1 < length (node t) ->
  exists t', luaH_set t k v = Returned t' /\ inv t' /\
    size t' = size t /\ length (node t') = length (node t) /\
    firstfree t' <= firstfree t /\
    used (node t) <= used (node t') <= S (used (node t)) /\
    (present (node t) k -> used (node t') = used (node t)) /\
    (forall k', k' <> O_NIL -> present (node t) k' -> present (node t') k') /\
    present (node t') k.
Proof.
  intros Hinv Hk Hcase. pose proof Hinv as [Hpre _].
  assert (Hkn : k <> O_NIL) by (apply hashable_not_nil; assumption).
  destruct (present_dec t k Hpre Hk) as [(n & x & Hx & Ek)|Hnp].
  - rewrite (luaH_set_found t k v n x Hinv Hk Hx Ek).
    assert (Hkx : key x <> O_NIL) by congruence.
    eexists. split; [reflexivity|].
    split; [apply update_val_inv; assumption|]. simpl.
    split; [reflexivity|]. split; [apply length_insert|]. split; [lia|].
    assert (Hu : used (<[n := mkNode (key x) v (next x)]> (node t)) = used (node t)).
    { apply (used_insert_same _ _ x); [assumption|reflexivity]. }
    split; [lia|]. split; [auto|]. split.
    + intros k' _ (i & y & Hy & Eky).
      destruct (decide (i = n)) as [->|Hne].
      * exists n, (mkNode (key x) v (next x)). split.
        -- apply list_lookup_insert_eq. eapply lookup_lt_Some; eauto.
        -- simpl. congruence.
      * exists i, y. split; [|assumption].
        rewrite list_lookup_insert_ne by congruence. assumption.
    + exists n, (mkNode (key x) v (next x)). split.
      * apply list_lookup_insert_eq. eapply lookup_lt_Some; eauto.
      * assumption.
  - destruct Hcase as [Hp|Hfree]; [contradiction|].
    destruct (insert_key_spec t k v Hinv Hk Hnp) as (tm & E & Hins).
    pose proof (inserted_length _ _ _ _ Hinv Hins) as Hlen.
    destruct Hins as (Hprem & Hsz & Hff & Hh & Hother & Hu).
    rewrite luaH_set_absent by assumption. rewrite E. simpl.
    destruct (check_free_spec tm Hprem)
      as [(ff & _ & _ & Hle & _ & Ec & Hinv')|[Hfull _]].
    2:{ apply used_full in Hfull. lia. }
    exists (set_firstfree tm ff). split; [assumption|]. split; [assumption|].
    simpl. split; [assumption|]. split; [assumption|]. split; [lia|].
    split; [lia|]. split; [contradiction|]. split.
    + intros k' Hk' Hp.
      assert (Hne : k' <> k) by (intros ->; contradiction).
      apply present_holds in Hp as [v' Hp].
      apply (holds_present _ _ v'). apply Hother; assumption.
    + eapply holds_present; eauto.
Qed.

Lemma luaH_sets_keeps ops : forall t,
  inv t -> Forall (fun op => hashable (fst op)) ops ->
  used (node t) + length ops < length (node t) ->
  exists t', luaH_sets t ops = Returned t' /\ inv t' /\
    size t' = size t /\ length (node t') = length (node t) /\
    firstfree t' <= firstfree t /\
    used (node t') <= used (node t) + length ops /\
    (forall k, k <> O_NIL -> present (node t) k -> present (node t') k) /\
    (forall k, k ∈ map fst ops -> present (node t') k).
Proof.
  induction ops as [|[k v] ops IH]; intros t Hinv Hops Hroom.
  { exists t. split; [reflexivity|]. split; [assumption|].
    split; [reflexivity|]. split; [reflexivity|]. split; [lia|].
    split; [simpl; lia|]. split; [auto|]. intros k Hin. inversion Hin. }
  apply Forall_cons in Hops as [Hk Hops]. simpl in Hk, Hroom.
  destruct (luaH_set_keeps t k v Hinv Hk) as
    (t1 & E1 & Hinv1 & Hsz1 & Hlen1 & Hff1 & Hu1 & _ & Hkeep1 & Hp1); [right; lia|].
  destruct (IH t1 Hinv1 Hops) as
    (t' & E' & Hinv' & Hsz' & Hlen' & Hff' & Hu' & Hkeep' & Hp'); [lia|].
  exists t'. split; [simpl; rewrite E1; exact E'|]. split; [assumption|].
  split; [congruence|]. split; [congruence|]. split; [lia|].
  split; [simpl; lia|]. split; [auto|].
  intros k' Hin. simpl in Hin. apply elem_of_cons in Hin as [->|Hin]; [|auto].
  apply Hkeep'; [apply hashable_not_nil; assumption|assumption].
Qed.

(** When a node holds the key after [luaH_set]: always, but for a nil
    value written to a key that was in no node by the call that takes the
    last free node, where [rehash] drops the pair. *)
Lemma luaH_set_present_after t k v :
  inv t -> hashable k ->
  exists t1, luaH_set t k v = Returned t1 /\ inv t1 /\
    luaH_get t1 k = Ret v /\
    (present (node t1) k <->
     v <> O_NIL \/ present (node t) k \/
     used (node t) + 1 < length (node t)).
Proof.
  intros Hinv Hk. pose proof Hinv as [Hpre (f & Hf & Hkf)].
  assert (Hkn : k <> O_NIL) by (apply hashable_not_nil; assumption).
  destruct (luaH_set_spec t k v Hinv Hk) as (t1 & E1 & Hinv1 & Hget1 & _).
  exists t1. split; [assumption|]. split; [assumption|]. split; [assumption|].
  split.
  - intros Hp1.
    destruct (key_eq_dec_nil v) as [Ev|Ev]; [|left; assumption]. right.
    destruct (present_dec t k Hpre Hk) as [(j & x & Hx & Ek)|Hnp];
      [left; exists j, x; auto|]. right.
    destruct (Nat.lt_ge_cases (used (node t) + 1) (length (node t)))
      as [Hlt|Hge]; [assumption|]. exfalso.
    assert (Hu : used (node t) + 1 = length (node t)).
    { pose proof (used_le_length (node t)) as Hle.
      destruct (decide (used (node t) = length (node t))) as [Efull|]; [|lia].
      apply used_length_full in Efull. exfalso.
      apply (Efull _ _ Hf). assumption. }
    destruct (insert_key_spec t k v Hinv Hk Hnp) as (tm & E & Hins).
    pose proof (inserted_length _ _ _ _ Hinv Hins) as Hlen.
    destruct Hins as (Hprem & _ & _ & Hh & _ & Hum).
    assert (Hfull : full (node tm)) by (apply used_length_full; lia).
    destruct (rehash_spec (set_firstfree tm 0)) as (t' & Er & _ & _ & Hh').
    { apply (inv_size _ Hprem). }
    { apply (inv_core _ Hprem). }
    assert (E1' : luaH_set t k v = Returned t').
    { rewrite luaH_set_absent by assumption. rewrite E. simpl.
      destruct (check_free_spec tm Hprem) as [(ff & Hnf & _)|[_ ->]];
        [contradiction|assumption]. }
    assert (t' = t1) by congruence. subst t'.
    apply present_holds in Hp1 as [v' Hp1].
    apply Hh' in Hp1 as [Hp1 Hv']; [|assumption]. simpl in Hp1.
    apply Hv'. rewrite <- Ev.
    exact (holds_fun (node tm) k v' v (inv_core _ Hprem) Hkn Hp1 Hh).
  - intros [Hv|Hcase].
    + eapply holds_present.
      exact (luaH_get_present t1 k v (proj1 Hinv1) Hk Hget1 Hv).
    + destruct (luaH_set_keeps t k v Hinv Hk Hcase)
        as (t' & E' & _ & _ & _ & _ & _ & _ & _ & Hp).
      assert (t' = t1) by congruence. subst t'. assumption.
Qed.

(** ** The properties of the specification *)

(** C1. Main-position invariant: in every table made by [luaH_new] and
    written to by any finite sequence of calls of [luaH_set], a node that
    holds a key out of its main position has the node of that main
    position occupied by a key whose own main position is that node. *)
Theorem main_position_invariant_reachable t :
  reachable t -> main_position_invariant t.
Proof.
  intros Hr. apply reachable_inv in Hr as [Hpre _].
  intros i x Hx Hk Hd. rewrite (inv_size _ Hpre) in *.
  apply (core_main _ _ _ (inv_core _ Hpre) Hx Hk Hd).
Qed.

(** C2. Round-trip: for every table, every key that can index a table and
    every value other than nil, [luaH_set] returns and [luaH_get] then
    reads the value written. *)
Theorem set_get_roundtrip t k v :
  reachable t -> hashable k -> v <> O_NIL ->
  exists t', luaH_set t k v = Returned t' /\ luaH_get t' k = Ret v.
Proof.
  intros Hr Hk _. apply reachable_inv in Hr.
  destruct (luaH_set_spec t k v Hr Hk) as (t' & E & _ & Hget & _). eauto.
Qed.

(** C3. Saturation triggers a rehash, and rehash keeps the mapping.
    (1) Any sequence of calls of [luaH_set] with keys that can index a
    table returns, whatever the number of rehashes on the way, and every
    key then reads the value written to it last (the value it read before
    when the calls do not write to it).  (2) In particular the insertion
    of any number of distinct keys into a new table of any size returns,
    and each key reads its value.  (3) The call that takes the last free
    node of the vector ends in [rehash], which returns a table in which
    every key reads what it read in the full vector. *)
Theorem saturation_rehash_preserves :
  (forall t ops,
     reachable t -> Forall (fun op => hashable (fst op)) ops ->
     exists t', luaH_sets t ops = Returned t' /\
       forall k, hashable k ->
         luaH_get t' k =
         match last_write ops k with Some v => Ret v | None => luaH_get t k end) /\
  (forall n ops,
     Forall (fun op => hashable (fst op)) ops -> NoDup (map fst ops) ->
     exists t', luaH_sets (luaH_new n) ops = Returned t' /\
       forall k v, (k, v) ∈ ops -> luaH_get t' k = Ret v) /\
  (forall t k v,
     reachable t -> hashable k -> ~ present (node t) k ->
     used (node t) + 1 = length (node t) ->
     exists tm t',
       insert_key t (mainpos (size t) k) k v = Returned tm /\
       full (node tm) /\
       luaH_set t k v = rehash (set_firstfree tm 0) /\
       rehash (set_firstfree tm 0) = Returned t' /\
       forall k', hashable k' -> luaH_get t' k' = luaH_get tm k').
Proof.
  split; [|split].
  - intros t ops Hr Hops. apply reachable_inv in Hr.
    destruct (luaH_sets_spec ops t Hr Hops) as (t' & E & _ & H). eauto.
  - intros n ops Hops Hnd.
    destruct (luaH_sets_spec ops (luaH_new n) (luaH_new_inv n) Hops)
      as (t' & E & _ & H).
    exists t'. split; [assumption|]. intros k v Hin.
    rewrite H, (last_write_nodup ops k v Hnd Hin); [reflexivity|].
    rewrite Forall_forall in Hops. apply (Hops (k, v)). assumption.
  - intros t k v Hr Hk Hnp Hused. apply reachable_inv in Hr.
    destruct (insert_key_spec t k v Hr Hk Hnp) as (tm & E & Hins).
    pose proof (inserted_length _ _ _ _ Hr Hins) as Hlen.
    destruct Hins as (Hprem & _ & _ & _ & _ & Hu).
    assert (Hfull : full (node tm)) by (apply used_length_full; lia).
    destruct (rehash_spec (set_firstfree tm 0)) as (t' & E' & Hinv' & _ & Hh).
    { apply (inv_size _ Hprem). }
    { apply (inv_core _ Hprem). }
    exists tm, t'. split; [assumption|]. split; [assumption|]. split.
    { rewrite luaH_set_absent by assumption. rewrite E. simpl.
      destruct (check_free_spec tm Hprem) as [(ff & Hnf & _)|[_ ->]];
        [contradiction|reflexivity]. }
    split; [assumption|].
    intros k' Hk'. apply luaH_get_same_live; [assumption|apply Hinv'|assumption|].
    intros v' Hv'. rewrite Hh by (apply hashable_not_nil; assumption).
    simpl. tauto.
Qed.

(** C4. Brent's variation: when [luaH_set] inserts a key whose main
    position [mp] holds another key, the node [firstfree] is free and it
    is where the scan downwards from [firstfree] stops; then (a) if the
    key of [mp] is out of its main position, the node of [mp] is copied
    to [firstfree], the node before it in its chain points to [firstfree],
    and the new pair is written to [mp] with no successor; (b) if the key
    of [mp] is in its main position, the new pair is written to
    [firstfree] with the successor of [mp] as its successor, and [mp]
    points to [firstfree].  The last loop of [luaH_set] runs on the table
    so changed. *)
Theorem brent_variation_insert t k v xm :
  reachable t -> hashable k -> ~ present (node t) k ->
  node t !! mainpos (size t) k = Some xm -> key xm <> O_NIL ->
  let mp := mainpos (size t) k in
  let n := firstfree t in
  (exists f, node t !! n = Some f /\ key f = O_NIL) /\
  free_place (node t) n = Ret (Some n) /\
  (mainpos (size t) (key xm) <> mp ->
     exists prev xprev l,
       node t !! prev = Some xprev /\ next xprev = Some mp /\
       chain (node t) (mainpos (size t) (key xm)) l /\ prev ∈ l /\ mp ∈ l /\
       luaH_set t k v =
       check_free (set_node t
         (<[mp := mkNode k v None]>
            (<[n := xm]>
               (<[prev := mkNode (key xprev) (val xprev) (Some n)]> (node t)))))) /\
  (mainpos (size t) (key xm) = mp ->
     luaH_set t k v =
     check_free (set_node t
       (<[mp := mkNode (key xm) (val xm) (Some n)]>
          (<[n := mkNode k v (next xm)]> (node t))))).
Proof.
  intros Hr Hk Hnp Hm Hkm mp n. apply reachable_inv in Hr.
  pose proof Hr as [Hpre (f & Hf & Hkf)].
  pose proof (inv_core _ Hpre) as Hcore.
  pose proof (inv_size _ Hpre) as Hsz.
  split; [eauto|]. split; [eapply free_place_here; eauto|]. split.
  - intros Hd.
    destruct (insert_key_moved t k v xm Hr Hk Hnp Hm Hkm Hd)
      as (prev & xprev & Hprev & Hnprev & E & _).
    assert (Hkp : key xprev <> O_NIL).
    { intros Ek. destruct (core_empty _ Hcore _ _ Hprev Ek). congruence. }
    destruct (core_reach _ Hcore _ _ Hprev Hkp) as (l & Hc & Hin).
    destruct (core_next _ Hcore _ _ _ Hprev Hnprev) as (y & Hy & _ & Hmy & _).
    assert (y = xm) by (unfold mp in Hm; congruence). subst y.
    rewrite <- Hmy, <- Hsz in Hc.
    exists prev, xprev, l. repeat (split; [assumption|]).
    split; [eapply chain_next_in; eauto|].
    rewrite luaH_set_absent by assumption. fold mp. unfold mp at 1. rewrite E.
    reflexivity.
  - intros Hd.
    destruct (insert_key_chained t k v xm Hr Hk Hnp Hm Hkm Hd) as [E _].
    rewrite luaH_set_absent by assumption. rewrite E. reflexivity.
Qed.

(** C5, as amended.  For every table and every key that can index a table,
    [luaH_get] returns: the value of the node that holds the key in the
    chain of the key's main position, nil when no node of that chain
    holds it.  For a key that cannot index a table it calls [lua_error].
    ([luaH_get] takes the table [const] and returns a value only; [rehash]
    is called by [luaH_set] alone.) *)
Theorem get_hashable_total t k :
  reachable t ->
  (hashable k ->
   exists l, chain (node t) (mainpos (size t) k) l /\
     ((exists n x, n ∈ l /\ node t !! n = Some x /\ key x = k /\
         luaH_get t k = Ret (val x)) \/
      ((forall n x, n ∈ l -> node t !! n = Some x -> key x <> k) /\
         luaH_get t k = Ret luaO_nilobject))) /\
  (~ hashable k -> luaH_get t k = Raise "unexpected type to index table").
Proof.
  intros Hr. split.
  - intros Hk. apply reachable_inv in Hr as [Hpre _].
    pose proof (inv_core _ Hpre) as Hcore. rewrite (inv_size _ Hpre).
    destruct (core_term (node t) (mainpos (length (node t)) k) Hcore) as (l & Hc).
    { apply mainpos_lt, (core_nonempty _ Hcore). }
    exists l. split; [assumption|].
    destruct (find_loop_total (node t) k Hcore Hk) as [(n & x & Hx & Ek & _)|[Hnp _]].
    + left. exists n, x.
      assert (Hkx : key x <> O_NIL) by (rewrite Ek; apply hashable_not_nil; assumption).
      destruct (core_reach _ Hcore _ _ Hx Hkx) as (l' & Hc' & Hin).
      rewrite Ek in Hc'. rewrite (chain_det _ _ _ Hc _ Hc').
      split; [assumption|]. split; [assumption|]. split; [assumption|].
      apply luaH_get_holds; [assumption..|]. exists n, x. auto.
    + right. split.
      * intros n x _ Hx Ek. apply Hnp. exists n, x. auto.
      * apply luaH_get_absent; assumption.
  - intros Hk. unfold luaH_get. rewrite luaH_mainposition_raise by assumption.
    reflexivity.
Qed.

(** C6. A key that cannot index a table (nil, or any object for which
    [luaH_mainposition] has no hash): [luaH_set] calls [lua_error] at
    once, and the caller finds the table as it was. *)
Theorem set_invalid_key_raises t k v :
  ~ hashable k ->
  luaH_set t k v = Raised "unexpected type to index table" t.
Proof.
  intros Hk. unfold luaH_set. rewrite luaH_mainposition_raise by assumption.
  reflexivity.
Qed.

(** C7. Rehash sizing: when the insertion of a key takes the last free
    node, [luaH_set] ends in [rehash], and the new vector has
    [luaO_redimension (2 * realuse)] nodes, [realuse] being the number of
    nodes of the old vector whose value is not nil; so the vector shrinks
    whenever that size is below the old one. *)
Theorem rehash_sizing t k v tm :
  reachable t -> hashable k -> ~ present (node t) k ->
  insert_key t (mainpos (size t) k) k v = Returned tm ->
  full (node tm) ->
  exists t',
    luaH_set t k v = Returned t' /\
    rehash (set_firstfree tm 0) = Returned t' /\
    size t' = luaO_redimension (2 * realuse (node tm)) /\
    length (node t') = size t' /\
    (luaO_redimension (2 * realuse (node tm)) < size t -> size t' < size t).
Proof.
  intros Hr Hk Hnp E Hfull. apply reachable_inv in Hr.
  destruct (insert_key_spec t k v Hr Hk Hnp) as (tm' & E' & Hprem & _).
  assert (tm' = tm) by congruence. subst tm'.
  destruct (rehash_spec (set_firstfree tm 0)) as (t' & Er & Hinv' & Hsz' & _).
  { apply (inv_size _ Hprem). }
  { apply (inv_core _ Hprem). }
  simpl in Hsz'. rewrite Nat.mul_comm in Hsz'.
  exists t'. split.
  { rewrite luaH_set_absent by assumption. rewrite E. simpl.
    destruct (check_free_spec tm Hprem) as [(ff & Hnf & _)|[_ ->]];
      [contradiction|assumption]. }
  split; [assumption|]. split; [assumption|].
  split; [symmetry; apply (inv_size _ (proj1 Hinv'))|]. lia.
Qed.

(** C8, as amended.  After [luaH_set] has written a value to a key, a
    second [luaH_set] of that key returns and [luaH_get] then reads the
    second value, whatever the first value.  A node holds the key after
    the first call exactly when the first value is not nil, or the key
    was in a node before, or the first call found two free nodes or more;
    and whenever a node holds it, that node has the first value and the
    second call overwrites the value in that node: no other field of the
    vector changes, [firstfree] and the size stay, and the number of
    occupied nodes stays. *)
Theorem overwrite_in_place t k v1 v2 :
  reachable t -> hashable k ->
  exists t1 t2,
    luaH_set t k v1 = Returned t1 /\ luaH_set t1 k v2 = Returned t2 /\
    luaH_get t2 k = Ret v2 /\
    (present (node t1) k <->
     v1 <> O_NIL \/ present (node t) k \/
     used (node t) + 1 < length (node t)) /\
    (forall n x, node t1 !! n = Some x -> key x = k ->
       val x = v1 /\
       node t2 = <[n := mkNode (key x) v2 (next x)]> (node t1) /\
       firstfree t2 = firstfree t1 /\ size t2 = size t1 /\
       used (node t2) = used (node t1)).
Proof.
  intros Hr Hk. apply reachable_inv in Hr.
  destruct (luaH_set_present_after t k v1 Hr Hk)
    as (t1 & E1 & Hinv1 & Hget1 & Hp1).
  destruct (luaH_set_spec t1 k v2 Hinv1 Hk) as (t2 & E2 & _ & Hget2 & _).
  exists t1, t2. repeat (split; [assumption|]).
  intros n x Hx Ek. split.
  { assert (Hg : luaH_get t1 k = Ret (val x)).
    { apply luaH_get_holds; [apply Hinv1|assumption|]. exists n, x. auto. }
    congruence. }
  pose proof (luaH_set_found t1 k v2 n x Hinv1 Hk Hx Ek) as E2'.
  rewrite E2 in E2'. injection E2' as ->. simpl.
  repeat (split; [reflexivity|]).
  apply (used_insert_same _ _ x); [assumption|reflexivity].
Qed.

(** C9, as amended.  Delete-then-absent: after [luaH_set] of a key and
    then [luaH_set] of that key with nil, [luaH_get] reads nil at the key,
    whatever the first value.  A node holds the key after the first call
    exactly when the first value is not nil, or the key was in a node
    before, or the first call found two free nodes or more; and whenever
    a node holds it, the second call writes nil to the value of that node
    and changes nothing else, so that the node keeps its key and every
    chain is as it was. *)
Theorem delete_then_absent t k v :
  reachable t -> hashable k ->
  exists t1 t2,
    luaH_set t k v = Returned t1 /\ luaH_set t1 k O_NIL = Returned t2 /\
    luaH_get t2 k = Ret O_NIL /\
    (present (node t1) k <->
     v <> O_NIL \/ present (node t) k \/
     used (node t) + 1 < length (node t)) /\
    (forall n x, node t1 !! n = Some x -> key x = k ->
       node t2 = <[n := mkNode k O_NIL (next x)]> (node t1) /\
       firstfree t2 = firstfree t1 /\ size t2 = size t1).
Proof.
  intros Hr Hk. apply reachable_inv in Hr.
  destruct (luaH_set_present_after t k v Hr Hk)
    as (t1 & E1 & Hinv1 & Hget1 & Hp1).
  destruct (luaH_set_spec t1 k O_NIL Hinv1 Hk) as (t2 & E2 & _ & Hget2 & _).
  exists t1, t2. repeat (split; [assumption|]).
  intros n x Hx Ek.
  pose proof (luaH_set_found t1 k O_NIL n x Hinv1 Hk Hx Ek) as E2'.
  rewrite E2 in E2'. injection E2' as ->. simpl. rewrite Ek. auto.
Qed.

(** C10, as amended.  [luaH_set] of a key that is in no node, with nil:
    [luaH_get] reads nil at the key before and after, yet the key is
    inserted like any other: [insert_key] writes the pair (key, nil) to a
    node that was free, one more node is occupied, and the last loop of
    [luaH_set] runs.  When that node was the last free one, the call ends
    in [rehash].  Otherwise [firstfree] goes down exactly when the node it
    pointed to is the one taken, and stays where it was if not. *)
Theorem delete_absent_inserts t k :
  reachable t -> hashable k -> ~ present (node t) k ->
  luaH_get t k = Ret O_NIL /\
  exists tm t',
    insert_key t (mainpos (size t) k) k O_NIL = Returned tm /\
    holds (node tm) k O_NIL /\
    used (node tm) = S (used (node t)) /\
    length (node tm) = length (node t) /\
    luaH_set t k O_NIL = check_free tm /\
    luaH_set t k O_NIL = Returned t' /\
    luaH_get t' k = Ret O_NIL /\
    (used (node t) + 1 = length (node t) ->
       luaH_set t k O_NIL = rehash (set_firstfree tm 0)) /\
    (used (node t) + 1 < length (node t) ->
       node t' = node tm /\ firstfree t' <= firstfree t /\
       (firstfree t' < firstfree t <->
        exists x, node tm !! firstfree t = Some x /\ key x <> O_NIL)).
Proof.
  intros Hr Hk Hnp. apply reachable_inv in Hr.
  split; [apply luaH_get_absent; [apply Hr|assumption..]|].
  destruct (insert_key_spec t k O_NIL Hr Hk Hnp) as (tm & E & Hins).
  pose proof (inserted_length _ _ _ _ Hr Hins) as Hlen.
  destruct Hins as (Hprem & _ & Hff & Hh & _ & Hu).
  destruct (luaH_set_spec t k O_NIL Hr Hk) as (t' & E' & _ & Hget' & _).
  assert (Eset : luaH_set t k O_NIL = check_free tm).
  { rewrite luaH_set_absent by assumption. rewrite E. reflexivity. }
  exists tm, t'. repeat (split; [assumption|]). split.
  - intros Hused. rewrite Eset.
    destruct (check_free_spec tm Hprem) as [(ff & Hnf & _)|[_ ->]]; [|reflexivity].
    exfalso. apply Hnf, used_length_full. lia.
  - intros Hused.
    destruct (check_free_spec tm Hprem)
      as [(ff & _ & _ & Hle & Hsame & Ec & Hinv')|[Hfull _]].
    2:{ apply used_full in Hfull. lia. }
    rewrite Eset, Ec in E'. injection E' as <-. simpl.
    rewrite Hff in *. split; [reflexivity|]. split; [assumption|]. split.
    + intros Hlt.
      destruct (lookup_lt_is_Some_2 (node tm) (firstfree t)) as [x Hx].
      { rewrite Hlen. apply (inv_ff _ (proj1 Hr)). }
      exists x. split; [assumption|]. intros Ek.
      specialize (Hsame x Hx Ek). lia.
    + intros (x & Hx & Hkx).
      destruct Hinv' as [_ (y & Hy & Hky)]. simpl in Hy.
      destruct (decide (ff = firstfree t)) as [->|]; [congruence|lia].
Qed.

(** ** Further properties of the code *)

Lemma listfind_chain_out nd m l n fuel :
  chain nd m l -> n ∉ l -> length l <= fuel ->
  listfind fuel nd m n = Ret false.
Proof.
  intros Hc. revert fuel.
  induction Hc as [i x Hi Hn|i x j l Hi Hn Hc IH]; intros fuel Hout Hf;
    (destruct fuel as [|fuel]; [simpl in Hf; lia|]); simpl.
  - destruct (Nat.eqb_spec i n) as [->|Hne].
    + exfalso. apply Hout. left.
    + rewrite Hi, Hn. reflexivity.
  - destruct (Nat.eqb_spec i n) as [->|Hne].
    + exfalso. apply Hout. left.
    + rewrite Hi, Hn. apply IH; [|simpl in Hf; lia].
      intros Hin. apply Hout. right. assumption.
Qed.

(** X1. A table made by [luaH_new (n)] has [luaO_redimension (n + 1)]
    nodes, more than [n + 1], all of them blank (nil key, nil value, no
    successor), and [firstfree] is its last node; [luaH_get] reads nil and
    [luaH_pos] returns -1 at every key that can index a table, and the
    table passes [check_invariant]. *)
Theorem luaH_new_empty n :
  let t := luaH_new n in
  size t = luaO_redimension (n + 1) /\ length (node t) = size t /\
  n + 1 < size t /\ firstfree t = size t - 1 /\
  (forall i, i < size t -> node t !! i = Some (mkNode O_NIL O_NIL None)) /\
  (forall k, hashable k ->
     luaH_get t k = Ret luaO_nilobject /\ luaH_pos t k = Ret (-1)%Z) /\
  check_invariant t false = Ret 1.
Proof.
  intros t. pose proof (luaH_new_inv n) as Hinv. fold t in Hinv.
  pose proof (redimension_gt (n + 1)) as Hgt.
  split; [reflexivity|].
  split; [apply length_replicate|]. split; [exact Hgt|].
  split; [reflexivity|]. split.
  { intros i Hi. apply lookup_replicate_2. exact Hi. }
  split; [|apply check_invariant_ok; assumption].
  intros k Hk.
  assert (Hnp : ~ present (node t) k).
  { intros (i & x & Hx & Ek). apply lookup_replicate in Hx as [-> _].
    simpl in Ek. apply (hashable_not_nil k Hk). congruence. }
  split.
  - apply luaH_get_absent; [apply Hinv|assumption..].
  - apply luaH_pos_absent; [apply Hinv|assumption..].
Qed.

(** X2. A table made by [luaH_new (n)] takes [n] calls of [luaH_set]
    without a rehash: after at most [n] calls, with keys that can index a
    table, the vector has the size it was created with, and every key
    written is still the key of a node, also when its value is nil. *)
Theorem luaH_new_capacity n ops :
  Forall (fun op => hashable (fst op)) ops -> length ops <= n ->
  exists t', luaH_sets (luaH_new n) ops = Returned t' /\
    size t' = size (luaH_new n) /\ length (node t') = size t' /\
    (forall k, k ∈ map fst ops -> present (node t') k) /\
    used (node t') <= length ops.
Proof.
  intros Hops Hlen.
  assert (Hl0 : length (node (luaH_new n)) = luaO_redimension (n + 1))
    by apply length_replicate.
  assert (Hu0 : used (node (luaH_new n)) = 0) by apply used_hashnodecreate.
  pose proof (redimension_gt (n + 1)) as Hgt.
  destruct (luaH_sets_keeps ops (luaH_new n) (luaH_new_inv n) Hops)
    as (t' & E & Hinv' & Hsz & Hlen' & _ & Hu & _ & Hp); [lia|].
  exists t'. split; [assumption|]. split; [assumption|].
  split; [symmetry; apply (inv_size _ (proj1 Hinv'))|].
  split; [assumption|]. lia.
Qed.

(** X3. A call of [luaH_set] whose key is already in a node, or which
    finds two free nodes or more, does not rehash: the vector keeps its
    size, [firstfree] does not go up, the number of occupied nodes stays
    (key in a node) or grows by one at most, and every key of a node is
    still the key of a node. *)
Theorem luaH_set_without_rehash t k v :
  reachable t -> hashable k ->
  present (node t) k \/ used (node t) + 1 < length (node t) ->
  exists t', luaH_set t k v = Returned t' /\
    size t' = size t /\ length (node t') = length (node t) /\
    firstfree t' <= firstfree t /\
    used (node t) <= used (node t') <= S (used (node t)) /\
    (present (node t) k -> used (node t') = used (node t)) /\
    (forall k', k' <> O_NIL -> present (node t) k' -> present (node t') k').
Proof.
  intros Hr Hk Hcase. apply reachable_inv in Hr.
  destruct (luaH_set_keeps t k v Hr Hk Hcase)
    as (t' & E & _ & Hsz & Hlen & Hff & Hu & Hu' & Hkeep & _).
  exists t'. auto 10.
Qed.

(** X4. In every table made by [luaH_new] and written to by [luaH_set],
    no two nodes hold the same key; a node whose key is nil has a nil
    value and no successor; and the key of every other node can index a
    table. *)
Theorem reachable_keys_unique t :
  reachable t ->
  (forall i j x y, node t !! i = Some x -> node t !! j = Some y ->
     key x <> O_NIL -> key x = key y -> i = j) /\
  (forall i x, node t !! i = Some x -> key x = O_NIL ->
     val x = O_NIL /\ next x = None) /\
  (forall i x, node t !! i = Some x -> key x <> O_NIL -> hashable (key x)).
Proof.
  intros Hr. apply reachable_inv in Hr as [Hpre _].
  pose proof (inv_core _ Hpre) as Hcore. split; [|split].
  - apply (core_nodup _ Hcore).
  - apply (core_empty _ Hcore).
  - apply (core_hashable _ Hcore).
Qed.

(** X5. The [next] field of a node of such a table, when it is not NULL,
    points to another node of the vector, above [firstfree], whose key has
    the main position of the key of the pointing node and is out of that
    main position; and no other node points there. *)
Theorem reachable_next_wellformed t i x j :
  reachable t -> node t !! i = Some x -> next x = Some j ->
  j <> i /\ firstfree t < j < size t /\ key x <> O_NIL /\
  (exists y, node t !! j = Some y /\ key y <> O_NIL /\
     mainpos (size t) (key y) = mainpos (size t) (key x) /\
     mainpos (size t) (key y) <> j) /\
  (forall i' x', node t !! i' = Some x' -> next x' = Some j -> i' = i).
Proof.
  intros Hr Hx Hn. apply reachable_inv in Hr as [Hpre (f & Hf & Hkf)].
  pose proof (inv_core _ Hpre) as Hcore. rewrite (inv_size _ Hpre).
  destruct (core_next _ Hcore _ _ _ Hx Hn) as (y & Hy & Hky & Hmy & Hdy).
  split.
  { intros ->. apply (core_no_self_loop _ _ _ Hcore Hx). assumption. }
  split.
  { split; [|eapply lookup_lt_Some; eauto].
    pose proof (inv_displaced _ Hpre _ _ Hy Hky Hdy) as Hle.
    destruct (decide (j = firstfree t)) as [->|]; [congruence|lia]. }
  split.
  { intros Ek. destruct (core_empty _ Hcore _ _ Hx Ek). congruence. }
  split; [eauto|].
  intros i' x' Hx' Hn'. apply (core_next_inj _ _ _ _ _ _ Hcore Hx' Hx Hn' Hn).
Qed.

(** X6. Every occupied node is found from its key: [luaH_get] with the
    key of a node returns the value of that node, [luaH_pos] returns its
    index, and the node is on the chain that starts at the main position
    of the key. *)
Theorem luaH_get_finds_every_node t i x :
  reachable t -> node t !! i = Some x -> key x <> O_NIL ->
  luaH_get t (key x) = Ret (val x) /\
  luaH_pos t (key x) = Ret (Z.of_nat i) /\
  exists l, chain (node t) (mainpos (size t) (key x)) l /\ i ∈ l.
Proof.
  intros Hr Hx Hk. apply reachable_inv in Hr as [Hpre _].
  pose proof (inv_core _ Hpre) as Hcore.
  pose proof (core_hashable _ Hcore _ _ Hx Hk) as Hh.
  split; [apply luaH_get_holds; [assumption..|]; exists i, x; auto|].
  split; [apply (luaH_pos_at t (key x) i x); auto|].
  rewrite (inv_size _ Hpre). apply (core_reach _ Hcore _ _ Hx Hk).
Qed.

(** X7. [luaH_pos] on a table made by [luaH_new] and [luaH_set]: with a
    key that can index a table it returns -1 when no node has the key,
    and otherwise the index, below the size, of the node that has it,
    whose value is what [luaH_get] returns, nil included; with any other
    key it calls [lua_error]. *)
Theorem luaH_pos_spec t k :
  reachable t ->
  (hashable k ->
   exists p, luaH_pos t k = Ret p /\ (-1 <= p < Z.of_nat (size t))%Z /\
     (p = (-1)%Z <-> ~ present (node t) k) /\
     (p = (-1)%Z -> luaH_get t k = Ret luaO_nilobject) /\
     (forall n, p = Z.of_nat n ->
        exists x, node t !! n = Some x /\ key x = k /\
          luaH_get t k = Ret (val x))) /\
  (~ hashable k -> luaH_pos t k = Raise "unexpected type to index table").
Proof.
  intros Hr. apply reachable_inv in Hr as [Hpre _]. split.
  - intros Hk. destruct (present_dec t k Hpre Hk) as [(j & x & Hx & Ek)|Hnp].
    + exists (Z.of_nat j). split; [eapply luaH_pos_at; eauto|].
      pose proof (lookup_lt_Some _ _ _ Hx) as Hlt.
      rewrite (inv_size _ Hpre). split; [lia|]. split.
      { split; [lia|]. intros Hnp. exfalso. apply Hnp. exists j, x. auto. }
      split; [lia|].
      intros n En. apply Nat2Z.inj in En. subst n.
      exists x. split; [assumption|]. split; [assumption|].
      apply luaH_get_holds; [assumption..|]. exists j, x. auto.
    + exists (-1)%Z. split; [apply luaH_pos_absent; assumption|].
      split; [lia|]. split; [tauto|].
      split; [intros _; apply luaH_get_absent; assumption|].
      intros n En. lia.
  - intros Hk. unfold luaH_pos, luaH_get_ref.
    rewrite luaH_mainposition_raise by assumption. reflexivity.
Qed.

(** X8. Positions are stable under overwriting: when [luaH_set] writes to
    a key that is already in a node, whatever the value, nil included,
    every key keeps the position that [luaH_pos] returns; the key written
    keeps a position other than -1 even when [luaH_get] reads nil at it
    afterwards. *)
Theorem luaH_pos_overwrite_stable t k v :
  reachable t -> hashable k -> present (node t) k ->
  exists t' n, luaH_set t k v = Returned t' /\
    luaH_pos t' k = Ret (Z.of_nat n) /\ luaH_get t' k = Ret v /\
    forall k', hashable k' -> luaH_pos t' k' = luaH_pos t k'.
Proof.
  intros Hr Hk (n & x & Hx & Ek). apply reachable_inv in Hr.
  pose proof Hr as [Hpre _].
  assert (Hkx : key x <> O_NIL).
  { rewrite Ek. apply hashable_not_nil. assumption. }
  pose proof (update_val_inv t n x v Hr Hx Hkx) as [Hpre' _].
  set (t' := set_node t (<[n := mkNode (key x) v (next x)]> (node t))) in *.
  assert (Hn' : node t' !! n = Some (mkNode (key x) v (next x))).
  { apply list_lookup_insert_eq. eapply lookup_lt_Some; eauto. }
  exists t', n. split; [apply luaH_set_found; assumption|].
  split; [apply (luaH_pos_at t' k n _ Hpre' Hk Hn'); assumption|].
  split.
  { apply luaH_get_holds; [assumption..|]. eexists n, _. split; [exact Hn'|auto]. }
  intros k' Hk'.
  destruct (present_dec t k' Hpre Hk') as [(j & y & Hy & Eky)|Hnp].
  - rewrite (luaH_pos_at t k' j y Hpre Hk' Hy Eky).
    destruct (decide (j = n)) as [->|Hne].
    + apply (luaH_pos_at t' k' n _ Hpre' Hk' Hn'). simpl. congruence.
    + apply (luaH_pos_at t' k' j y Hpre' Hk'); [|assumption].
      simpl. rewrite list_lookup_insert_ne by congruence. assumption.
  - rewrite (luaH_pos_absent t k' Hpre Hk' Hnp).
    apply luaH_pos_absent; [assumption..|].
    intros (j & y & Hy & Eky). apply Hnp.
    destruct (decide (j = n)) as [->|Hne].
    + rewrite Hn' in Hy. injection Hy as <-. exists n, x. auto.
    + simpl in Hy. rewrite list_lookup_insert_ne in Hy by congruence.
      exists j, y. auto.
Qed.

(** X9. Two keys never share a position: when [luaH_pos] returns the same
    position, other than -1, for two keys, the keys are equal. *)
Theorem luaH_pos_inj t k1 k2 p :
  luaH_pos t k1 = Ret p -> luaH_pos t k2 = Ret p -> (0 <= p)%Z -> k1 = k2.
Proof.
  unfold luaH_pos, luaH_get_ref. intros H1 H2 Hp.
  destruct (luaH_mainposition t k1) as [m1| |]; try discriminate.
  destruct (luaH_mainposition t k2) as [m2| |]; try discriminate.
  destruct (find_loop _ _ k1 m1) as [[j1|]| |] eqn:E1; try discriminate;
    [|injection H1 as <-; lia].
  destruct (find_loop _ _ k2 m2) as [[j2|]| |] eqn:E2; try discriminate;
    [|injection H2 as <-; lia].
  injection H1 as <-. injection H2 as E. apply Nat2Z.inj in E. subst j2.
  apply find_loop_sound in E1 as (x1 & Hx1 & Ek1).
  apply find_loop_sound in E2 as (x2 & Hx2 & Ek2). congruence.
Qed.

(** X10. [luaH_setint] and [luaH_getint]: on a table made by [luaH_new]
    and [luaH_set], [luaH_setint] returns for every integer key, without
    any error, [luaH_getint] then reads the value written at that key,
    and what it reads at the integers that convert to another number is
    what it read before. *)
Theorem luaH_setint_getint t i v :
  reachable t ->
  exists t', luaH_setint t i v = Returned t' /\ reachable t' /\
    luaH_getint t' i = Ret v /\
    forall j, int2real j <> int2real i -> luaH_getint t' j = luaH_getint t j.
Proof.
  intros Hr. unfold luaH_setint, luaH_getint.
  assert (Hk : forall z, hashable (O_NUMBER (int2real z))) by (intros z; discriminate).
  destruct (luaH_set_spec t (O_NUMBER (int2real i)) v (reachable_inv t Hr) (Hk i))
    as (t' & E & _ & Hget & Hother).
  exists t'. split; [assumption|]. split.
  { apply (reachable_sets t [(O_NUMBER (int2real i), v)] t' Hr).
    - constructor; [apply Hk|constructor].
    - simpl. rewrite E. reflexivity. }
  split; [assumption|].
  intros j Hj. apply Hother; [apply Hk|congruence].
Qed.

(** X11. The assertions of [check_invariant] hold between any two calls:
    [check_invariant (t, 0)] returns 1 on every table made by [luaH_new]
    and written to by [luaH_set]. *)
Theorem check_invariant_holds t :
  reachable t -> check_invariant t false = Ret 1.
Proof. intros Hr. apply check_invariant_ok, reachable_inv, Hr. Qed.

(** X12. The two assertions of [rehash] hold whenever [luaH_set] calls
    it: [check_invariant (t, 1)] returns 1 on the full vector that
    [rehash] is entered with, and [check_invariant (t, 0)] returns 1 on
    the table that it leaves. *)
Theorem rehash_assertions_hold t k v tm :
  reachable t -> hashable k -> ~ present (node t) k ->
  insert_key t (mainpos (size t) k) k v = Returned tm ->
  full (node tm) ->
  check_invariant (set_firstfree tm 0) true = Ret 1 /\
  exists t', luaH_set t k v = Returned t' /\
    rehash (set_firstfree tm 0) = Returned t' /\
    check_invariant t' false = Ret 1.
Proof.
  intros Hr Hk Hnp E Hfull. apply reachable_inv in Hr.
  destruct (insert_key_spec t k v Hr Hk Hnp) as (tm' & E' & Hprem & _).
  assert (tm' = tm) by congruence. subst tm'.
  split; [apply check_invariant_filled_ok; assumption|].
  destruct (rehash_spec (set_firstfree tm 0)) as (t' & Er & Hinv' & _).
  { apply (inv_size _ Hprem). }
  { apply (inv_core _ Hprem). }
  exists t'. split.
  { rewrite luaH_set_absent by assumption. rewrite E. simpl.
    destruct (check_free_spec tm Hprem) as [(ff & Hnf & _)|[_ ->]];
      [contradiction|assumption]. }
  split; [assumption|]. apply check_invariant_ok. assumption.
Qed.

(** X13. [rehash] compacts the table: when [luaH_set] ends in [rehash],
    the nodes occupied afterwards are as many as the nodes of the full
    vector whose value is not nil, fewer than half of the new vector; no
    node is left with a key and a nil value; and the pairs of the new
    vector are the pairs of the full vector whose value is not nil. *)
Theorem rehash_compacts t k v tm :
  reachable t -> hashable k -> ~ present (node t) k ->
  insert_key t (mainpos (size t) k) k v = Returned tm ->
  full (node tm) ->
  exists t', luaH_set t k v = Returned t' /\
    used (node t') = realuse (node tm) /\
    2 * used (node t') < size t' /\ length (node t') = size t' /\
    (forall i x, node t' !! i = Some x -> key x <> O_NIL -> val x <> O_NIL) /\
    (forall k' v', k' <> O_NIL ->
       (holds (node t') k' v' <-> holds (node tm) k' v' /\ v' <> O_NIL)).
Proof.
  intros Hr Hk Hnp E Hfull. apply reachable_inv in Hr.
  destruct (insert_key_spec t k v Hr Hk Hnp) as (tm' & E' & Hprem & _).
  assert (tm' = tm) by congruence. subst tm'.
  destruct (rehash_spec_used (set_firstfree tm 0))
    as (t' & Er & Hinv' & Hsz' & Hh & Hu).
  { apply (inv_size _ Hprem). }
  { apply (inv_core _ Hprem). }
  simpl in Hsz', Hh, Hu.
  exists t'. split.
  { rewrite luaH_set_absent by assumption. rewrite E. simpl.
    destruct (check_free_spec tm Hprem) as [(ff & Hnf & _)|[_ ->]];
      [contradiction|assumption]. }
  split; [assumption|]. split.
  { pose proof (redimension_gt (realuse (node tm) * 2)). lia. }
  split; [symmetry; apply (inv_size _ (proj1 Hinv'))|].
  split; [|assumption].
  intros i x Hx Hkx. apply (Hh (key x) (val x) Hkx). exists i, x. auto.
Qed.

(** X14. [listfind (m, n)] on such a table returns for every node [m],
    and returns 1 exactly when [n] is one of the nodes reached from [m]
    through [next]. *)
Theorem listfind_spec t m :
  reachable t -> m < size t ->
  exists l, chain (node t) m l /\
    forall n, listfind (length (node t)) (node t) m n = Ret (bool_decide (n ∈ l)).
Proof.
  intros Hr Hm. apply reachable_inv in Hr as [Hpre _].
  pose proof (inv_core _ Hpre) as Hcore. rewrite (inv_size _ Hpre) in Hm.
  destruct (core_term _ _ Hcore Hm) as (l & Hc).
  exists l. split; [assumption|]. intros n.
  pose proof (chain_length _ _ _ Hc) as Hlen.
  destruct (decide (n ∈ l)) as [Hin|Hout].
  - rewrite bool_decide_eq_true_2 by assumption.
    eapply listfind_chain; eauto.
  - rewrite bool_decide_eq_false_2 by assumption.
    eapply listfind_chain_out; eauto.
Qed.

(** X15. Room after a rehash: when [luaH_set] ends in [rehash], the
    table that it leaves takes as many further calls of [luaH_set] as the
    full vector had values other than nil without another rehash: the size
    stays, and every key written is the key of a node. *)
Theorem rehash_then_room t k v tm ops :
  reachable t -> hashable k -> ~ present (node t) k ->
  insert_key t (mainpos (size t) k) k v = Returned tm ->
  full (node tm) ->
  Forall (fun op => hashable (fst op)) ops ->
  length ops <= realuse (node tm) ->
  exists t' t'', luaH_set t k v = Returned t' /\
    luaH_sets t' ops = Returned t'' /\
    size t'' = size t' /\ length (node t'') = size t'' /\
    (forall k', k' ∈ map fst ops -> present (node t'') k').
Proof.
  intros Hr Hk Hnp E Hfull Hops Hlen. apply reachable_inv in Hr.
  destruct (insert_key_spec t k v Hr Hk Hnp) as (tm' & E' & Hprem & _).
  assert (tm' = tm) by congruence. subst tm'.
  destruct (rehash_spec_used (set_firstfree tm 0))
    as (t' & Er & Hinv' & Hsz' & _ & Hu).
  { apply (inv_size _ Hprem). }
  { apply (inv_core _ Hprem). }
  simpl in Hsz', Hu.
  pose proof (redimension_gt (realuse (node tm) * 2)) as Hgt.
  pose proof (inv_size _ (proj1 Hinv')) as Hl'.
  destruct (luaH_sets_keeps ops t' Hinv' Hops)
    as (t'' & E'' & Hinv'' & Hsz'' & _ & _ & _ & _ & Hp); [lia|].
  exists t', t''. split.
  { rewrite luaH_set_absent by assumption. rewrite E. simpl.
    destruct (check_free_spec tm Hprem) as [(ff & Hnf & _)|[_ ->]];
      [contradiction|assumption]. }
  split; [assumption|]. split; [assumption|].
  split; [symmetry; apply (inv_size _ (proj1 Hinv''))|assumption].
Qed.

(** X24. Writing the same pair twice: after [luaH_set] has written a
    value other than nil to a key, a second call with the same key and
    value returns the table as it found it, field by field. *)
Theorem luaH_set_idempotent t k v :
  reachable t -> hashable k -> v <> O_NIL ->
  exists t1, luaH_set t k v = Returned t1 /\ luaH_set t1 k v = Returned t1.
Proof.
  intros Hr Hk Hv. apply reachable_inv in Hr.
  destruct (luaH_set_spec t k v Hr Hk) as (t1 & E1 & Hinv1 & Hget1 & _).
  destruct (luaH_get_present t1 k v (proj1 Hinv1) Hk Hget1 Hv)
    as (n & x & Hx & Ek & Ev).
  exists t1. split; [assumption|].
  rewrite (luaH_set_found t1 k v n x Hinv1 Hk Hx Ek). f_equal.
  assert (Ex : mkNode (key x) v (next x) = x) by (destruct x; simpl in *; congruence).
  rewrite Ex, list_insert_id by assumption. destruct t1; reflexivity.
Qed.

End LTable.

(** * An instance, for the examples

    Numbers with integral values ([real] is [Z], the conversion to [long]
    is the identity), strings whose hash is their address, objects equal
    when they are the same object, and the sizes of lobject.c up to 3203
    (beyond them the instance doubles). *)

Definition dimensions : list nat :=
  [5; 11; 23; 47; 97; 197; 397; 797; 1597; 3203].

Definition redimension (n : nat) : nat :=
  default (2 * n + 1) (head (filter (fun d => n < d) dimensions)).

Definition equalObj (a b : @TObject Z) : bool :=
  match a, b with
  | O_NIL, O_NIL => true
  | O_NUMBER x, O_NUMBER y => Z.eqb x y
  | O_STRING x, O_STRING y => Z.eqb x y
  | O_USERDATA x, O_USERDATA y => Z.eqb x y
  | O_ARRAY x, O_ARRAY y => Z.eqb x y
  | O_PROTO x, O_PROTO y => Z.eqb x y
  | O_CPROTO x, O_CPROTO y => Z.eqb x y
  | O_CLOSURE x, O_CLOSURE y => Z.eqb x y
  | O_MARK x, O_MARK y => Z.eqb x y
  | _, _ => false
  end.

Definition zid (z : Z) : Z := z.

Local Abbreviation lua_new := (@luaH_new Z redimension).
Local Abbreviation lua_get := (luaH_get zid zid equalObj).
Local Abbreviation lua_set := (luaH_set zid zid equalObj redimension).
Local Abbreviation lua_sets := (luaH_sets zid zid equalObj redimension).
Local Abbreviation lua_reachable := (reachable zid zid equalObj redimension).
Local Abbreviation lua_hashable := (hashable zid zid).
Local Abbreviation lua_mainpos := (mainpos zid zid).
Local Abbreviation lua_insert_key := (insert_key zid zid).
Local Abbreviation lua_check_free := (check_free zid zid redimension).
Local Abbreviation lua_rehash := (rehash zid zid redimension).
Arguments O_NUMBER {real} n%_Z.
Local Abbreviation N := (@O_NUMBER Z).
Local Abbreviation NIL := (@O_NIL Z).

(** The table after the calls [ops] on a new table of size [n]. *)
Definition table_of (n : nat) (ops : list (TObject * TObject)) : Hash :=
  match lua_sets (lua_new n) ops with
  | Returned t => t
  | _ => lua_new n
  end.

(** A table of five nodes in which 9 collides with 4 and sits in node 3. *)
Definition table_collision : Hash :=
  Eval vm_compute in table_of 0 [(N 4, N 40); (N 9, N 90)].

(** A table of five nodes with one free node, node 0. *)
Definition table_four : Hash :=
  Eval vm_compute in
    table_of 0 [(N 1, N 10); (N 2, N 20); (N 3, N 30); (N 4, N 40)].

(** A table of eleven nodes with one free node, node 0, and one value
    that is not nil. *)
Definition table_deleted : Hash :=
  Eval vm_compute in
    table_of 5 [(N 1, N 10); (N 2, NIL); (N 3, NIL); (N 4, NIL); (N 5, NIL);
                (N 6, NIL); (N 7, NIL); (N 8, NIL); (N 9, NIL); (N 10, NIL)].

Lemma equalObj_ok : forall a b, equalObj a b = true <-> a = b.
Proof.
  intros a b. destruct a, b; simpl; split; intros H;
    try discriminate H; try reflexivity;
    try (apply Z.eqb_eq in H; congruence);
    injection H as ->; apply Z.eqb_refl.
Qed.

Lemma redimension_ok : forall n, n < redimension n.
Proof.
  intros n. unfold redimension.
  destruct (head (filter (fun d => n < d) dimensions)) as [d|] eqn:E; simpl; [|lia].
  apply head_Some_elem_of in E. apply list_elem_of_filter in E as [H _]. exact H.
Qed.

Lemma lua_reachable_of n ops t :
  Forall (fun op => lua_hashable (fst op)) ops ->
  lua_sets (lua_new n) ops = Returned t -> lua_reachable t.
Proof. intros H E. exists n, ops. auto. Qed.

Lemma number_hashable z : lua_hashable (N z).
Proof. discriminate. Qed.

Lemma reachable_collision : lua_reachable table_collision.
Proof.
  apply (lua_reachable_of 0 [(N 4, N 40); (N 9, N 90)]);
    [repeat constructor; apply number_hashable|reflexivity].
Qed.

Lemma reachable_four : lua_reachable table_four.
Proof.
  apply (lua_reachable_of 0 [(N 1, N 10); (N 2, N 20); (N 3, N 30); (N 4, N 40)]);
    [repeat constructor; apply number_hashable|reflexivity].
Qed.

Lemma reachable_deleted : lua_reachable table_deleted.
Proof.
  apply (lua_reachable_of 5
    [(N 1, N 10); (N 2, NIL); (N 3, NIL); (N 4, NIL); (N 5, NIL);
     (N 6, NIL); (N 7, NIL); (N 8, NIL); (N 9, NIL); (N 10, NIL)]);
    [repeat constructor; apply number_hashable|reflexivity].
Qed.

Lemma new_absent n k : k <> NIL -> ~ present (node (lua_new n)) k.
Proof.
  intros Hk (i & x & Hx & E). unfold luaH_new, setnodevector, hashnodecreate in Hx.
  simpl in Hx. apply lookup_replicate in Hx as [-> _]. simpl in E. congruence.
Qed.

Lemma reachable_new n : lua_reachable (lua_new n).
Proof. apply (lua_reachable_of n []); [constructor|reflexivity]. Qed.

(** No node of the vector [nd] satisfies [P], by inspection of each. *)
Ltac each_node H :=
  repeat match type of H with
         | (_ :: _) !! ?i = Some _ =>
             destruct i as [|i]; simpl in H; [injection H as <-|]
         | [] !! _ = Some _ => discriminate H
         end.

(** C1, at the table in which 9 sits out of its main position. *)
Lemma main_position_invariant_reachable_witness :
  lua_reachable table_collision /\
  main_position_invariant zid zid table_collision.
Proof.
  split; [exact reachable_collision|].
  apply (main_position_invariant_reachable zid zid equalObj redimension
           equalObj_ok redimension_ok).
  exact reachable_collision.
Defined.

(** C2, at a new table. *)
Lemma set_get_roundtrip_witness :
  lua_reachable (lua_new 0) /\ lua_hashable (N 1) /\ N 10 <> NIL /\
  exists t', lua_set (lua_new 0) (N 1) (N 10) = Returned t' /\
    lua_get t' (N 1) = Ret (N 10).
Proof.
  split; [apply reachable_new|]. split; [apply number_hashable|].
  split; [discriminate|].
  apply (set_get_roundtrip zid zid equalObj redimension equalObj_ok redimension_ok);
    [apply reachable_new|apply number_hashable|discriminate].
Defined.

(** Eleven keys into a new table of five nodes: the fifth call and the
    eleventh end in [rehash]; 3 is deleted and 7 overwritten on the way. *)
Definition eleven_keys : list (TObject * TObject) :=
  [(N 1, N 10); (N 2, N 20); (N 3, N 30); (N 4, N 40); (N 5, N 50);
   (N 3, NIL); (N 6, N 60); (N 7, N 70); (N 8, N 80); (N 9, N 90);
   (N 7, N 77); (N 10, N 100); (N 11, N 110); (N 12, N 120)].

(** Six distinct keys, for a new table made for five. *)
Definition six_keys : list (TObject * TObject) :=
  [(N 1, N 10); (N 13, N 130); (N 25, N 250); (N 4, N 40); (N 5, N 50);
   (N 16, N 160)].

(** C3, at the calls [eleven_keys] on a new table, at six distinct keys
    written to a new table made for five, and at the insertion of 5 into
    the table that has one free node. *)
Lemma saturation_rehash_preserves_witness :
  (lua_reachable (lua_new 0) /\
   Forall (fun op => lua_hashable (fst op)) eleven_keys /\
   exists t', lua_sets (lua_new 0) eleven_keys = Returned t' /\
     forall k, lua_hashable k ->
       lua_get t' k =
       match last_write equalObj eleven_keys k with
       | Some v => Ret v
       | None => lua_get (lua_new 0) k
       end) /\
  (Forall (fun op => lua_hashable (fst op)) six_keys /\
   NoDup (map fst six_keys) /\
   exists t', lua_sets (lua_new 5) six_keys = Returned t' /\
     forall k v, (k, v) ∈ six_keys -> lua_get t' k = Ret v) /\
  (lua_reachable table_four /\ lua_hashable (N 5) /\
   ~ present (node table_four) (N 5) /\
   used (node table_four) + 1 = length (node table_four) /\
   exists tm t',
     lua_insert_key table_four (lua_mainpos (size table_four) (N 5)) (N 5) (N 50)
       = Returned tm /\
     full (node tm) /\
     lua_set table_four (N 5) (N 50) = lua_rehash (set_firstfree tm 0) /\
     lua_rehash (set_firstfree tm 0) = Returned t' /\
     forall k', lua_hashable k' -> lua_get t' k' = lua_get tm k').
Proof.
  destruct (saturation_rehash_preserves zid zid equalObj redimension
              equalObj_ok redimension_ok) as (H1 & H2 & H3).
  assert (Hops : Forall (fun op => lua_hashable (fst op)) eleven_keys)
    by (repeat constructor; apply number_hashable).
  assert (Hsix : Forall (fun op => lua_hashable (fst op)) six_keys)
    by (repeat constructor; apply number_hashable).
  assert (Hnd : NoDup (map fst six_keys)).
  { simpl. repeat (apply NoDup_cons_2;
      [intros H; repeat (apply elem_of_cons in H as [H|H]; [discriminate H|]);
       inversion H|]).
    apply NoDup_nil_2. }
  assert (Hnp : ~ present (node table_four) (N 5)).
  { intros (i & x & Hx & Hk). unfold table_four in Hx. simpl in Hx.
    each_node Hx; discriminate Hk. }
  split; [|split].
  - split; [apply reachable_new|]. split; [exact Hops|].
    apply H1; [apply reachable_new|exact Hops].
  - split; [exact Hsix|]. split; [exact Hnd|]. apply H2; assumption.
  - split; [exact reachable_four|]. split; [apply number_hashable|].
    split; [exact Hnp|]. split; [reflexivity|].
    apply H3; [exact reachable_four|apply number_hashable|exact Hnp|reflexivity].
Defined.

(** The pair of [luaH_set t k v] for a table, a key and a value, as
    [brent_variation_insert] states it. *)
Definition brent_statement (t : Hash) (k v : TObject) (xm : Node) : Prop :=
  let mp := lua_mainpos (size t) k in
  let n := firstfree t in
  (exists f, node t !! n = Some f /\ key f = O_NIL) /\
  free_place (node t) n = Ret (Some n) /\
  (lua_mainpos (size t) (key xm) <> mp ->
     exists prev xprev l,
       node t !! prev = Some xprev /\ next xprev = Some mp /\
       chain (node t) (lua_mainpos (size t) (key xm)) l /\ prev ∈ l /\ mp ∈ l /\
       lua_set t k v =
       lua_check_free (set_node t
         (<[mp := mkNode k v None]>
            (<[n := xm]>
               (<[prev := mkNode (key xprev) (val xprev) (Some n)]> (node t)))))) /\
  (lua_mainpos (size t) (key xm) = mp ->
     lua_set t k v =
     lua_check_free (set_node t
       (<[mp := mkNode (key xm) (val xm) (Some n)]>
          (<[n := mkNode k v (next xm)]> (node t))))).

(** C4, at the table in which 4 is in node 4, its main position, and 9,
    which collided with it, in node 3, with [firstfree] at node 2:
    (a) the key 3, whose main position is node 3: 9 moves to node 2, the
    node of 4 points to node 2, and 3 takes node 3;
    (b) the key 14, whose main position is node 4: 14 goes to node 2, and
    is chained between 4 and 9. *)
Lemma brent_variation_insert_witness :
  lua_reachable table_collision /\
  table_collision =
    mkHash [mkNode NIL NIL None; mkNode NIL NIL None; mkNode NIL NIL None;
            mkNode (N 9) (N 90) None; mkNode (N 4) (N 40) (Some 3)] 5 2 /\
  (lua_hashable (N 3) /\ ~ present (node table_collision) (N 3) /\
   node table_collision !! lua_mainpos (size table_collision) (N 3)
     = Some (mkNode (N 9) (N 90) None) /\
   key (mkNode (N 9) (N 90) None) <> NIL /\
   lua_mainpos (size table_collision) (N 9) <> lua_mainpos (size table_collision) (N 3) /\
   brent_statement table_collision (N 3) (N 30) (mkNode (N 9) (N 90) None) /\
   lua_set table_collision (N 3) (N 30) = Returned
     (mkHash [mkNode NIL NIL None; mkNode NIL NIL None; mkNode (N 9) (N 90) None;
              mkNode (N 3) (N 30) None; mkNode (N 4) (N 40) (Some 2)] 5 1)) /\
  (lua_hashable (N 14) /\ ~ present (node table_collision) (N 14) /\
   node table_collision !! lua_mainpos (size table_collision) (N 14)
     = Some (mkNode (N 4) (N 40) (Some 3)) /\
   key (mkNode (N 4) (N 40) (Some 3)) <> NIL /\
   lua_mainpos (size table_collision) (N 4) = lua_mainpos (size table_collision) (N 14) /\
   brent_statement table_collision (N 14) (N 140) (mkNode (N 4) (N 40) (Some 3)) /\
   lua_set table_collision (N 14) (N 140) = Returned
     (mkHash [mkNode NIL NIL None; mkNode NIL NIL None;
              mkNode (N 14) (N 140) (Some 3);
              mkNode (N 9) (N 90) None; mkNode (N 4) (N 40) (Some 2)] 5 1)).
Proof.
  assert (Hnp : forall z, z <> 9%Z -> z <> 4%Z ->
            ~ present (node table_collision) (N z)).
  { intros z H9 H4 (i & x & Hx & Hk). unfold table_collision in Hx. simpl in Hx.
    each_node Hx; try discriminate Hk; injection Hk as <-; contradiction. }
  split; [exact reachable_collision|]. split; [reflexivity|]. split.
  - split; [apply number_hashable|]. split; [apply Hnp; discriminate|].
    split; [reflexivity|]. split; [discriminate|]. split; [discriminate|].
    split; [|reflexivity].
    apply (brent_variation_insert zid zid equalObj redimension
             equalObj_ok redimension_ok table_collision (N 3) (N 30)
             (mkNode (N 9) (N 90) None));
      [exact reachable_collision|apply number_hashable|apply Hnp; discriminate
      |reflexivity|discriminate].
  - split; [apply number_hashable|]. split; [apply Hnp; discriminate|].
    split; [reflexivity|]. split; [discriminate|]. split; [reflexivity|].
    split; [|reflexivity].
    apply (brent_variation_insert zid zid equalObj redimension
             equalObj_ok redimension_ok table_collision (N 14) (N 140)
             (mkNode (N 4) (N 40) (Some 3)));
      [exact reachable_collision|apply number_hashable|apply Hnp; discriminate
      |reflexivity|discriminate].
Defined.

(** C5 as amended, at the table in which 9 is the second node of the
    chain of its main position. *)
Lemma get_hashable_total_witness :
  lua_reachable table_collision /\ lua_hashable (N 9) /\ ~ lua_hashable NIL /\
  (exists l, chain (node table_collision)
               (lua_mainpos (size table_collision) (N 9)) l /\
     ((exists n x, n ∈ l /\ node table_collision !! n = Some x /\ key x = N 9 /\
         lua_get table_collision (N 9) = Ret (val x)) \/
      ((forall n x, n ∈ l -> node table_collision !! n = Some x -> key x <> N 9) /\
         lua_get table_collision (N 9) = Ret luaO_nilobject))) /\
  lua_get table_collision (N 9) = Ret (N 90) /\
  lua_get table_collision NIL = Raise "unexpected type to index table".
Proof.
  assert (Hnil : ~ lua_hashable NIL) by (intros H; apply H; reflexivity).
  split; [exact reachable_collision|]. split; [apply number_hashable|].
  split; [exact Hnil|]. split; [|split; [reflexivity|]].
  - apply (get_hashable_total zid zid equalObj redimension
             equalObj_ok redimension_ok table_collision (N 9));
      [exact reachable_collision|apply number_hashable].
  - apply (get_hashable_total zid zid equalObj redimension
             equalObj_ok redimension_ok table_collision NIL);
      [exact reachable_collision|exact Hnil].
Defined.

(** C5 as stated fails: [luaH_get] with the key nil calls [lua_error]. *)
Lemma get_nil_key_raises :
  lua_reachable (lua_new 0) /\
  lua_get (lua_new 0) NIL = Raise "unexpected type to index table" /\
  ~ exists v, lua_get (lua_new 0) NIL = Ret v.
Proof.
  split; [apply reachable_new|]. split; [reflexivity|].
  intros (v & H). discriminate H.
Qed.

(** C6, at the key nil and at a mark of the interpreter's stack. *)
Lemma set_invalid_key_raises_witness :
  ~ lua_hashable NIL /\ ~ lua_hashable (O_MARK 0%Z) /\
  lua_set (lua_new 0) NIL (N 1)
    = Raised "unexpected type to index table" (lua_new 0) /\
  lua_set table_four (O_MARK 0%Z) (N 1)
    = Raised "unexpected type to index table" table_four.
Proof.
  assert (H1 : ~ lua_hashable NIL) by (intros H; apply H; reflexivity).
  assert (H2 : ~ lua_hashable (O_MARK 0%Z)) by (intros H; apply H; reflexivity).
  split; [exact H1|]. split; [exact H2|]. split.
  - apply (set_invalid_key_raises zid zid equalObj redimension). exact H1.
  - apply (set_invalid_key_raises zid zid equalObj redimension). exact H2.
Defined.

(** The sizes of the vector along [eleven_keys]: two calls rehash. *)
Example eleven_keys_sizes :
  map (fun n => size (table_of 0 (firstn n eleven_keys))) (seq 0 15)
  = [5; 5; 5; 5; 5; 11; 11; 11; 11; 11; 11; 11; 11; 23; 23].
Proof. reflexivity. Qed.

(** The full vector of eleven nodes that [rehash] finds when 11 is written
    to [table_deleted]: two values are not nil. *)
Definition table_deleted_full : Hash :=
  set_node table_deleted
    (<[0 := mkNode (N 11) (N 110) None]> (node table_deleted)).

(** C7, at a table of eleven nodes that shrinks to five. *)
Lemma rehash_sizing_witness :
  lua_reachable table_deleted /\ lua_hashable (N 11) /\
  ~ present (node table_deleted) (N 11) /\
  lua_insert_key table_deleted (lua_mainpos (size table_deleted) (N 11))
    (N 11) (N 110) = Returned table_deleted_full /\
  full (node table_deleted_full) /\
  realuse (node table_deleted_full) = 2 /\ size table_deleted = 11 /\
  redimension (2 * 2) = 5 /\
  exists t',
    lua_set table_deleted (N 11) (N 110) = Returned t' /\
    lua_rehash (set_firstfree table_deleted_full 0) = Returned t' /\
    size t' = redimension (2 * realuse (node table_deleted_full)) /\
    length (node t') = size t' /\
    (redimension (2 * realuse (node table_deleted_full)) < size table_deleted ->
     size t' < size table_deleted).
Proof.
  assert (Hnp : ~ present (node table_deleted) (N 11)).
  { intros (i & x & Hx & Hk). unfold table_deleted in Hx. simpl in Hx.
    each_node Hx; discriminate Hk. }
  assert (Hfull : full (node table_deleted_full)).
  { intros i x Hx. unfold table_deleted_full, table_deleted in Hx. simpl in Hx.
    each_node Hx; discriminate. }
  split; [exact reachable_deleted|]. split; [apply number_hashable|].
  split; [exact Hnp|]. split; [reflexivity|]. split; [exact Hfull|].
  split; [reflexivity|]. split; [reflexivity|]. split; [reflexivity|].
  apply (rehash_sizing zid zid equalObj redimension equalObj_ok redimension_ok);
    [exact reachable_deleted|apply number_hashable|exact Hnp|reflexivity
    |exact Hfull].
Defined.

(** What [overwrite_in_place] states of a table, a key and two values. *)
Definition overwrite_statement (t : Hash) (k v1 v2 : TObject) : Prop :=
  exists t1 t2,
    lua_set t k v1 = Returned t1 /\ lua_set t1 k v2 = Returned t2 /\
    lua_get t2 k = Ret v2 /\
    (present (node t1) k <->
     v1 <> NIL \/ present (node t) k \/
     used (node t) + 1 < length (node t)) /\
    (forall n x, node t1 !! n = Some x -> key x = k ->
       val x = v1 /\
       node t2 = <[n := mkNode (key x) v2 (next x)]> (node t1) /\
       firstfree t2 = firstfree t1 /\ size t2 = size t1 /\
       used (node t2) = used (node t1)).

(** C8 as amended, at a new table: with a first value that is not nil,
    and with nil as the first value, which stays in a node of the five. *)
Lemma overwrite_in_place_witness :
  (lua_reachable (lua_new 0) /\ lua_hashable (N 1) /\
   overwrite_statement (lua_new 0) (N 1) (N 10) (N 20)) /\
  (lua_reachable (lua_new 0) /\ lua_hashable (N 1) /\
   overwrite_statement (lua_new 0) (N 1) NIL (N 4)).
Proof.
  split.
  - split; [apply reachable_new|]. split; [apply number_hashable|].
    apply (overwrite_in_place zid zid equalObj redimension
             equalObj_ok redimension_ok);
      [apply reachable_new|apply number_hashable].
  - split; [apply reachable_new|]. split; [apply number_hashable|].
    apply (overwrite_in_place zid zid equalObj redimension
             equalObj_ok redimension_ok);
      [apply reachable_new|apply number_hashable].
Defined.

(** The table [table_four] after [luaH_set] of 5 with nil: the call ends
    in [rehash], which drops the pair. *)
Definition table_four_nil : Hash :=
  Eval vm_compute in
    table_of 0 [(N 1, N 10); (N 2, N 20); (N 3, N 30); (N 4, N 40); (N 5, NIL)].

Definition table_four_seven : Hash :=
  Eval vm_compute in
    table_of 0 [(N 1, N 10); (N 2, N 20); (N 3, N 30); (N 4, N 40); (N 5, NIL);
                (N 5, N 7)].

(** C8 as stated fails when the first value is nil and the first call
    ends in [rehash]: no node holds the key when the second call starts,
    and the second call takes a free node. *)
Lemma overwrite_after_nil_not_in_place :
  lua_reachable table_four /\ lua_hashable (N 5) /\
  lua_set table_four (N 5) NIL = Returned table_four_nil /\
  lua_set table_four_nil (N 5) (N 7) = Returned table_four_seven /\
  size table_four = 5 /\ size table_four_nil = 11 /\
  ~ present (node table_four_nil) (N 5) /\
  used (node table_four_nil) = 4 /\ used (node table_four_seven) = 5 /\
  node table_four_nil !! 5 = Some (mkNode NIL NIL None) /\
  node table_four_seven !! 5 = Some (mkNode (N 5) (N 7) None).
Proof.
  split; [exact reachable_four|]. split; [apply number_hashable|].
  split; [reflexivity|]. split; [reflexivity|].
  split; [reflexivity|]. split; [reflexivity|]. split.
  { intros (i & x & Hx & Hk). unfold table_four_nil in Hx. simpl in Hx.
    each_node Hx; discriminate Hk. }
  repeat split; reflexivity.
Qed.

(** What [delete_then_absent] states of a table, a key and a value. *)
Definition delete_statement (t : Hash) (k v : TObject) : Prop :=
  exists t1 t2,
    lua_set t k v = Returned t1 /\ lua_set t1 k NIL = Returned t2 /\
    lua_get t2 k = Ret NIL /\
    (present (node t1) k <->
     v <> NIL \/ present (node t) k \/
     used (node t) + 1 < length (node t)) /\
    (forall n x, node t1 !! n = Some x -> key x = k ->
       node t2 = <[n := mkNode k NIL (next x)]> (node t1) /\
       firstfree t2 = firstfree t1 /\ size t2 = size t1).

(** C9 as amended, at a new table, with a first value that is not nil
    and with nil as the first value. *)
Lemma delete_then_absent_witness :
  (lua_reachable (lua_new 0) /\ lua_hashable (N 1) /\
   delete_statement (lua_new 0) (N 1) (N 10)) /\
  (lua_reachable (lua_new 0) /\ lua_hashable (N 1) /\
   delete_statement (lua_new 0) (N 1) NIL).
Proof.
  split.
  - split; [apply reachable_new|]. split; [apply number_hashable|].
    apply (delete_then_absent zid zid equalObj redimension
             equalObj_ok redimension_ok);
      [apply reachable_new|apply number_hashable].
  - split; [apply reachable_new|]. split; [apply number_hashable|].
    apply (delete_then_absent zid zid equalObj redimension
             equalObj_ok redimension_ok);
      [apply reachable_new|apply number_hashable].
Defined.

(** A table of five nodes with one free node, node 0, in which 12 has
    the main position 2. *)
Definition table_twelve : Hash :=
  Eval vm_compute in
    table_of 0 [(N 1, N 10); (N 12, N 120); (N 3, N 30); (N 4, N 40)].

(** The same after [luaH_set] of 10 with nil: the call ends in [rehash],
    which drops the pair; in the eleven nodes 12 collides with 1 and sits
    in node 10. *)
Definition table_twelve_nil : Hash :=
  Eval vm_compute in
    table_of 0 [(N 1, N 10); (N 12, N 120); (N 3, N 30); (N 4, N 40);
                (N 10, NIL)].

Definition table_twelve_nil_nil : Hash :=
  Eval vm_compute in
    table_of 0 [(N 1, N 10); (N 12, N 120); (N 3, N 30); (N 4, N 40);
                (N 10, NIL); (N 10, NIL)].

Lemma reachable_twelve : lua_reachable table_twelve.
Proof.
  apply (lua_reachable_of 0
    [(N 1, N 10); (N 12, N 120); (N 3, N 30); (N 4, N 40)]);
    [repeat constructor; apply number_hashable|reflexivity].
Qed.

(** C9 as stated fails when the first value is nil and the first call
    ends in [rehash]: no node holds the key 10 when the second call
    starts, and the second call inserts it: it moves the key 12 from
    node 10 to node 9, makes node 1 point to node 9, and lowers
    [firstfree]. *)
Lemma delete_after_nil_moves_a_key :
  lua_reachable table_twelve /\ lua_hashable (N 10) /\
  lua_set table_twelve (N 10) NIL = Returned table_twelve_nil /\
  lua_set table_twelve_nil (N 10) NIL = Returned table_twelve_nil_nil /\
  ~ present (node table_twelve_nil) (N 10) /\
  node table_twelve_nil !! 1 = Some (mkNode (N 1) (N 10) (Some 10)) /\
  node table_twelve_nil !! 9 = Some (mkNode NIL NIL None) /\
  node table_twelve_nil !! 10 = Some (mkNode (N 12) (N 120) None) /\
  firstfree table_twelve_nil = 9 /\
  node table_twelve_nil_nil !! 1 = Some (mkNode (N 1) (N 10) (Some 9)) /\
  node table_twelve_nil_nil !! 9 = Some (mkNode (N 12) (N 120) None) /\
  node table_twelve_nil_nil !! 10 = Some (mkNode (N 10) NIL None) /\
  firstfree table_twelve_nil_nil = 8.
Proof.
  split; [exact reachable_twelve|]. split; [apply number_hashable|].
  split; [reflexivity|]. split; [reflexivity|]. split.
  { intros (i & x & Hx & Hk). unfold table_twelve_nil in Hx. simpl in Hx.
    each_node Hx; discriminate Hk. }
  repeat split; reflexivity.
Qed.

(** What [delete_absent_inserts] states of a table and a key. *)
Definition delete_absent_statement (t : Hash) (k : TObject) : Prop :=
  lua_get t k = Ret NIL /\
  exists tm t',
    lua_insert_key t (lua_mainpos (size t) k) k NIL = Returned tm /\
    holds (node tm) k NIL /\
    used (node tm) = S (used (node t)) /\
    length (node tm) = length (node t) /\
    lua_set t k NIL = lua_check_free tm /\
    lua_set t k NIL = Returned t' /\
    lua_get t' k = Ret NIL /\
    (used (node t) + 1 = length (node t) ->
       lua_set t k NIL = lua_rehash (set_firstfree tm 0)) /\
    (used (node t) + 1 < length (node t) ->
       node t' = node tm /\ firstfree t' <= firstfree t /\
       (firstfree t' < firstfree t <->
        exists x, node tm !! firstfree t = Some x /\ key x <> O_NIL)).

(** C10 as amended: at a new table of five nodes and the key 1, which
    goes into node 1 while [firstfree] stays at node 4; at the table in
    which 9 collided with 4 and the key 14, which goes into the node of
    [firstfree]; and at the table with one free node and the key 5, where
    the call ends in [rehash]. *)
Lemma delete_absent_inserts_witness :
  (lua_reachable (lua_new 0) /\ lua_hashable (N 1) /\
   ~ present (node (lua_new 0)) (N 1) /\
   used (node (lua_new 0)) + 1 < length (node (lua_new 0)) /\
   delete_absent_statement (lua_new 0) (N 1)) /\
  (lua_reachable table_collision /\ lua_hashable (N 14) /\
   ~ present (node table_collision) (N 14) /\
   used (node table_collision) + 1 < length (node table_collision) /\
   delete_absent_statement table_collision (N 14)) /\
  (lua_reachable table_four /\ lua_hashable (N 5) /\
   ~ present (node table_four) (N 5) /\
   used (node table_four) + 1 = length (node table_four) /\
   delete_absent_statement table_four (N 5)).
Proof.
  assert (Hnp1 : ~ present (node (lua_new 0)) (N 1))
    by (apply new_absent; discriminate).
  assert (Hnp2 : ~ present (node table_collision) (N 14)).
  { intros (i & x & Hx & Hk). unfold table_collision in Hx. simpl in Hx.
    each_node Hx; discriminate Hk. }
  assert (Hnp3 : ~ present (node table_four) (N 5)).
  { intros (i & x & Hx & Hk). unfold table_four in Hx. simpl in Hx.
    each_node Hx; discriminate Hk. }
  split; [|split].
  - split; [apply reachable_new|]. split; [apply number_hashable|].
    split; [exact Hnp1|]. split; [vm_compute; lia|].
    apply (delete_absent_inserts zid zid equalObj redimension
             equalObj_ok redimension_ok);
      [apply reachable_new|apply number_hashable|exact Hnp1].
  - split; [exact reachable_collision|]. split; [apply number_hashable|].
    split; [exact Hnp2|]. split; [vm_compute; lia|].
    apply (delete_absent_inserts zid zid equalObj redimension
             equalObj_ok redimension_ok);
      [exact reachable_collision|apply number_hashable|exact Hnp2].
  - split; [exact reachable_four|]. split; [apply number_hashable|].
    split; [exact Hnp3|]. split; [reflexivity|].
    apply (delete_absent_inserts zid zid equalObj redimension
             equalObj_ok redimension_ok);
      [exact reachable_four|apply number_hashable|exact Hnp3].
Defined.

(** C10 as stated fails on the free-cursor: the key 1 goes into node 1 of
    a new table of five nodes, and [firstfree] stays at node 4. *)
Lemma delete_absent_keeps_firstfree :
  lua_reachable (lua_new 0) /\ lua_hashable (N 1) /\
  ~ present (node (lua_new 0)) (N 1) /\
  firstfree (lua_new 0) = 4 /\
  exists t', lua_set (lua_new 0) (N 1) NIL = Returned t' /\
    node t' !! 1 = Some (mkNode (N 1) NIL None) /\
    firstfree t' = 4.
Proof.
  split; [apply reachable_new|]. split; [apply number_hashable|].
  split; [apply new_absent; discriminate|].
  split; [reflexivity|]. eexists. split; [reflexivity|].
  split; reflexivity.
Qed.

(** ** Examples for the further properties *)

Local Abbreviation lua_pos := (luaH_pos zid zid equalObj).
Local Abbreviation lua_setint := (luaH_setint zid zid equalObj redimension zid).
Local Abbreviation lua_getint := (luaH_getint zid zid equalObj zid).
Local Abbreviation lua_check_invariant := (check_invariant zid zid).

Lemma deleted_absent_11 : ~ present (node table_deleted) (N 11).
Proof.
  intros (i & x & Hx & Hk). unfold table_deleted in Hx. simpl in Hx.
  each_node Hx; discriminate Hk.
Qed.

Lemma deleted_full_full : full (node table_deleted_full).
Proof.
  intros i x Hx. unfold table_deleted_full, table_deleted in Hx. simpl in Hx.
  each_node Hx; discriminate.
Qed.

Lemma collision_present_9 : present (node table_collision) (N 9).
Proof. exists 3, (mkNode (N 9) (N 90) None). split; reflexivity. Qed.

(** X1, at the table that [luaH_new (0)] makes: five nodes. *)
Lemma luaH_new_empty_witness :
  size (lua_new 0) = redimension (0 + 1) /\
  length (node (lua_new 0)) = size (lua_new 0) /\
  0 + 1 < size (lua_new 0) /\ firstfree (lua_new 0) = size (lua_new 0) - 1 /\
  (forall i, i < size (lua_new 0) ->
     node (lua_new 0) !! i = Some (mkNode NIL NIL None)) /\
  (forall k, lua_hashable k ->
     lua_get (lua_new 0) k = Ret NIL /\ lua_pos (lua_new 0) k = Ret (-1)%Z) /\
  lua_check_invariant (lua_new 0) false = Ret 1.
Proof.
  exact (luaH_new_empty zid zid equalObj redimension equalObj_ok redimension_ok 0).
Defined.

(** X2, at a table created for three pairs and three calls, one of them
    with a nil value. *)
Lemma luaH_new_capacity_witness :
  Forall (fun op => lua_hashable (fst op)) [(N 1, N 10); (N 2, NIL); (N 3, N 30)] /\
  length [(N 1, N 10); (N 2, NIL); (N 3, N 30)] <= 3 /\
  exists t', lua_sets (lua_new 3) [(N 1, N 10); (N 2, NIL); (N 3, N 30)]
             = Returned t' /\
    size t' = size (lua_new 3) /\ length (node t') = size t' /\
    (forall k, k ∈ map fst [(N 1, N 10); (N 2, NIL); (N 3, N 30)] ->
       present (node t') k) /\
    used (node t') <= length [(N 1, N 10); (N 2, NIL); (N 3, N 30)].
Proof.
  assert (H : Forall (fun op => lua_hashable (fst op))
                [(N 1, N 10); (N 2, NIL); (N 3, N 30)])
    by (repeat constructor; apply number_hashable).
  split; [exact H|]. split; [simpl; lia|].
  apply (luaH_new_capacity zid zid equalObj redimension equalObj_ok redimension_ok);
    [exact H|simpl; lia].
Defined.

(** X3, at the table in which 9 collided with 4 and a new key. *)
Lemma luaH_set_without_rehash_witness :
  lua_reachable table_collision /\ lua_hashable (N 7) /\
  used (node table_collision) + 1 < length (node table_collision) /\
  exists t', lua_set table_collision (N 7) (N 70) = Returned t' /\
    size t' = size table_collision /\
    length (node t') = length (node table_collision) /\
    firstfree t' <= firstfree table_collision /\
    used (node table_collision) <= used (node t')
      <= S (used (node table_collision)) /\
    (present (node table_collision) (N 7) ->
       used (node t') = used (node table_collision)) /\
    (forall k', k' <> NIL -> present (node table_collision) k' ->
       present (node t') k').
Proof.
  assert (H : used (node table_collision) + 1 < length (node table_collision))
    by (vm_compute; lia).
  split; [exact reachable_collision|]. split; [apply number_hashable|].
  split; [exact H|].
  apply (luaH_set_without_rehash zid zid equalObj redimension
           equalObj_ok redimension_ok);
    [exact reachable_collision|apply number_hashable|right; exact H].
Defined.

(** X4, at the same table. *)
Lemma reachable_keys_unique_witness :
  lua_reachable table_collision /\
  (forall i j x y, node table_collision !! i = Some x ->
     node table_collision !! j = Some y ->
     key x <> NIL -> key x = key y -> i = j) /\
  (forall i x, node table_collision !! i = Some x -> key x = NIL ->
     val x = NIL /\ next x = None) /\
  (forall i x, node table_collision !! i = Some x -> key x <> NIL ->
     lua_hashable (key x)).
Proof.
  split; [exact reachable_collision|].
  apply (reachable_keys_unique zid zid equalObj redimension
           equalObj_ok redimension_ok).
  exact reachable_collision.
Defined.

(** X5, at the same table: node 4, which holds 4, points to node 3,
    which holds 9. *)
Lemma reachable_next_wellformed_witness :
  lua_reachable table_collision /\
  node table_collision !! 4 = Some (mkNode (N 4) (N 40) (Some 3)) /\
  3 <> 4 /\ firstfree table_collision < 3 < size table_collision /\
  N 4 <> NIL /\
  (exists y, node table_collision !! 3 = Some y /\ key y <> NIL /\
     lua_mainpos (size table_collision) (key y)
       = lua_mainpos (size table_collision) (N 4) /\
     lua_mainpos (size table_collision) (key y) <> 3) /\
  (forall i' x', node table_collision !! i' = Some x' -> next x' = Some 3 ->
     i' = 4).
Proof.
  split; [exact reachable_collision|]. split; [reflexivity|].
  apply (reachable_next_wellformed zid zid equalObj redimension
           equalObj_ok redimension_ok table_collision 4
           (mkNode (N 4) (N 40) (Some 3)) 3);
    [exact reachable_collision|reflexivity|reflexivity].
Defined.

(** X6, at the same table and node 3. *)
Lemma luaH_get_finds_every_node_witness :
  lua_reachable table_collision /\
  node table_collision !! 3 = Some (mkNode (N 9) (N 90) None) /\
  N 9 <> NIL /\
  lua_get table_collision (N 9) = Ret (N 90) /\
  lua_pos table_collision (N 9) = Ret 3%Z /\
  exists l, chain (node table_collision)
              (lua_mainpos (size table_collision) (N 9)) l /\ 3 ∈ l.
Proof.
  split; [exact reachable_collision|]. split; [reflexivity|].
  split; [discriminate|].
  apply (luaH_get_finds_every_node zid zid equalObj redimension
           equalObj_ok redimension_ok table_collision 3
           (mkNode (N 9) (N 90) None));
    [exact reachable_collision|reflexivity|discriminate].
Defined.

(** X7, at the same table: the key 9, which is in node 3, and the key
    nil. *)
Lemma luaH_pos_spec_witness :
  lua_reachable table_collision /\ lua_hashable (N 9) /\ ~ lua_hashable NIL /\
  (exists p, lua_pos table_collision (N 9) = Ret p /\
     (-1 <= p < Z.of_nat (size table_collision))%Z /\
     (p = (-1)%Z <-> ~ present (node table_collision) (N 9)) /\
     (p = (-1)%Z -> lua_get table_collision (N 9) = Ret NIL) /\
     (forall n, p = Z.of_nat n ->
        exists x, node table_collision !! n = Some x /\ key x = N 9 /\
          lua_get table_collision (N 9) = Ret (val x))) /\
  lua_pos table_collision NIL = Raise "unexpected type to index table".
Proof.
  assert (Hnil : ~ lua_hashable NIL) by (intros H; apply H; reflexivity).
  split; [exact reachable_collision|]. split; [apply number_hashable|].
  split; [exact Hnil|].
  destruct (luaH_pos_spec zid zid equalObj redimension equalObj_ok redimension_ok
              table_collision (N 9) reachable_collision) as [H1 _].
  destruct (luaH_pos_spec zid zid equalObj redimension equalObj_ok redimension_ok
              table_collision NIL reachable_collision) as [_ H2].
  split; [apply H1, number_hashable|apply H2, Hnil].
Defined.

(** X8, at the same table: nil is written to the key 9. *)
Lemma luaH_pos_overwrite_stable_witness :
  lua_reachable table_collision /\ lua_hashable (N 9) /\
  present (node table_collision) (N 9) /\
  exists t' n, lua_set table_collision (N 9) NIL = Returned t' /\
    lua_pos t' (N 9) = Ret (Z.of_nat n) /\ lua_get t' (N 9) = Ret NIL /\
    forall k', lua_hashable k' -> lua_pos t' k' = lua_pos table_collision k'.
Proof.
  split; [exact reachable_collision|]. split; [apply number_hashable|].
  split; [exact collision_present_9|].
  apply (luaH_pos_overwrite_stable zid zid equalObj redimension
           equalObj_ok redimension_ok);
    [exact reachable_collision|apply number_hashable|exact collision_present_9].
Defined.

(** X9, at the same table and position 3. *)
Lemma luaH_pos_inj_witness :
  lua_pos table_collision (N 9) = Ret 3%Z /\ (0 <= 3)%Z /\
  forall k, lua_pos table_collision k = Ret 3%Z -> N 9 = k.
Proof.
  split; [reflexivity|]. split; [lia|]. intros k Hk.
  apply (luaH_pos_inj zid zid equalObj equalObj_ok table_collision (N 9) k 3%Z);
    [reflexivity|exact Hk|lia].
Defined.

(** X10, at a new table and the integer 7. *)
Lemma luaH_setint_getint_witness :
  lua_reachable (lua_new 0) /\
  exists t', lua_setint (lua_new 0) 7 (N 70) = Returned t' /\
    lua_reachable t' /\ lua_getint t' 7 = Ret (N 70) /\
    forall j, zid j <> zid 7%Z -> lua_getint t' j = lua_getint (lua_new 0) j.
Proof.
  split; [apply reachable_new|].
  apply (luaH_setint_getint zid zid equalObj redimension zid
           equalObj_ok redimension_ok).
  apply reachable_new.
Defined.

(** X11, at the table with one free node. *)
Lemma check_invariant_holds_witness :
  lua_reachable table_four /\ lua_check_invariant table_four false = Ret 1.
Proof.
  split; [exact reachable_four|].
  apply (check_invariant_holds zid zid equalObj redimension
           equalObj_ok redimension_ok).
  exact reachable_four.
Defined.

(** X12, at the table of eleven nodes that the key 11 fills. *)
Lemma rehash_assertions_hold_witness :
  lua_reachable table_deleted /\ lua_hashable (N 11) /\
  ~ present (node table_deleted) (N 11) /\
  lua_insert_key table_deleted (lua_mainpos (size table_deleted) (N 11))
    (N 11) (N 110) = Returned table_deleted_full /\
  full (node table_deleted_full) /\
  lua_check_invariant (set_firstfree table_deleted_full 0) true = Ret 1 /\
  exists t', lua_set table_deleted (N 11) (N 110) = Returned t' /\
    lua_rehash (set_firstfree table_deleted_full 0) = Returned t' /\
    lua_check_invariant t' false = Ret 1.
Proof.
  split; [exact reachable_deleted|]. split; [apply number_hashable|].
  split; [exact deleted_absent_11|]. split; [reflexivity|].
  split; [exact deleted_full_full|].
  apply (rehash_assertions_hold zid zid equalObj redimension
           equalObj_ok redimension_ok
           table_deleted (N 11) (N 110) table_deleted_full);
    [exact reachable_deleted|apply number_hashable|exact deleted_absent_11
    |reflexivity|exact deleted_full_full].
Defined.

(** X13, at the same call: two of the eleven values are not nil. *)
Lemma rehash_compacts_witness :
  lua_reachable table_deleted /\ lua_hashable (N 11) /\
  ~ present (node table_deleted) (N 11) /\
  lua_insert_key table_deleted (lua_mainpos (size table_deleted) (N 11))
    (N 11) (N 110) = Returned table_deleted_full /\
  full (node table_deleted_full) /\
  realuse (node table_deleted_full) = 2 /\
  exists t', lua_set table_deleted (N 11) (N 110) = Returned t' /\
    used (node t') = realuse (node table_deleted_full) /\
    2 * used (node t') < size t' /\ length (node t') = size t' /\
    (forall i x, node t' !! i = Some x -> key x <> NIL -> val x <> NIL) /\
    (forall k' v', k' <> NIL ->
       (holds (node t') k' v' <->
        holds (node table_deleted_full) k' v' /\ v' <> NIL)).
Proof.
  split; [exact reachable_deleted|]. split; [apply number_hashable|].
  split; [exact deleted_absent_11|]. split; [reflexivity|].
  split; [exact deleted_full_full|]. split; [reflexivity|].
  apply (rehash_compacts zid zid equalObj redimension
           equalObj_ok redimension_ok
           table_deleted (N 11) (N 110) table_deleted_full);
    [exact reachable_deleted|apply number_hashable|exact deleted_absent_11
    |reflexivity|exact deleted_full_full].
Defined.

(** X14, at the table in which 9 collided with 4: the chain of node 4. *)
Lemma listfind_spec_witness :
  lua_reachable table_collision /\ 4 < size table_collision /\
  exists l, chain (node table_collision) 4 l /\
    forall n, listfind (length (node table_collision)) (node table_collision) 4 n
              = Ret (bool_decide (n ∈ l)).
Proof.
  split; [exact reachable_collision|]. split; [simpl; lia|].
  apply (listfind_spec zid zid equalObj redimension equalObj_ok redimension_ok);
    [exact reachable_collision|simpl; lia].
Defined.

(** X15, at the same call as X12 and two further keys. *)
Lemma rehash_then_room_witness :
  lua_reachable table_deleted /\ lua_hashable (N 11) /\
  ~ present (node table_deleted) (N 11) /\
  lua_insert_key table_deleted (lua_mainpos (size table_deleted) (N 11))
    (N 11) (N 110) = Returned table_deleted_full /\
  full (node table_deleted_full) /\
  Forall (fun op => lua_hashable (fst op)) [(N 20, N 200); (N 21, N 210)] /\
  length [(N 20, N 200); (N 21, N 210)] <= realuse (node table_deleted_full) /\
  exists t' t'', lua_set table_deleted (N 11) (N 110) = Returned t' /\
    lua_sets t' [(N 20, N 200); (N 21, N 210)] = Returned t'' /\
    size t'' = size t' /\ length (node t'') = size t'' /\
    (forall k', k' ∈ map fst [(N 20, N 200); (N 21, N 210)] ->
       present (node t'') k').
Proof.
  assert (H : Forall (fun op => lua_hashable (fst op))
                [(N 20, N 200); (N 21, N 210)])
    by (repeat constructor; apply number_hashable).
  assert (Hl : length [(N 20, N 200); (N 21, N 210)]
               <= realuse (node table_deleted_full)) by (vm_compute; lia).
  split; [exact reachable_deleted|]. split; [apply number_hashable|].
  split; [exact deleted_absent_11|]. split; [reflexivity|].
  split; [exact deleted_full_full|]. split; [exact H|]. split; [exact Hl|].
  apply (rehash_then_room zid zid equalObj redimension
           equalObj_ok redimension_ok
           table_deleted (N 11) (N 110) table_deleted_full
           [(N 20, N 200); (N 21, N 210)]);
    [exact reachable_deleted|apply number_hashable|exact deleted_absent_11
    |reflexivity|exact deleted_full_full|exact H|exact Hl].
Defined.

(** X24, at a new table. *)
Lemma luaH_set_idempotent_witness :
  lua_reachable (lua_new 0) /\ lua_hashable (N 1) /\ N 10 <> NIL /\
  exists t1, lua_set (lua_new 0) (N 1) (N 10) = Returned t1 /\
    lua_set t1 (N 1) (N 10) = Returned t1.
Proof.
  split; [apply reachable_new|]. split; [apply number_hashable|].
  split; [discriminate|].
  apply (luaH_set_idempotent zid zid equalObj redimension
           equalObj_ok redimension_ok);
    [apply reachable_new|apply number_hashable|discriminate].
Defined.

(** * Bitwise operations (lbitlib.c 1.8)

    A value of type [b_uint] is an integer below [2 ^ NBITS], an [int] is
    an integer of 32 bits in two's complement.  The functions take the
    values that [luaL_checkunsigned] and [luaL_checkint] return for the
    arguments of the call (lauxlib.c is not among the sources) and return
    the value that they push.  The negation of the least [int] and a shift
    of a [b_uint] by [NBITS] have no defined value in C: [Undef]. *)

Local Open Scope Z_scope.

(** number of bits considered when shifting/rotating *)
Definition NBITS : Z := 32.

(** The values of type [b_uint]. *)
Definition b_uint (r : Z) : Prop := 0 <= r < 2 ^ NBITS.

(** The values of type [int]. *)
Definition INT_MIN : Z := - 2 ^ 31.
Definition c_int (i : Z) : Prop := INT_MIN <= i < 2 ^ 31.

(** The conversion of the result of an operation to [b_uint]. *)
Definition to_b_uint (z : Z) : Z := z mod 2 ^ NBITS.

(** [~r] for [r] of type [b_uint]. *)
Definition b_compl (r : Z) : Z := to_b_uint (Z.lnot r).

(** The loops over the arguments [1 .. lua_gettop (L)]. *)
Definition andaux (args : list Z) : Z := fold_left Z.land args (b_compl 0).
Definition b_and (args : list Z) : Z := andaux args.
Definition b_test (args : list Z) : bool := negb (andaux args =? 0).
Definition b_or (args : list Z) : Z := fold_left Z.lor args 0.
Definition b_xor (args : list Z) : Z := fold_left Z.lxor args 0.

(** The functions below take the first argument [r] and, for the shifts
    and rotations, the second argument [i]. *)
Definition b_not (r : Z) : Z := b_compl r.

Definition b_shift (r i : Z) : result Z :=
  if i <? 0 then   (* shift right? *)
    if i =? INT_MIN then Undef   (* i = -i *)
    else
      let i := - i in
      if NBITS <=? i then Ret 0 else Ret (Z.shiftr r i)
  else             (* shift left *)
    if NBITS <=? i then Ret 0 else Ret (to_b_uint (Z.shiftl r i)).

Definition b_lshift (r i : Z) : result Z := b_shift r i.
Definition b_rshift (r i : Z) : result Z :=
  if i =? INT_MIN then Undef else b_shift r (- i).
Definition b_arshift (r i : Z) : result Z :=
  if (i <? 0) || (Z.land r 0x80000000 =? 0) then
    if i =? INT_MIN then Undef else b_shift r (- i)
  else   (* arithmetic shift for 'negative' number *)
    if NBITS <=? i then Ret 0xffffffff
    else Ret (Z.lor (Z.shiftr r i) (b_compl (Z.shiftr (b_compl 0) i))).
Definition b_rot (r i : Z) : result Z :=
  let i := Z.land i (NBITS - 1) in   (* i = i % NBITS *)
  if i =? 0 then Undef   (* r >> NBITS *)
  else Ret (Z.lor (to_b_uint (Z.shiftl r i)) (Z.shiftr r (NBITS - i))).
Definition b_rol (r i : Z) : result Z := b_rot r i.
Definition b_ror (r i : Z) : result Z :=
  if i =? INT_MIN then Undef else b_rot r (- i).

(** The value of [(b_int) r]: the [b_uint] read in two's complement. *)
Definition as_b_int (r : Z) : Z := if r <? 2 ^ 31 then r else r - 2 ^ NBITS.

(** ** Bits of the values *)

Lemma to_b_uint_bits z j :
  Z.testbit (to_b_uint z) j = (j <? NBITS) && Z.testbit z j.
Proof.
  unfold to_b_uint, NBITS. destruct (Z.ltb_spec j 32) as [H|H]; simpl.
  - destruct (Z.neg_nonneg_cases j) as [Hn|Hn].
    + rewrite !Z.testbit_neg_r by assumption. reflexivity.
    + apply Z.mod_pow2_bits_low. lia.
  - apply Z.mod_pow2_bits_high. lia.
Qed.

Lemma to_b_uint_range z : b_uint (to_b_uint z).
Proof. unfold b_uint, to_b_uint. apply Z.mod_pos_bound. reflexivity. Qed.

Lemma b_uint_bits_high r j : b_uint r -> NBITS <= j -> Z.testbit r j = false.
Proof.
  intros Hr Hj. assert (E : r = to_b_uint r).
  { unfold to_b_uint. symmetry. apply Z.mod_small. exact Hr. }
  rewrite E, to_b_uint_bits. destruct (Z.ltb_spec j NBITS); [lia|reflexivity].
Qed.

Lemma b_uint_of_bits r :
  (forall j, NBITS <= j -> Z.testbit r j = false) -> b_uint r.
Proof.
  intros H. assert (E : r = to_b_uint r).
  { apply Z.bits_inj'. intros j Hj. rewrite to_b_uint_bits.
    destruct (Z.ltb_spec j NBITS) as [|Hge]; [reflexivity|]. simpl. auto. }
  rewrite E. apply to_b_uint_range.
Qed.

Lemma b_uint_eq r s :
  b_uint r -> b_uint s ->
  (forall j, 0 <= j < NBITS -> Z.testbit r j = Z.testbit s j) -> r = s.
Proof.
  intros Hr Hs H. apply Z.bits_inj'. intros j Hj.
  destruct (Z.lt_ge_cases j NBITS) as [Hlt|Hge]; [apply H; lia|].
  rewrite !b_uint_bits_high by assumption. reflexivity.
Qed.

Lemma b_compl_bits r j :
  0 <= j -> Z.testbit (b_compl r) j = (j <? NBITS) && negb (Z.testbit r j).
Proof.
  intros Hj. unfold b_compl. rewrite to_b_uint_bits, Z.lnot_spec by assumption.
  reflexivity.
Qed.

Lemma fold_land_bits args : forall r j,
  Z.testbit (fold_left Z.land args r) j =
  Z.testbit r j && forallb (fun a => Z.testbit a j) args.
Proof.
  induction args as [|a args IH]; intros r j; simpl.
  - rewrite andb_true_r. reflexivity.
  - rewrite IH, Z.land_spec, andb_assoc. reflexivity.
Qed.

Lemma fold_lor_bits args : forall r j,
  Z.testbit (fold_left Z.lor args r) j =
  Z.testbit r j || existsb (fun a => Z.testbit a j) args.
Proof.
  induction args as [|a args IH]; intros r j; simpl.
  - rewrite orb_false_r. reflexivity.
  - rewrite IH, Z.lor_spec, orb_assoc. reflexivity.
Qed.

Lemma fold_lxor_bits args : forall r j,
  Z.testbit (fold_left Z.lxor args r) j =
  fold_left xorb (map (fun a => Z.testbit a j) args) (Z.testbit r j).
Proof.
  induction args as [|a args IH]; intros r j; simpl; [reflexivity|].
  rewrite IH, Z.lxor_spec. reflexivity.
Qed.

Lemma andaux_bits args j :
  0 <= j < NBITS ->
  Z.testbit (andaux args) j = forallb (fun a => Z.testbit a j) args.
Proof.
  intros Hj. unfold andaux. rewrite fold_land_bits, b_compl_bits by lia.
  rewrite Z.bits_0. destruct (Z.ltb_spec j NBITS); [reflexivity|lia].
Qed.

Lemma andaux_range args : b_uint (andaux args).
Proof.
  apply b_uint_of_bits. intros j Hj. unfold andaux.
  rewrite fold_land_bits, b_compl_bits.
  - destruct (Z.ltb_spec j NBITS); [lia|reflexivity].
  - unfold NBITS in Hj. lia.
Qed.

Lemma fold_lor_range args : Forall b_uint args -> b_uint (fold_left Z.lor args 0).
Proof.
  intros Hargs. apply b_uint_of_bits. intros j Hj.
  rewrite fold_lor_bits, Z.bits_0. simpl.
  apply not_true_is_false. intros H. apply existsb_exists in H as (a & Ha & Hb).
  rewrite Forall_forall in Hargs.
  rewrite (b_uint_bits_high a j) in Hb; [discriminate| |assumption].
  apply Hargs. apply list_elem_of_In. assumption.
Qed.

(** X16. [b_and] returns a [b_uint] whose bit [j] is set exactly when bit
    [j] is set in every argument (so that it is [0xffffffff] without
    arguments), and [b_test] returns true exactly when some bit is set in
    every argument. *)
Theorem b_and_bits args :
  b_uint (b_and args) /\
  (forall j, 0 <= j < NBITS ->
     Z.testbit (b_and args) j = forallb (fun a => Z.testbit a j) args) /\
  (b_test args = true <->
   exists j, 0 <= j < NBITS /\ Forall (fun a => Z.testbit a j = true) args).
Proof.
  unfold b_and, b_test.
  pose proof (andaux_range args) as Hu.
  split; [exact Hu|]. split; [intros j; apply andaux_bits|].
  set (r := andaux args) in *.
  rewrite negb_true_iff, Z.eqb_neq. split.
  - intros Hne. exists (Z.log2 r).
    assert (Hpos : 0 < r) by (unfold b_uint in Hu; lia).
    assert (Hlog : 0 <= Z.log2 r < NBITS).
    { split; [apply Z.log2_nonneg|]. apply Z.log2_lt_pow2; [assumption|apply Hu]. }
    split; [assumption|].
    pose proof (Z.bit_log2 r Hpos) as Hb. unfold r in Hb.
    rewrite andaux_bits in Hb by assumption.
    rewrite forallb_forall in Hb. apply Forall_forall.
    intros a Ha. apply Hb. apply list_elem_of_In. assumption.
  - intros (j & Hj & Hall) E.
    assert (Hb : Z.testbit r j = true).
    { unfold r. rewrite andaux_bits by assumption. apply forallb_forall.
      intros a Ha. rewrite Forall_forall in Hall. apply Hall.
      apply list_elem_of_In. assumption. }
    rewrite E, Z.bits_0 in Hb. discriminate.
Qed.

(** X17. [b_or] returns a [b_uint] whose bit [j] is set exactly when bit
    [j] is set in some argument. *)
Theorem b_or_bits args :
  Forall b_uint args ->
  b_uint (b_or args) /\
  forall j, 0 <= j < NBITS ->
    Z.testbit (b_or args) j = existsb (fun a => Z.testbit a j) args.
Proof.
  intros Hargs. unfold b_or. split; [apply fold_lor_range; assumption|].
  intros j _. rewrite fold_lor_bits, Z.bits_0. reflexivity.
Qed.

Lemma fold_xorb_false l : (forall b, b ∈ l -> b = false) ->
  forall c, fold_left xorb l c = c.
Proof.
  induction l as [|b l IH]; intros H c; simpl; [reflexivity|].
  rewrite IH.
  - rewrite (H b) by left. apply xorb_false_r.
  - intros b' Hb'. apply H. right. assumption.
Qed.

(** X18. [b_xor] returns a [b_uint] whose bit [j] is the exclusive or of
    the bits [j] of the arguments; and [b_xor] of a value with another,
    twice, gives the value back. *)
Theorem b_xor_bits args :
  Forall b_uint args ->
  b_uint (b_xor args) /\
  (forall j, 0 <= j < NBITS ->
     Z.testbit (b_xor args) j =
     fold_left xorb (map (fun a => Z.testbit a j) args) false) /\
  (forall a b, b_xor [b_xor [a; b]; b] = a).
Proof.
  intros Hargs. unfold b_xor. split; [|split].
  - apply b_uint_of_bits. intros j Hj. rewrite fold_lxor_bits, Z.bits_0.
    apply fold_xorb_false. intros b Hb.
    apply list_elem_of_In, in_map_iff in Hb as (a & <- & Ha).
    apply b_uint_bits_high; [|assumption].
    rewrite Forall_forall in Hargs. apply Hargs, list_elem_of_In. assumption.
  - intros j _. rewrite fold_lxor_bits, Z.bits_0. reflexivity.
  - intros a b. cbn [fold_left]. rewrite !Z.lxor_0_l.
    rewrite Z.lxor_assoc, Z.lxor_nilpotent, Z.lxor_0_r. reflexivity.
Qed.

(** X19. [b_not] returns a [b_uint], flips each of the [NBITS] bits,
    is its own inverse, and the argument and the result add up to
    [2 ^ NBITS - 1]. *)
Theorem b_not_involutive r :
  b_uint r ->
  b_uint (b_not r) /\ b_not (b_not r) = r /\ r + b_not r = 2 ^ NBITS - 1 /\
  forall j, 0 <= j < NBITS -> Z.testbit (b_not r) j = negb (Z.testbit r j).
Proof.
  intros Hr. unfold b_not.
  assert (Hb : forall x j, 0 <= j < NBITS ->
            Z.testbit (b_compl x) j = negb (Z.testbit x j)).
  { intros x j Hj. rewrite b_compl_bits by lia.
    destruct (Z.ltb_spec j NBITS); [reflexivity|lia]. }
  split; [apply to_b_uint_range|]. split; [|split; [|apply Hb]].
  - apply b_uint_eq; [apply to_b_uint_range|assumption|].
    intros j Hj. rewrite Hb, Hb by assumption. apply negb_involutive.
  - unfold b_compl, to_b_uint, b_uint, NBITS in *.
    rewrite <- Z.add_opp_r in *. unfold Z.lnot. rewrite <- Z.sub_1_r.
    replace (- r - 1) with (2 ^ 32 - 1 - r + (-1) * 2 ^ 32) by lia.
    rewrite Z.mod_add by lia. rewrite Z.mod_small; lia.
Qed.

(** X20. De Morgan: [b_not] of [b_and] is [b_or] of the [b_not]s, and
    [b_not] of [b_or] is [b_and] of the [b_not]s, for any number of
    arguments. *)
Theorem b_de_morgan args :
  b_not (b_and args) = b_or (map b_not args) /\
  b_not (b_or args) = b_and (map b_not args).
Proof.
  assert (Hall : Forall b_uint (map b_not args)).
  { apply Forall_forall. intros x Hx.
    apply list_elem_of_In, in_map_iff in Hx as (a & <- & _). apply to_b_uint_range. }
  assert (Hn : forall x j, 0 <= j < NBITS ->
            Z.testbit (b_not x) j = negb (Z.testbit x j)).
  { intros x j Hj. unfold b_not. rewrite b_compl_bits by lia.
    destruct (Z.ltb_spec j NBITS); [reflexivity|lia]. }
  split.
  - apply b_uint_eq; [apply to_b_uint_range|apply fold_lor_range; assumption|].
    intros j Hj. rewrite Hn by assumption. unfold b_and, b_or.
    rewrite andaux_bits, fold_lor_bits, Z.bits_0 by assumption. simpl.
    clear Hall. induction args as [|a args IH]; [reflexivity|].
    simpl. rewrite negb_andb, IH, Hn by assumption. reflexivity.
  - apply b_uint_eq; [apply to_b_uint_range|apply andaux_range|].
    intros j Hj. rewrite Hn by assumption. unfold b_and, b_or.
    rewrite andaux_bits, fold_lor_bits, Z.bits_0 by assumption. simpl.
    clear Hall. induction args as [|a args IH]; [reflexivity|].
    simpl. rewrite negb_orb, IH, Hn by assumption. reflexivity.
Qed.

(** X25. The order of the arguments does not matter: [b_and], [b_test],
    [b_or] and [b_xor] return the same value for two lists of arguments
    that are permutations of each other. *)
Theorem b_fold_permutation args args' :
  Permutation args args' ->
  b_and args = b_and args' /\ b_test args = b_test args' /\
  b_or args = b_or args' /\ b_xor args = b_xor args'.
Proof.
  intros Hp.
  assert (Hand : andaux args = andaux args').
  { apply b_uint_eq; [apply andaux_range..|].
    intros j Hj. rewrite !andaux_bits by assumption.
    induction Hp as [|a l l' _ IH|a b l|l l' l'' _ IH1 _ IH2]; simpl.
    - reflexivity.
    - rewrite IH. reflexivity.
    - rewrite !andb_assoc, (andb_comm (Z.testbit b j)). reflexivity.
    - congruence. }
  split; [exact Hand|]. split; [unfold b_test; rewrite Hand; reflexivity|].
  split.
  - unfold b_or. apply Z.bits_inj'. intros j _. rewrite !fold_lor_bits.
    f_equal. clear Hand.
    induction Hp as [|a l l' _ IH|a b l|l l' l'' _ IH1 _ IH2]; simpl.
    + reflexivity.
    + rewrite IH. reflexivity.
    + rewrite !orb_assoc, (orb_comm (Z.testbit b j)). reflexivity.
    + congruence.
  - unfold b_xor. clear Hand. generalize 0.
    induction Hp as [|a l l' _ IH|a b l|l l' l'' _ IH1 _ IH2]; intros r; simpl.
    + reflexivity.
    + apply IH.
    + rewrite !Z.lxor_assoc, (Z.lxor_comm a b). reflexivity.
    + rewrite IH1. apply IH2.
Qed.

Lemma b_shift_left r i :
  0 <= i -> b_shift r i = Ret ((r * 2 ^ i) mod 2 ^ NBITS).
Proof.
  intros Hi. unfold b_shift. destruct (Z.ltb_spec i 0); [lia|].
  destruct (Z.leb_spec NBITS i) as [Hge|Hlt]; unfold NBITS in *.
  - f_equal. symmetry. apply Z.mod_divide; [lia|].
    apply Z.divide_mul_r. exists (2 ^ (i - 32)).
    rewrite <- Z.pow_add_r by lia. f_equal. lia.
  - unfold to_b_uint, NBITS. rewrite Z.shiftl_mul_pow2 by lia. reflexivity.
Qed.

Lemma b_shift_right r i :
  b_uint r -> 0 < i < 2 ^ 31 -> b_shift r (- i) = Ret (r / 2 ^ i).
Proof.
  intros Hr Hi. unfold b_uint, NBITS in Hr. unfold b_shift.
  destruct (Z.ltb_spec (- i) 0); [|lia].
  destruct (Z.eqb_spec (- i) INT_MIN) as [E|_]; [unfold INT_MIN in E; lia|].
  rewrite Z.opp_involutive.
  destruct (Z.leb_spec NBITS i) as [Hge|Hlt]; unfold NBITS in *.
  - f_equal. symmetry. apply Z.div_small. split; [lia|].
    apply Z.lt_le_trans with (2 ^ 32); [lia|].
    apply Z.pow_le_mono_r; lia.
  - rewrite Z.shiftr_div_pow2 by lia. reflexivity.
Qed.

Lemma b_rshift_div r i :
  b_uint r -> 0 <= i < 2 ^ 31 -> b_rshift r i = Ret (r / 2 ^ i).
Proof.
  intros Hr Hi. unfold b_rshift.
  destruct (Z.eqb_spec i INT_MIN) as [E|_]; [unfold INT_MIN in E; lia|].
  destruct (Z.eq_dec i 0) as [->|Hne].
  - rewrite Z.opp_0, b_shift_left by lia. f_equal.
    rewrite Z.pow_0_r, Z.mul_1_r, Z.div_1_r. apply Z.mod_small. exact Hr.
  - apply b_shift_right; [assumption|lia].
Qed.

(** X21. The logical shifts, for a count [i] that is not negative:
    [b_lshift] multiplies by [2 ^ i] modulo [2 ^ NBITS], [b_rshift] divides
    by [2 ^ i], both giving 0 from [NBITS] on; and with the count [- i]
    each one does what the other does with [i]. *)
Theorem b_shift_arith r i :
  b_uint r -> 0 <= i < 2 ^ 31 ->
  b_lshift r i = Ret ((r * 2 ^ i) mod 2 ^ NBITS) /\
  b_rshift r i = Ret (r / 2 ^ i) /\
  (NBITS <= i -> b_lshift r i = Ret 0 /\ b_rshift r i = Ret 0) /\
  (0 < i -> b_lshift r (- i) = Ret (r / 2 ^ i) /\
            b_rshift r (- i) = Ret ((r * 2 ^ i) mod 2 ^ NBITS)).
Proof.
  intros Hr Hi.
  split; [apply b_shift_left; lia|]. split; [apply b_rshift_div; assumption|].
  split.
  - intros Hbig. unfold b_lshift, b_rshift, b_shift.
    destruct (Z.eqb_spec i INT_MIN) as [E|_]; [unfold INT_MIN in E; lia|].
    destruct (Z.ltb_spec i 0); [lia|].
    destruct (Z.ltb_spec (- i) 0); [|unfold NBITS in Hbig; lia].
    destruct (Z.eqb_spec (- i) INT_MIN) as [E|_]; [unfold INT_MIN in E; lia|].
    rewrite Z.opp_involutive.
    destruct (Z.leb_spec NBITS i); [split; reflexivity|lia].
  - intros Hpos. split; [apply b_shift_right; [assumption|lia]|].
    unfold b_rshift.
    destruct (Z.eqb_spec (- i) INT_MIN) as [E|_]; [unfold INT_MIN in E; lia|].
    rewrite Z.opp_involutive. apply b_shift_left. lia.
Qed.

Lemma sign_bit r : b_uint r -> Z.testbit r 31 = negb (r <? 2 ^ 31).
Proof.
  unfold b_uint, NBITS. intros Hr.
  destruct (Z.ltb_spec r (2 ^ 31)) as [H|H]; cbn [negb].
  - apply Z.testbit_false; [lia|]. rewrite Z.div_small by lia. reflexivity.
  - apply Z.testbit_true; [lia|].
    assert (E : r / 2 ^ 31 = 1); [|rewrite E; reflexivity].
    symmetry. apply (Z.div_unique r (2 ^ 31) 1 (r - 2 ^ 31)); lia.
Qed.

Lemma sign_mask r : b_uint r -> (Z.land r 0x80000000 =? 0) = (r <? 2 ^ 31).
Proof.
  intros Hr. pose proof (sign_bit r Hr) as Hs.
  change 0x80000000 with (2 ^ 31).
  destruct (Z.eqb_spec (Z.land r (2 ^ 31)) 0) as [E|E].
  - assert (Hb : Z.testbit (Z.land r (2 ^ 31)) 31 = false)
      by (rewrite E; apply Z.bits_0).
    rewrite Z.land_spec, Z.pow2_bits_true, andb_true_r in Hb by lia.
    rewrite Hb in Hs. destruct (r <? 2 ^ 31); [reflexivity|discriminate].
  - destruct (r <? 2 ^ 31); [|reflexivity]. cbn [negb] in Hs. exfalso. apply E.
    apply Z.bits_inj'. intros j Hj. rewrite Z.land_spec, Z.bits_0.
    rewrite Z.pow2_bits_eqb by lia.
    destruct (Z.eqb_spec 31 j) as [<-|]; [rewrite Hs; reflexivity|].
    apply andb_false_r.
Qed.

Lemma as_b_int_bits r k :
  b_uint r -> 0 <= k -> Z.testbit (as_b_int r) k = Z.testbit r (Z.min k 31).
Proof.
  intros Hr Hk. pose proof (sign_bit r Hr) as Hs. unfold as_b_int.
  pose proof Hr as Hr'. unfold b_uint, NBITS in Hr'.
  destruct (Z.ltb_spec r (2 ^ 31)) as [H|H]; cbn [negb] in Hs.
  - destruct (Z.le_gt_cases k 31) as [Hle|Hgt].
    + rewrite Z.min_l by assumption. reflexivity.
    + rewrite Z.min_r by lia. rewrite Hs.
      apply b_uint_bits_high; [assumption|unfold NBITS; lia].
  - destruct (Z.le_gt_cases k 31) as [Hle|Hgt].
    + rewrite Z.min_l by assumption.
      rewrite <- (Z.mod_pow2_bits_low (r - 2 ^ NBITS) 32 k) by lia.
      rewrite <- (Z.mod_pow2_bits_low r 32 k) by lia.
      f_equal. unfold NBITS.
      replace (r - 2 ^ 32) with (r + (-1) * 2 ^ 32) by lia.
      apply Z.mod_add. lia.
    + rewrite Z.min_r by lia. rewrite Hs. unfold NBITS.
      apply Z.bits_above_log2_neg; [lia|].
      destruct (Z.eq_dec (Z.pred (- (r - 2 ^ 32))) 0) as [->|Hne]; [simpl; lia|].
      apply Z.lt_trans with 31; [|lia].
      apply Z.log2_lt_pow2; lia.
Qed.

(** X22. [b_arshift] with a count [i] that is not negative returns a
    [b_uint] whose bit [j] is bit [j + i] of the argument, and bit 31 of
    the argument when [j + i] is above 31: it is the floor of the
    argument, read as a signed number of 32 bits, divided by [2 ^ i]. *)
Theorem b_arshift_spec r i :
  b_uint r -> 0 <= i < 2 ^ 31 ->
  exists s, b_arshift r i = Ret s /\ b_uint s /\
    (forall j, 0 <= j < NBITS ->
       Z.testbit s j = Z.testbit r (Z.min (j + i) 31)) /\
    s = (as_b_int r / 2 ^ i) mod 2 ^ NBITS.
Proof.
  intros Hr Hi.
  assert (Hbits : exists s, b_arshift r i = Ret s /\ b_uint s /\
            forall j, 0 <= j < NBITS ->
              Z.testbit s j = Z.testbit r (Z.min (j + i) 31)).
  { pose proof (sign_bit r Hr) as Hs. pose proof (sign_mask r Hr) as Hm.
    unfold b_arshift. destruct (Z.ltb_spec i 0) as [|_]; [lia|]. simpl.
    rewrite Hm. destruct (Z.ltb_spec r (2 ^ 31)) as [Hlt|Hge]; cbn [negb] in Hs.
    - destruct (Z.eqb_spec i INT_MIN) as [E|_]; [unfold INT_MIN in E; lia|].
      pose proof (b_rshift_div r i Hr Hi) as Er.
      unfold b_rshift in Er.
      destruct (Z.eqb_spec i INT_MIN) as [E|_]; [unfold INT_MIN in E; lia|].
      rewrite Er. eexists. split; [reflexivity|].
      assert (Hb : forall j, 0 <= j ->
                Z.testbit (r / 2 ^ i) j = Z.testbit r (Z.min (j + i) 31)).
      { intros j Hj. rewrite <- Z.shiftr_div_pow2, Z.shiftr_spec by lia.
        destruct (Z.le_gt_cases (j + i) 31) as [Hle|Hgt].
        - rewrite Z.min_l by assumption. reflexivity.
        - rewrite Z.min_r by lia. rewrite Hs.
          apply b_uint_bits_high; [assumption|unfold NBITS; lia]. }
      split; [|intros j Hj; apply Hb; lia].
      apply b_uint_of_bits. intros j Hj. unfold NBITS in Hj.
      rewrite Hb by lia. rewrite Z.min_r by lia. exact Hs.
    - destruct (Z.leb_spec NBITS i) as [Hbig|Hsmall]; unfold NBITS in *.
      + eexists. split; [reflexivity|]. split; [unfold b_uint, NBITS; lia|].
        intros j Hj. rewrite Z.min_r by lia. rewrite Hs.
        change 0xffffffff with (Z.ones 32). apply Z.ones_spec_low. lia.
      + eexists. split; [reflexivity|].
        assert (Hb : forall j, 0 <= j ->
                  Z.testbit (Z.lor (Z.shiftr r i)
                               (b_compl (Z.shiftr (b_compl 0) i))) j =
                  (j <? 32) && Z.testbit r (Z.min (j + i) 31)).
        { intros j Hj. rewrite Z.lor_spec, Z.shiftr_spec by assumption.
          rewrite b_compl_bits, Z.shiftr_spec, b_compl_bits by lia.
          rewrite Z.bits_0. unfold NBITS. simpl negb. rewrite andb_true_r.
          destruct (Z.ltb_spec j 32) as [Hj32|Hj32]; simpl.
          - destruct (Z.ltb_spec (j + i) 32) as [Hji|Hji]; simpl.
            + rewrite Z.min_l by lia. apply orb_false_r.
            + rewrite Z.min_r by lia. rewrite Hs. apply orb_true_r.
          - rewrite orb_false_r. apply b_uint_bits_high; [assumption|].
            unfold NBITS. lia. }
        split.
        * apply b_uint_of_bits. intros j Hj. unfold NBITS in Hj.
          rewrite Hb by lia. destruct (Z.ltb_spec j 32); [lia|reflexivity].
        * intros j Hj. rewrite Hb by lia.
          destruct (Z.ltb_spec j 32); [reflexivity|lia]. }
  destruct Hbits as (s & E & Hu & Hb). exists s.
  split; [assumption|]. split; [assumption|]. split; [assumption|].
  apply b_uint_eq; [assumption|apply to_b_uint_range|].
  intros j Hj. rewrite Hb by assumption.
  change ((as_b_int r / 2 ^ i) mod 2 ^ NBITS) with (to_b_uint (as_b_int r / 2 ^ i)).
  rewrite to_b_uint_bits. destruct (Z.ltb_spec j NBITS); [|lia]. simpl.
  rewrite <- Z.shiftr_div_pow2, Z.shiftr_spec by lia.
  symmetry. apply as_b_int_bits; [assumption|lia].
Qed.

Lemma b_rot_bits r i :
  b_uint r -> i mod NBITS <> 0 ->
  exists s, b_rot r i = Ret s /\ b_uint s /\
    forall j, 0 <= j < NBITS -> Z.testbit s j = Z.testbit r ((j - i) mod NBITS).
Proof.
  intros Hr Hi. unfold b_rot.
  assert (E : Z.land i (NBITS - 1) = i mod NBITS).
  { unfold NBITS. change (32 - 1) with (Z.ones 5). rewrite Z.land_ones by lia.
    reflexivity. }
  rewrite E. set (n := i mod NBITS) in *.
  assert (Hn : 0 < n < NBITS).
  { pose proof (Z.mod_pos_bound i NBITS). unfold n, NBITS in *. lia. }
  destruct (Z.eqb_spec n 0) as [|_]; [contradiction|].
  eexists. split; [reflexivity|].
  assert (Hb : forall j, 0 <= j ->
            Z.testbit (Z.lor (to_b_uint (Z.shiftl r n)) (Z.shiftr r (NBITS - n))) j =
            (j <? NBITS) && Z.testbit r ((j - i) mod NBITS)).
  { intros j Hj. rewrite Z.lor_spec, to_b_uint_bits.
    rewrite Z.shiftl_spec, Z.shiftr_spec by lia.
    assert (Em : (j - i) mod NBITS = (j - n) mod NBITS).
    { unfold n. symmetry. apply Zminus_mod_idemp_r. }
    rewrite Em. destruct (Z.ltb_spec j NBITS) as [Hj32|Hj32]; simpl.
    - destruct (Z.lt_ge_cases j n) as [Hlt|Hge].
      + rewrite (Z.testbit_neg_r r (j - n)) by lia. simpl. f_equal.
        apply (Z.mod_unique_pos _ _ (-1)); unfold NBITS in *; lia.
      + rewrite (b_uint_bits_high r (j + (NBITS - n))) by (assumption || lia).
        rewrite orb_false_r. f_equal. symmetry. apply Z.mod_small. lia.
    - apply b_uint_bits_high; [assumption|lia]. }
  split.
  - apply b_uint_of_bits. intros j Hj. rewrite Hb by (unfold NBITS in Hj; lia).
    destruct (Z.ltb_spec j NBITS); [lia|reflexivity].
  - intros j Hj. rewrite Hb by lia. destruct (Z.ltb_spec j NBITS); [reflexivity|lia].
Qed.

(** X23. Rotation, for a count that is not a multiple of [NBITS]:
    [b_rol] returns the [b_uint] whose bit [j] is bit [(j - i) mod NBITS]
    of the argument, and [b_ror] with the same count gives the argument
    back. *)
Theorem b_rot_roundtrip r i :
  b_uint r -> c_int i -> i mod NBITS <> 0 ->
  exists s, b_rol r i = Ret s /\ b_uint s /\
    (forall j, 0 <= j < NBITS ->
       Z.testbit s j = Z.testbit r ((j - i) mod NBITS)) /\
    b_ror s i = Ret r.
Proof.
  intros Hr _ Hi. destruct (b_rot_bits r i Hr Hi) as (s & E & Hu & Hb).
  exists s. split; [exact E|]. split; [assumption|]. split; [assumption|].
  unfold b_ror.
  destruct (Z.eqb_spec i INT_MIN) as [->|_]; [exfalso; apply Hi; reflexivity|].
  assert (Hi' : (- i) mod NBITS <> 0).
  { intros H. apply Hi. apply Z.mod_opp_l_z in H; [|unfold NBITS; lia].
    rewrite Z.opp_involutive in H. assumption. }
  destruct (b_rot_bits s (- i) Hu Hi') as (s' & E' & Hu' & Hb').
  rewrite E'. f_equal. apply b_uint_eq; [assumption..|].
  intros j Hj. rewrite Hb' by assumption.
  assert (Hj' : 0 <= (j - - i) mod NBITS < NBITS)
    by (apply Z.mod_pos_bound; reflexivity).
  rewrite Hb by assumption. f_equal.
  rewrite Zminus_mod_idemp_l.
  replace (j - - i - i) with j by lia. apply Z.mod_small. assumption.
Qed.

(** ** Examples for the bitwise operations *)

(** X17, at two arguments. *)
Lemma b_or_bits_witness :
  Forall b_uint [0x0ff0; 0xff00] /\
  b_uint (b_or [0x0ff0; 0xff00]) /\
  forall j, 0 <= j < NBITS ->
    Z.testbit (b_or [0x0ff0; 0xff00]) j
    = existsb (fun a => Z.testbit a j) [0x0ff0; 0xff00].
Proof.
  assert (H : Forall b_uint [0x0ff0; 0xff00])
    by (repeat constructor; unfold b_uint, NBITS; lia).
  split; [exact H|]. apply (b_or_bits [0x0ff0; 0xff00] H).
Defined.

(** X18, at three arguments. *)
Lemma b_xor_bits_witness :
  Forall b_uint [0x0ff0; 0xff00; 0xffffffff] /\
  b_uint (b_xor [0x0ff0; 0xff00; 0xffffffff]) /\
  (forall j, 0 <= j < NBITS ->
     Z.testbit (b_xor [0x0ff0; 0xff00; 0xffffffff]) j =
     fold_left xorb
       (map (fun a => Z.testbit a j) [0x0ff0; 0xff00; 0xffffffff]) false) /\
  (forall a b, b_xor [b_xor [a; b]; b] = a).
Proof.
  assert (H : Forall b_uint [0x0ff0; 0xff00; 0xffffffff])
    by (repeat constructor; unfold b_uint, NBITS; lia).
  split; [exact H|]. apply (b_xor_bits [0x0ff0; 0xff00; 0xffffffff] H).
Defined.

(** X19, at [0x12345678]. *)
Lemma b_not_involutive_witness :
  b_uint 0x12345678 /\
  b_uint (b_not 0x12345678) /\ b_not (b_not 0x12345678) = 0x12345678 /\
  0x12345678 + b_not 0x12345678 = 2 ^ NBITS - 1 /\
  forall j, 0 <= j < NBITS ->
    Z.testbit (b_not 0x12345678) j = negb (Z.testbit 0x12345678 j).
Proof.
  assert (H : b_uint 0x12345678) by (unfold b_uint, NBITS; lia).
  split; [exact H|]. apply (b_not_involutive 0x12345678 H).
Defined.

(** X21, at [0x80000001] and the counts 4 and 40. *)
Lemma b_shift_arith_witness :
  b_uint 0x80000001 /\ 0 <= 4 < 2 ^ 31 /\ 0 <= 40 < 2 ^ 31 /\
  (b_lshift 0x80000001 4 = Ret ((0x80000001 * 2 ^ 4) mod 2 ^ NBITS) /\
   b_rshift 0x80000001 4 = Ret (0x80000001 / 2 ^ 4) /\
   (NBITS <= 4 -> b_lshift 0x80000001 4 = Ret 0 /\ b_rshift 0x80000001 4 = Ret 0) /\
   (0 < 4 -> b_lshift 0x80000001 (- 4) = Ret (0x80000001 / 2 ^ 4) /\
             b_rshift 0x80000001 (- 4)
             = Ret ((0x80000001 * 2 ^ 4) mod 2 ^ NBITS))) /\
  (NBITS <= 40 -> b_lshift 0x80000001 40 = Ret 0 /\ b_rshift 0x80000001 40 = Ret 0).
Proof.
  assert (H : b_uint 0x80000001) by (unfold b_uint, NBITS; lia).
  assert (H4 : 0 <= 4 < 2 ^ 31) by lia.
  assert (H40 : 0 <= 40 < 2 ^ 31) by lia.
  split; [exact H|]. split; [exact H4|]. split; [exact H40|]. split.
  - apply (b_shift_arith 0x80000001 4 H H4).
  - apply (b_shift_arith 0x80000001 40 H H40).
Defined.

(** X22, at [0x80000000], a negative number read as signed, and the
    count 4. *)
Lemma b_arshift_spec_witness :
  b_uint 0x80000000 /\ 0 <= 4 < 2 ^ 31 /\
  exists s, b_arshift 0x80000000 4 = Ret s /\ b_uint s /\
    (forall j, 0 <= j < NBITS ->
       Z.testbit s j = Z.testbit 0x80000000 (Z.min (j + 4) 31)) /\
    s = (as_b_int 0x80000000 / 2 ^ 4) mod 2 ^ NBITS.
Proof.
  assert (H : b_uint 0x80000000) by (unfold b_uint, NBITS; lia).
  assert (H4 : 0 <= 4 < 2 ^ 31) by lia.
  split; [exact H|]. split; [exact H4|].
  apply (b_arshift_spec 0x80000000 4 H H4).
Defined.

(** X23, at [0x80000001] and the count 4. *)
Lemma b_rot_roundtrip_witness :
  b_uint 0x80000001 /\ c_int 4 /\ 4 mod NBITS <> 0 /\
  exists s, b_rol 0x80000001 4 = Ret s /\ b_uint s /\
    (forall j, 0 <= j < NBITS ->
       Z.testbit s j = Z.testbit 0x80000001 ((j - 4) mod NBITS)) /\
    b_ror s 4 = Ret 0x80000001.
Proof.
  assert (H : b_uint 0x80000001) by (unfold b_uint, NBITS; lia).
  assert (Hi : c_int 4) by (unfold c_int, INT_MIN; lia).
  assert (Hm : 4 mod NBITS <> 0) by discriminate.
  split; [exact H|]. split; [exact Hi|]. split; [exact Hm|].
  apply (b_rot_roundtrip 0x80000001 4 H Hi Hm).
Defined.

(** X25, at three arguments and their reversal. *)
Lemma b_fold_permutation_witness :
  Permutation [0x0ff0; 0xff00; 0xf00f] [0xf00f; 0xff00; 0x0ff0] /\
  b_and [0x0ff0; 0xff00; 0xf00f] = b_and [0xf00f; 0xff00; 0x0ff0] /\
  b_test [0x0ff0; 0xff00; 0xf00f] = b_test [0xf00f; 0xff00; 0x0ff0] /\
  b_or [0x0ff0; 0xff00; 0xf00f] = b_or [0xf00f; 0xff00; 0x0ff0] /\
  b_xor [0x0ff0; 0xff00; 0xf00f] = b_xor [0xf00f; 0xff00; 0x0ff0].
Proof.
  assert (H : Permutation [0x0ff0; 0xff00; 0xf00f] [0xf00f; 0xff00; 0x0ff0])
    by (apply (Permutation_rev [0x0ff0; 0xff00; 0xf00f])).
  split; [exact H|]. apply (b_fold_permutation _ _ H).
Defined.
